(** * PolyFile: the Aho-Corasick search automaton, the parser registry and
      the recursive matcher, embedded from [polyfile/search.py] and
      [polyfile/polyfile.py]. *)

From Stdlib Require Import Strings.Byte Strings.Ascii Strings.String ZArith Lia.
From stdpp Require Import list strings gmap sorting.

#[global] Instance byte_eq_dec : EqDecision byte := Byte.byte_eq_dec.

(** ** search.py *)
Module Search.

(** A sequence handed to [add] or [search]: a Python [bytes]. *)
Abbreviation bseq := (list byte).

(** An [ACNode] object.  Objects live in a heap and are referred to by their
    address (the index in the heap), so that [is] is equality of addresses
    and [_parent], [_fall] and the values of [_children] are references.
    [_children] is the Python dict in insertion order; [_sources] is the
    Python set, kept without duplicates. *)
Record ACNode := mkACNode {
  _value : option byte;
  _sources : list bseq;
  _children : list (byte * nat);
  _parent : option nat;
  _fall : option nat
}.

Abbreviation heap := (list ACNode).

(** [ACNode()] : a node with no value, no parent and [_fall = None]. *)
Definition new_root : ACNode := mkACNode None [] [] None None.

(** Dict read [d[k]]; [None] is Python's [KeyError]. *)
Fixpoint dict_get (d : list (byte * nat)) (k : byte) : option nat :=
  match d with
  | [] => None
  | (k', v) :: d' => if decide (k' = k) then Some v else dict_get d' k
  end.

(** Dict write [d[k] = v]: replaces in place, or appends a new key. *)
Fixpoint dict_set (d : list (byte * nat)) (k : byte) (v : nat) : list (byte * nat) :=
  match d with
  | [] => [(k, v)]
  | (k', v') :: d' =>
      if decide (k' = k) then (k', v) :: d' else (k', v') :: dict_set d' k v
  end.

(** [set.add]. *)
Definition set_add (x : bseq) (s : list bseq) : list bseq :=
  if decide (x ∈ s) then s else s ++ [x].

(** [TrieNode.__contains__] for a single element: [value in node].  The value
    [None] of the root is in no [_children] dict. *)
Definition contains (n : ACNode) (value : option byte) : bool :=
  match value with
  | None => false
  | Some b => bool_decide (is_Some (dict_get (_children n) b))
  end.

(** [TrieNode.__getitem__]. *)
Definition getitem (n : ACNode) (key : byte) : option nat :=
  dict_get (_children n) key.

#[global] Arguments contains : simpl never.
#[global] Arguments getitem : simpl never.

Definition with_children (n : ACNode) (cs : list (byte * nat)) : ACNode :=
  mkACNode (_value n) (_sources n) cs (_parent n) (_fall n).
Definition with_sources (n : ACNode) (ss : list bseq) : ACNode :=
  mkACNode (_value n) ss (_children n) (_parent n) (_fall n).
Definition with_fall (n : ACNode) (f : nat) : ACNode :=
  mkACNode (_value n) (_sources n) (_children n) (_parent n) (Some f).

(** [ACNode._add_child]: allocates the child and stores it in [self._children]. *)
Definition _add_child (h : heap) (self : nat) (value : byte) : option (heap * nat) :=
  n ← h !! self;
  let new_child := length h in
  let h1 := h ++ [mkACNode (Some value) [] [] (Some self) None] in
  Some (<[self := with_children n (dict_set (_children n) value new_child)]> h1,
        new_child).

(** The [while True] loop of [TrieNode._add]: it follows existing children
    and leaves the loop on the empty remainder, or right after the first
    [_add_child]. *)
Fixpoint _add_walk (h : heap) (node : nat) (sequence : bseq) : option (heap * nat) :=
  match sequence with
  | [] => Some (h, node)
  | first :: sequence' =>
      n ← h !! node;
      if contains n (Some first)
      then c ← getitem n first; _add_walk h c sequence'
      else _add_child h node first
  end.

(** [TrieNode._add]. *)
Definition _add (h : heap) (self : nat) (sequence source : bseq) : option (heap * nat) :=
  '(h1, node) ← _add_walk h self sequence;
  n ← h1 !! node;
  Some (<[node := with_sources n (set_add source (_sources n))]> h1, node).

(** [TrieNode.add]. *)
Definition add (h : heap) (self : nat) (sequence : bseq) : option (heap * nat) :=
  _add h self sequence sequence.

(** [TrieNode.find]. *)
Fixpoint find (h : heap) (self : nat) (sequence : bseq) : option bool :=
  n ← h !! self;
  match sequence with
  | [] => Some (bool_decide (0 < length (_sources n)))
  | first :: remainder =>
      if contains n (Some first)
      then c ← getitem n first; find h c remainder
      else Some false
  end.

(** [TrieNode.bfs]: the nodes in the order the generator yields them.  The
    loop pops one node per round, so the fuel bounds the number of nodes
    yielded. *)
Fixpoint bfs_loop (fuel : nat) (h : heap) (queue : list nat) : option (list nat) :=
  match queue with
  | [] => Some []
  | head :: queue' =>
      match fuel with
      | 0 => None
      | S fuel' =>
          n ← h !! head;
          rest ← bfs_loop fuel' h (queue' ++ (_children n).*2);
          Some (head :: rest)
      end
  end.

Definition bfs (h : heap) (self : nat) : option (list nat) :=
  bfs_loop (length h) h [self].

(** The inner loop of [ACNode.finalize]:
    [while n.value not in new_fall and new_fall is not self]. *)
Fixpoint fall_loop (fuel : nat) (h : heap) (self : nat) (value : option byte)
    (new_fall : nat) : option nat :=
  nf ← h !! new_fall;
  if contains nf value || bool_decide (new_fall = self) then Some new_fall
  else match fuel with
       | 0 => None
       | S fuel' => nxt ← _fall nf; fall_loop fuel' h self value nxt
       end.

Definition set_fall (h : heap) (n f : nat) : option heap :=
  nd ← h !! n; Some (<[n := with_fall nd f]> h).

(** The body of the [for n in self.bfs()] loop of [ACNode.finalize]. *)
Definition finalize_node (h : heap) (self n : nat) : option heap :=
  if decide (n = self) then Some h
  else
    nd ← h !! n;
    p ← _parent nd;
    pn ← h !! p;
    start ← _fall pn;
    new_fall ← fall_loop (length h) h self (_value nd) start;
    nf ← h !! new_fall;
    if contains nf (_value nd)
    then
      v ← _value nd;
      c ← getitem nf v;
      set_fall h n (if decide (c = n) then self else c)
    else set_fall h n self.

Fixpoint finalize_nodes (h : heap) (self : nat) (ns : list nat) : option heap :=
  match ns with
  | [] => Some h
  | n :: ns' => h' ← finalize_node h self n; finalize_nodes h' self ns'
  end.

(** [ACNode.finalize].  The generator [bfs] reads only [_children] and the
    loop body writes only [_fall], so the nodes it yields are those of the
    heap at the start of the loop. *)
Definition finalize (h : heap) (self : nat) : option heap :=
  h0 ← set_fall h self self;
  ns ← bfs h0 self;
  finalize_nodes h0 self ns.

(** A [MultiSequenceSearch] object: the heap of its nodes and [self.trie]. *)
Record MultiSequenceSearch := mkMSS { nodes : heap; trie : nat }.

Fixpoint add_all (h : heap) (self : nat) (seqs : list bseq) : option heap :=
  match seqs with
  | [] => Some h
  | seq :: seqs' => '(h', _) ← add h self seq; add_all h' self seqs'
  end.

(** [MultiSequenceSearch.__init__]. *)
Definition MultiSequenceSearch_init (sequences_to_find : list bseq)
    : option MultiSequenceSearch :=
  h ← add_all [new_root] 0 sequences_to_find;
  h' ← finalize h 0;
  Some (mkMSS h' 0).

(** First [while] of [search]: [while c not in n and n is not self.trie]. *)
Fixpoint goto_loop (fuel : nat) (h : heap) (root : nat) (c : byte) (n : nat)
    : option nat :=
  nd ← h !! n;
  if contains nd (Some c) || bool_decide (n = root) then Some n
  else match fuel with
       | 0 => None
       | S fuel' => nxt ← _fall nd; goto_loop fuel' h root c nxt
       end.

(** Last [while] of [search]: [while n is not self.trie], yielding
    [(stream_offset, source)] for the sources of each node on the way. *)
Fixpoint emit_loop (fuel : nat) (h : heap) (root : nat) (stream_offset : nat)
    (n : nat) : option (list (nat * bseq)) :=
  if decide (n = root) then Some []
  else match fuel with
       | 0 => None
       | S fuel' =>
           nd ← h !! n;
           nxt ← _fall nd;
           rest ← emit_loop fuel' h root stream_offset nxt;
           Some (((λ source, (stream_offset, source)) <$> _sources nd) ++ rest)
       end.

(** The [for stream_offset, c in enumerate(...)] loop of [search]. *)
Fixpoint search_loop (h : heap) (root : nat) (state : nat) (stream_offset : nat)
    (source_sequence : bseq) : option (list (nat * bseq)) :=
  match source_sequence with
  | [] => Some []
  | c :: rest =>
      n ← goto_loop (length h) h root c state;
      nd ← h !! n;
      n' ← (if decide (n = root)
            then (if contains nd (Some c) then getitem nd c else Some n)
            else getitem nd c);
      out ← emit_loop (length h) h root stream_offset n';
      more ← search_loop h root n' (S stream_offset) rest;
      Some (out ++ more)
  end.

(** [MultiSequenceSearch.search]: everything the generator yields. *)
Definition search (m : MultiSequenceSearch) (source_sequence : bseq)
    : option (list (nat * bseq)) :=
  search_loop (nodes m) (trie m) (trie m) 0 source_sequence.

Definition bytes (s : string) : bseq := String.list_byte_of_string s.

(** *** Vocabulary of the statements about the trie *)

(** [walk h n p]: the node reached from [n] along the bytes of [p]. *)
Fixpoint walk (h : heap) (n : nat) (p : bseq) : option nat :=
  match p with
  | [] => Some n
  | b :: p' => nd ← h !! n; c ← getitem nd b; walk h c p'
  end.

(** A byte string is present in the trie when it labels a path from the root
    (address 0). *)
Definition in_trie (h : heap) (p : bseq) : Prop := is_Some (walk h 0 p).

(** The path of a node, read off the [_parent] references. *)
Fixpoint path_fuel (fuel : nat) (h : heap) (i : nat) : bseq :=
  match fuel with
  | 0 => []
  | S fuel' =>
      match h !! i with
      | Some nd =>
          match _parent nd, _value nd with
          | Some p, Some b => path_fuel fuel' h p ++ [b]
          | _, _ => []
          end
      | None => []
      end
  end.

Definition path (h : heap) (i : nat) : bseq := path_fuel (S i) h i.

Definition depth (h : heap) (i : nat) : nat := length (path h i).

(** [s] is the longest proper suffix of [w] present in the trie. *)
Definition lps (h : heap) (w s : bseq) : Prop :=
  s `suffix_of` w ∧ s ≠ w ∧ in_trie h s ∧
  ∀ s', s' `suffix_of` w → s' ≠ w → in_trie h s' → length s' ≤ length s.

(** The failure link of node [x] is resolved and points where it should. *)
Definition fall_ok (h : heap) (x : nat) : Prop :=
  ∃ nd f, h !! x = Some nd ∧ _fall nd = Some f ∧ f < length h ∧
          lps h (path h x) (path h f).

(** The references of a heap rooted at address 0 form a tree: [_parent] and
    [_value] of a node mirror the entry of its parent's [_children]. *)
Record WF (h : heap) : Prop := mkWF {
  wf_root : ∃ r, h !! 0 = Some r ∧ _parent r = None ∧ _value r = None;
  wf_up : ∀ i nd, h !! i = Some nd → i ≠ 0 →
      ∃ p b pn, _parent nd = Some p ∧ _value nd = Some b ∧ p < i ∧
                h !! p = Some pn ∧ dict_get (_children pn) b = Some i;
  wf_down : ∀ p pn b i, h !! p = Some pn → dict_get (_children pn) b = Some i →
      ∃ nd, h !! i = Some nd ∧ _parent nd = Some p ∧ _value nd = Some b;
  wf_keys : ∀ p pn, h !! p = Some pn → NoDup (_children pn).*1
}.

(** The failure link of the root is the root. *)
Definition root_fall (h : heap) : Prop :=
  ∃ r, h !! 0 = Some r ∧ _fall r = Some 0.

(** [todo] lists nodes by depth: whatever is shallower than one of its
    members comes before it, in [todo] or already in [done]. *)
Definition depth_ordered (h : heap) (done todo : list nat) : Prop :=
  ∀ pre n post m, todo = pre ++ n :: post →
    m < length h → depth h m < depth h n → m ≠ 0 → m ∈ done ++ pre.

(** The state of the [bfs] loop: [done] has been yielded, [queue] is the
    deque. *)
Record bfs_inv (h : heap) (done queue : list nat) : Prop := mkBfsInv {
  bi_nodup : NoDup (done ++ queue);
  bi_lt : ∀ x, x ∈ done ++ queue → x < length h;
  bi_children : ∀ x nd c, x ∈ done → h !! x = Some nd →
      c ∈ (_children nd).*2 → c ∈ done ++ queue;
  bi_parent : ∀ x nd p, x ∈ done ++ queue → h !! x = Some nd →
      _parent nd = Some p → p ∈ done;
  bi_sorted : StronglySorted (λ a b, depth h a ≤ depth h b) (done ++ queue);
  bi_root : 0 ∈ done ++ queue
}.

(** No node but the root carries the empty sequence as a source. *)
Definition sources_nonempty (h : heap) : Prop :=
  ∀ i nd s, h !! i = Some nd → i ≠ 0 → s ∈ _sources nd → s ≠ [].

(** A heap as [finalize] leaves it. *)
Definition finalized (h : heap) : Prop :=
  WF h ∧ root_fall h ∧ ∀ i, i < length h → i ≠ 0 → fall_ok h i.

(** [s] occurs in [T] with its last byte at index [i]. *)
Definition ends_at (T : bseq) (i : nat) (s : bseq) : Prop :=
  i < length T ∧ s `suffix_of` take (S i) T.

(** [s] is the longest suffix of [w] present in the trie. *)
Definition lsuf (h : heap) (w s : bseq) : Prop :=
  s `suffix_of` w ∧ in_trie h s ∧
  ∀ s', s' `suffix_of` w → in_trie h s' → s' `suffix_of` s.

(** What [finalize] leaves untouched. *)
Definition shape (nd : ACNode) : option byte * list (byte * nat) * option nat :=
  (_value nd, _children nd, _parent nd).

Definition same_shape (h h' : heap) : Prop := shape <$> h = shape <$> h'.

(** *** Prefix queries and the vocabulary of further statements *)

(** [TrieNode.find_prefix]: everything the generator yields.  The fuel bounds
    the depth of the recursion; [None] means it ran out or a reference
    dangles. *)
Fixpoint find_prefix_fuel (fuel : nat) (h : heap) (self : nat) (prefix : bseq)
    : option (list bseq) :=
  match fuel with
  | 0 => None
  | S fuel' =>
      n ← h !! self;
      match prefix with
      | [] =>
          below ← mapM (λ child, find_prefix_fuel fuel' h child [])
                       (_children n).*2;
          Some (_sources n ++ concat below)
      | first :: remainder =>
          if contains n (Some first)
          then c ← getitem n first; find_prefix_fuel fuel' h c remainder
          else Some []
      end
  end.

Definition find_prefix (h : heap) (self : nat) (prefix : bseq)
    : option (list bseq) :=
  find_prefix_fuel (length h) h self prefix.

(** The sequences are handed over so that each one, less its last byte, is
    empty or was handed over before. *)
Fixpoint built_up (seen : list bseq) (seqs : list bseq) : bool :=
  match seqs with
  | [] => true
  | s :: seqs' =>
      bool_decide (removelast s ∈ [] :: seen) && built_up (s :: seen) seqs'
  end.

(** A node without its failure link: what [add] and [find] read and write. *)
Definition erase_fall (nd : ACNode) : ACNode :=
  mkACNode (_value nd) (_sources nd) (_children nd) (_parent nd) None.

(** [TrieNode.__contains__] for a [bytes] argument: [value in node].  A
    sequence of length one is looked up among the children; any other is
    handed to [find]. *)
Definition contains_bytes (h : heap) (self : nat) (value : bseq) : option bool :=
  n ← h !! self;
  match value with
  | [first] => Some (bool_decide (is_Some (dict_get (_children n) first)))
  | _ => find h self value
  end.

End Search.

(** ** polyfile.py *)
Module Polyfile.

(** The exceptions the model tells apart; all of them derive from
    [Exception], and [InvalidMatch] is the subclass of [ValueError] a parser
    raises to reject a candidate. *)
Inductive exn :=
| InvalidMatch
| ValueError (msg : string)
| OtherException (msg : string).

Definition is_InvalidMatch (e : exn) : bool :=
  match e with InvalidMatch => true | _ => false end.

(** What the signature engine hands over for one test: [result.test.mime],
    already resolved against the context ([None] when the test declares no
    MIME pattern), and [result.test.all_extensions()]. *)
Record TestResult := mkTestResult {
  test_mime : option string;
  test_all_extensions : list string
}.

(** [Match.match]: the test result for a candidate, anything else for the
    nodes a parser builds. *)
Inductive payload := FromTest (r : TestResult) | Opaque (v : string).

Inductive class := ClsMatch | ClsSubmatch.

(** A [Match] object.  Objects live in a store and are referred to by their
    address (the index in the store): [_parent] and the members of
    [_children] are references. *)
Record Match := mkMatch {
  cls : class;
  name : string;
  matcher : option nat;
  match_obj : payload;
  img_data : option string;
  decoded : option (list byte);
  _offset : Z;
  _length : option Z;
  _parent : option nat;
  _children : list nat;
  display_name : string;
  extension : option string
}.

Abbreviation store := (list Match).

(** [parent._children.append(self)]. *)
Definition append_child (m : Match) (c : nat) : Match :=
  mkMatch (cls m) (name m) (matcher m) (match_obj m) (img_data m) (decoded m)
          (_offset m) (_length m) (_parent m) (_children m ++ [c])
          (display_name m) (extension m).

(** [guess_extension] adds a leading dot, which [__init__] removes. *)
Definition strip_dot (e : string) : string :=
  match e with
  | String "."%char rest => rest
  | _ => e
  end.

(** What a parser does once it is called on a window: the nodes it yields
    one after the other, then how its generator ends.  A yielded node is
    built when the generator reaches it, with the candidate or an earlier
    yield of the same parser as parent; [YieldFromMatch] is
    [yield from match.matcher.match(sub, parent=...)], and what that call
    raises ends the generator of the parser too. *)
Inductive pref := PCandidate | PYielded (k : nat).

Inductive action :=
| YieldSub (nm : string) (relative_offset : Z) (len : option Z) (parent : pref)
| YieldFromMatch (sub : list byte) (parent : pref).

Inductive ending := Return | RaiseExn (e : exn).

Record script := mkScript { actions : list action; ending_of : ending }.

(** [ParserFunction]: from the bytes of the window to what the generator
    does. *)
Definition ParserFunction := list byte → script.

(** A [Parser] object: an instance of a user subclass with its [parse]
    method, or a [ParserFunctionWrapper] around the function at [faddr]. *)
Inductive Parser :=
| ParserInstance (addr : nat) (parse : ParserFunction)
| ParserFunctionWrapper (addr : nat) (faddr : nat) (parser : ParserFunction).

Definition id_of (p : Parser) : nat :=
  match p with
  | ParserInstance a _ => a
  | ParserFunctionWrapper a _ _ => a
  end.

(** [Parser.__call__]. *)
Definition call (p : Parser) : ParserFunction :=
  match p with
  | ParserInstance _ f => f
  | ParserFunctionWrapper _ _ f => f
  end.

(** [Parser.__hash__] is [id(self)]; [ParserFunctionWrapper.__hash__] is the
    hash of the wrapped function, which is that of its address. *)
Definition py_hash (p : Parser) : nat :=
  match p with
  | ParserInstance a _ => a
  | ParserFunctionWrapper _ fa _ => fa
  end.

(** Neither class defines [__eq__]: equality is [object.__eq__], identity. *)
Definition py_eq (p q : Parser) : bool := bool_decide (id_of p = id_of q).

(** [set.add]: nothing happens when a member has the same hash and is equal. *)
Definition set_add (x : Parser) (s : list Parser) : list Parser :=
  if existsb (λ y, bool_decide (py_hash y = py_hash x) && py_eq y x) s
  then s else s ++ [x].

(** What [register_parser(...)] is applied to. *)
Inductive capability :=
| IsParser (p : Parser)
| IsFunction (faddr : nat) (f : ParserFunction).

(** The module state: the [PARSERS] dict and the next free address. *)
Record registry := mkRegistry {
  PARSERS : gmap string (list Parser);
  next_id : nat
}.

(** [PARSERS[ft]] of the [defaultdict(set)]. *)
Definition parsers_of (P : gmap string (list Parser)) (ft : string) : list Parser :=
  default [] (P !! ft).

(** The decorator [register_parser] applied to its file types and then to
    the parser. *)
Definition register_parser (filetypes : list string) (parser : capability)
    (g : registry) : registry * Parser :=
  let '(p, next) :=
    match parser with
    | IsParser p => (p, next_id g)
    | IsFunction fa f => (ParserFunctionWrapper (next_id g) fa f, S (next_id g))
    end in
  (mkRegistry
     (foldl (λ P ft, <[ft := set_add p (parsers_of P ft)]> P) (PARSERS g) filetypes)
     next,
   p).

(** [Match.offset]: [None] when a reference dangles or the fuel runs out. *)
Fixpoint offset_fuel (fuel : nat) (st : store) (i : nat) : option Z :=
  match fuel with
  | 0 => None
  | S fuel' =>
      m ← st !! i;
      match _parent m with
      | Some p => po ← offset_fuel fuel' st p; Some (po + _offset m)%Z
      | None => Some (_offset m)
      end
  end.

Definition Match_offset (st : store) (i : nat) : option Z :=
  offset_fuel (S i) st i.

(** [max] of a non-empty sequence. *)
Definition max_of (x : Z) (xs : list Z) : Z := foldr Z.max x xs.

(** [Match.length]. *)
Fixpoint length_fuel (fuel : nat) (st : store) (i : nat) : option Z :=
  match fuel with
  | 0 => None
  | S fuel' =>
      m ← st !! i;
      match _length m with
      | Some l => Some l
      | None =>
          ends ← mapM (λ c, o ← Match_offset st c;
                            l ← length_fuel fuel' st c;
                            Some (o + l)%Z) (_children m);
          match ends with
          | [] => Some 0%Z
          | e :: es => o ← Match_offset st i; Some (max_of e es - o)%Z
          end
      end
  end.

Definition Match_length (st : store) (i : nat) : option Z :=
  length_fuel (length st - i) st i.

(** A [Matcher] object; [magic_matcher] stands for
    [self.magic_matcher.match(MatchContext.load(f, only_match_mime=True))]
    as a function of the bytes of the window. *)
Record Matcher := mkMatcher {
  m_addr : nat;
  try_all_offsets : bool;
  parse : bool;
  magic_matcher : list byte → list (list TestResult)
}.

(** What has come out of a generator once it is exhausted or has raised:
    the store, the objects yielded in order, the warnings logged (parser,
    MIME type, exception) and the exception that ended it, if any. *)
Record run := mkRun {
  r_store : store;
  r_out : list nat;
  r_log : list (nat * string * exn);
  r_exn : option exn
}.

(** One generator after another: the second starts only if the first did not
    raise. *)
Definition and_then (r : option run) (k : store → option run) : option run :=
  r1 ← r;
  match r_exn r1 with
  | Some _ => Some r1
  | None =>
      r2 ← k (r_store r1);
      Some (mkRun (r_store r2) (r_out r1 ++ r_out r2) (r_log r1 ++ r_log r2)
                  (r_exn r2))
  end.

(** The arguments of one [Match(...)] or [Submatch(...)] call. *)
Record ctor_args := mkArgs {
  a_cls : class;
  a_name : string;
  a_match : payload;
  a_relative_offset : Z;
  a_length : option Z;
  a_parent : option nat;
  a_matcher : option nat;
  a_display_name : option string;
  a_img_data : option string;
  a_decoded : option (list byte);
  a_extension : option string
}.

Definition resolve_pref (m : nat) (yielded : list nat) (pr : pref) : option nat :=
  match pr with
  | PCandidate => Some m
  | PYielded k => yielded !! k
  end.

(** [FileStream(file_stream, start=offset, length=length)]. *)
Definition window (data : list byte) (offset len : Z) : list byte :=
  take (Z.to_nat len) (drop (Z.to_nat offset) data).

Section matcher.
Variable guess_extension : string → option string.
Variable registered : gmap string (list Parser).

(** [Match.__init__]: the new object is appended to [parent._children]
    before the check on [matcher]; the result is the store, the address of
    the object and the [ValueError], if raised. *)
Definition Match_init (st : store) (a : ctor_args)
    : option (store * nat * option exn) :=
  let self := length st in
  let ext := match a_extension a with
             | Some e => Some e
             | None => strip_dot <$> guess_extension (a_name a)
             end in
  let obj mt :=
    mkMatch (a_cls a) (a_name a) mt (a_match a) (a_img_data a) (a_decoded a)
            (a_relative_offset a) (a_length a) (a_parent a) []
            (default (a_name a) (a_display_name a)) ext in
  '(st1, mt) ← match a_parent a with
               | Some p =>
                   pm ← st !! p;
                   Some (<[p := append_child pm self]> st,
                         match a_matcher a with
                         | Some x => Some x
                         | None => matcher pm
                         end)
               | None => Some (st, a_matcher a)
               end;
  match mt with
  | Some x => Some (st1 ++ [obj (Some x)], self, None)
  | None =>
      Some (st1 ++ [obj None], self,
            Some (ValueError "A Match must be initialized with `parent` and/or `matcher` not being None"))
  end.

(** A sequence of constructor calls, as a run of the matcher performs. *)
Fixpoint construct (calls : list ctor_args) (st : store) : option store :=
  match calls with
  | [] => Some st
  | a :: calls' => '(st1, _, _) ← Match_init st a; construct calls' st1
  end.

Section body.
(** [matcher.match] as the parsers call it. *)
Variable recur : list byte → option nat → store → option run.
Variable M : Matcher.

(** The generator of a parser, run to its end: [yielded] so far, then
    the remaining actions. *)
Fixpoint run_actions (st : store) (m : nat) (yielded : list nat)
    (log : list (nat * string * exn)) (acts : list action) : option run :=
  match acts with
  | [] => Some (mkRun st yielded log None)
  | YieldSub nm off len pr :: acts' =>
      p ← resolve_pref m yielded pr;
      '(st1, a, e) ← Match_init st
         (mkArgs ClsSubmatch nm (Opaque nm) off len (Some p) None None None
                 None None);
      match e with
      | Some ex => Some (mkRun st1 yielded log (Some ex))
      | None => run_actions st1 m (yielded ++ [a]) log acts'
      end
  | YieldFromMatch sub pr :: acts' =>
      p ← resolve_pref m yielded pr;
      r ← recur sub (Some p) st;
      match r_exn r with
      | Some ex =>
          Some (mkRun (r_store r) (yielded ++ r_out r) (log ++ r_log r)
                      (Some ex))
      | None =>
          run_actions (r_store r) m (yielded ++ r_out r) (log ++ r_log r)
                      acts'
      end
  end.

Definition run_parser (st : store) (m : nat) (s : script) : option run :=
  r ← run_actions st m [] [] (actions s);
  match r_exn r, ending_of s with
  | None, RaiseExn ex => Some (mkRun (r_store r) (r_out r) (r_log r) (Some ex))
  | _, _ => Some r
  end.

(** One round of [for parser in PARSERS[mimetype]]: the candidate is
    built, the parser probed with [next], and only then is the candidate
    yielded.  An exception with nothing yielded yet comes out of [next]:
    [InvalidMatch] is swallowed by the outer [except], anything else
    leaves the generator.  An exception after the first element is the
    inner [except Exception]: logged, and the loop goes on. *)
Definition try_parser (mimetype : string) (match_obj : TestResult)
    (data : list byte) (parent : option nat) (offset len : Z)
    (extension : option string) (parser : Parser) (st : store)
    : option run :=
  '(st1, m, e) ← Match_init st
     (mkArgs ClsMatch mimetype (FromTest match_obj) offset (Some len) parent
             (Some (m_addr M)) None None None extension);
  match e with
  | Some ex => Some (mkRun st1 [] [] (Some ex))
  | None =>
      r ← run_parser st1 m (call parser (window data offset len));
      match r_out r, r_exn r with
      | [], None => Some (mkRun (r_store r) [m] (r_log r) None)
      | [], Some ex =>
          if is_InvalidMatch ex
          then Some (mkRun (r_store r) [] (r_log r) None)
          else Some (mkRun (r_store r) [] (r_log r) (Some ex))
      | first_submatch :: more, None =>
          Some (mkRun (r_store r) (m :: first_submatch :: more) (r_log r) None)
      | first_submatch :: more, Some ex =>
          Some (mkRun (r_store r) (m :: first_submatch :: more)
                      (r_log r ++ [(id_of parser, mimetype, ex)]) None)
      end
  end.

Fixpoint try_parsers (mimetype : string) (match_obj : TestResult)
    (data : list byte) (parent : option nat) (offset len : Z)
    (extension : option string) (parsers : list Parser) (st : store)
    : option run :=
  match parsers with
  | [] => Some (mkRun st [] [] None)
  | parser :: parsers' =>
      and_then
        (try_parser mimetype match_obj data parent offset len extension
                    parser st)
        (try_parsers mimetype match_obj data parent offset len extension
                     parsers')
  end.

(** [Matcher.handle_mimetype]. *)
Definition handle_mimetype (mimetype : string) (match_obj : TestResult)
    (data : list byte) (parent : option nat) (offset : Z)
    (len : option Z) (st : store) : option run :=
  let len := default (Z.of_nat (length data) - offset)%Z len in
  let extension := head (test_all_extensions match_obj) in
  if parse M
  then try_parsers mimetype match_obj data parent offset len extension
                   (parsers_of registered mimetype) st
  else
    '(st1, m, e) ← Match_init st
       (mkArgs ClsMatch mimetype (FromTest match_obj) offset (Some len)
               parent (Some (m_addr M)) None None None extension);
    Some (mkRun st1 (match e with Some _ => [] | None => [m] end) [] e).

(** [for result in magic_match] of [Matcher.match]; [matched] is
    [matched_mimetypes], handed back for the next group. *)
Fixpoint match_results (data : list byte) (parent : option nat)
    (matched : list string) (results : list TestResult) (st : store)
    : option (run * list string) :=
  match results with
  | [] => Some (mkRun st [] [] None, matched)
  | result :: results' =>
      match test_mime result with
      | None => match_results data parent matched results' st
      | Some mimetype =>
          if bool_decide (mimetype ∈ matched)
          then match_results data parent matched results' st
          else
            r1 ← handle_mimetype mimetype result data parent 0 None st;
            match r_exn r1 with
            | Some _ => Some (r1, mimetype :: matched)
            | None =>
                '(r2, matched') ← match_results data parent
                                     (mimetype :: matched) results' (r_store r1);
                Some (mkRun (r_store r2) (r_out r1 ++ r_out r2)
                            (r_log r1 ++ r_log r2) (r_exn r2), matched')
            end
      end
  end.

(** [for magic_match in self.magic_matcher.match(context)]. *)
Fixpoint match_groups (data : list byte) (parent : option nat)
    (matched : list string) (groups : list (list TestResult)) (st : store)
    : option run :=
  match groups with
  | [] => Some (mkRun st [] [] None)
  | magic_match :: groups' =>
      '(r1, matched') ← match_results data parent matched magic_match st;
      match r_exn r1 with
      | Some _ => Some r1
      | None =>
          r2 ← match_groups data parent matched' groups' (r_store r1);
          Some (mkRun (r_store r2) (r_out r1 ++ r_out r2)
                      (r_log r1 ++ r_log r2) (r_exn r2))
      end
  end.

(** The body of [Matcher.match]. *)
Definition match_body (file_stream : list byte) (parent : option nat)
    (st : store) : option run :=
  match_groups file_stream parent [] (magic_matcher M file_stream) st.
End body.

(** [Matcher.match], everything it yields.  The fuel bounds how deep
    parsers may call [match] again; [None] means it ran out. *)
Fixpoint match_ (fuel : nat) (M : Matcher) (file_stream : list byte)
    (parent : option nat) (st : store) : option run :=
  match fuel with
  | 0 => None
  | S fuel' => match_body (match_ fuel' M) M file_stream parent st
  end.
End matcher.

(** *** Vocabulary of the statements about the match tree *)

(** [v] is the greatest member of [l]. *)
Definition is_max (v : Z) (l : list Z) : Prop := v ∈ l ∧ ∀ x, x ∈ l → (x ≤ v)%Z.

(** References of a store follow the order of construction. *)
Definition WFst (st : store) : Prop :=
  ∀ i m, st !! i = Some m →
    (∀ p, _parent m = Some p → p < i) ∧
    (∀ c, c ∈ _children m → i < c ∧ c < length st).

(** *** The inputs of the examples *)

(** A parser function that yields nothing. *)
Definition silent : ParserFunction := λ _, mkScript [] Return.

(** [mimetypes.guess_extension] knowing no type. *)
Definition no_guess : string → option string := λ _, None.

(** A signature engine that finds "x/outer" in the bytes "AB" and "x/inner"
    in the bytes "B"; a parser for "x/outer" that matches the embedded "B"
    below its candidate; a parser for "x/inner" that rejects at once. *)
Definition embedded_B : list byte := Search.bytes "B".

Definition nested_matcher : Matcher :=
  mkMatcher 7 false true
    (λ data,
       if decide (data = Search.bytes "AB")
       then [[mkTestResult (Some "x/outer") ["out"]]]
       else if decide (data = embedded_B)
            then [[mkTestResult (Some "x/inner") []]]
            else []).

Definition nested_parsers : gmap string (list Parser) :=
  <["x/outer" :=
      [ParserInstance 10 (λ _, mkScript [YieldFromMatch embedded_B PCandidate] Return)]]>
  (<["x/inner" :=
      [ParserInstance 11 (λ _, mkScript [] (RaiseExn InvalidMatch))]]> ∅).

(** A signature engine that finds "x/nest" in every non-empty window, and a
    parser for it that matches the window without its first byte below its
    candidate. *)
Definition nest_matcher : Matcher :=
  mkMatcher 7 false true
    (λ data, match data with
             | [] => []
             | _ => [[mkTestResult (Some "x/nest") []]]
             end).







(** What of a run can be observed in the tree and the output; the log is
    left out. *)
Definition observable (r : run) : store * list nat * option exn :=
  (r_store r, r_out r, r_exn r).

(** The tree of the example: a root built at offset 100 without a length,
    and two children at relative offsets 10 (length 5) and 20 (length 3). *)
Definition example_tree : list ctor_args :=
  [mkArgs ClsMatch "root" (Opaque "root") 100%Z None None (Some 0%nat)
          None None None None;
   mkArgs ClsSubmatch "a" (Opaque "a") 10%Z (Some 5%Z) (Some 0%nat) None
          None None None None;
   mkArgs ClsSubmatch "b" (Opaque "b") 20%Z (Some 3%Z) (Some 0%nat) None
          None None None None].





(** Two runs, or two runs that got stuck, with the same observable part. *)
Definition osim (o o' : option run) : Prop :=
  observable <$> o = observable <$> o'.


(** A window with the test "x/t" found twice, and a registry with one silent
    parser for it. *)
Definition twice : TestResult := mkTestResult (Some "x/t") ["t"].



(** *** [root], [to_obj] and the vocabulary of further statements *)

(** [Match.root]: [None] when a reference dangles or the fuel runs out. *)
Fixpoint root_fuel (fuel : nat) (st : store) (i : nat) : option nat :=
  match fuel with
  | 0 => None
  | S fuel' =>
      m ← st !! i;
      match _parent m with
      | Some p => root_fuel fuel' st p
      | None => Some i
      end
  end.

Definition Match_root (st : store) (i : nat) : option nat :=
  root_fuel (S i) st i.

(** [Match.root_offset]. *)
Definition Match_root_offset (st : store) (i : nat) : option Z :=
  o ← Match_offset st i;
  r ← Match_root st i;
  ro ← Match_offset st r;
  Some (o - ro)%Z.

(** Parent references and children lists agree, and the children of a node
    are listed once each, in the order of their construction. *)
Definition linked (st : store) : Prop :=
  (∀ c m p, st !! c = Some m → _parent m = Some p →
     ∃ pm, st !! p = Some pm ∧ c ∈ _children pm) ∧
  (∀ p pm c, st !! p = Some pm → c ∈ _children pm →
     ∃ m, st !! c = Some m ∧ _parent m = Some p) ∧
  (∀ p pm, st !! p = Some pm → StronglySorted lt (_children pm)).

(** A node with other children. *)
Definition set_children (m : Match) (cs : list nat) : Match :=
  mkMatch (cls m) (name m) (matcher m) (match_obj m) (img_data m) (decoded m)
          (_offset m) (_length m) (_parent m) cs (display_name m) (extension m).

(** [st'] is [st] with nodes added at the end and children appended to the
    nodes it had: every other field of every node is as it was. *)
Definition grows (st st' : store) : Prop :=
  length st ≤ length st' ∧
  ∀ i m, st !! i = Some m →
    ∃ cs, st' !! i = Some (set_children m (_children m ++ cs)) ∧
          ∀ c, c ∈ cs → length st ≤ c.

(** What every run of [match] keeps: the store only grows, and what is
    yielded are nodes built by the run, in the order they were built. *)
Definition run_ok (st : store) (r : run) : Prop :=
  grows st (r_store r) ∧ StronglySorted lt (r_out r) ∧
  (∀ a, a ∈ r_out r → (length st ≤ a < length (r_store r))%nat) ∧
  (WFst st → WFst (r_store r)).

(** The members of [l] that are not in [seen], each at its first
    occurrence. *)
Fixpoint first_seen (seen : list string) (l : list string) : list string :=
  match l with
  | [] => []
  | t :: l' =>
      if bool_decide (t ∈ seen) then first_seen seen l'
      else t :: first_seen (t :: seen) l'
  end.

(** A matcher that does not parse, over an engine that finds the test
    "x/t" twice. *)
Definition plain_matcher : Matcher :=
  mkMatcher 7 false false (λ _, [[twice; twice]]).

(** An engine that finds "x/t" once, and a parser that fails at once. *)
Definition once_matcher : Matcher :=
  mkMatcher 7 false true (λ _, [[twice]]).

Definition failing : Parser :=
  ParserInstance 10 (λ _, mkScript [] (RaiseExn (OtherException "broken"))).

Definition one_failing : gmap string (list Parser) := {["x/t" := [failing]]}.

(** A parser that rejects its candidate at once, and a store holding one
    node without a parent. *)
Definition rejecting : Parser :=
  ParserInstance 11 (λ _, mkScript [] (RaiseExn InvalidMatch)).

Definition lone_root : Match :=
  mkMatch ClsMatch "root" (Some 7) (Opaque "root") None None 0%Z None None []
          "root" None.

(** The dict [to_obj] returns; a key that is left out is [None]. *)
#[warnings="-register-all"]
Inductive obj :=
| mkObj (o_relative_offset o_offset o_size : Z) (o_type o_name o_value : string)
        (o_subEls : list obj) (o_img_data o_decoded o_extension : option string).

Definition obj_relative_offset (o : obj) : Z :=
  match o with mkObj x _ _ _ _ _ _ _ _ _ => x end.
Definition obj_offset (o : obj) : Z :=
  match o with mkObj _ x _ _ _ _ _ _ _ _ => x end.
Definition obj_size (o : obj) : Z :=
  match o with mkObj _ _ x _ _ _ _ _ _ _ => x end.
Definition obj_subEls (o : obj) : list obj :=
  match o with mkObj _ _ _ _ _ _ x _ _ _ => x end.

Section to_obj.
(** [str] of the object a match carries, and [base64.b64encode] followed by
    [decode]. *)
Variable str : payload → string.
Variable b64encode : list byte → string.

(** [Match.to_obj]. *)
Fixpoint to_obj_fuel (fuel : nat) (st : store) (i : nat) : option obj :=
  match fuel with
  | 0 => None
  | S fuel' =>
      m ← st !! i;
      offset ← Match_offset st i;
      size ← Match_length st i;
      subEls ← mapM (to_obj_fuel fuel' st) (_children m);
      Some (mkObj (_offset m) offset size (name m) (display_name m)
                  (str (match_obj m)) subEls (img_data m)
                  (b64encode <$> decoded m) (extension m))
  end.

Definition to_obj (st : store) (i : nat) : option obj :=
  to_obj_fuel (length st - i) st i.
End to_obj.

(** Every sub-element, at every depth, lies at the offset of its element
    plus its own relative offset. *)
Fixpoint offsets_add_up (o : obj) : Prop :=
  match o with
  | mkObj _ offset _ _ _ _ subEls _ _ _ =>
      (fix all (l : list obj) : Prop :=
         match l with
         | [] => True
         | s :: l' =>
             obj_offset s = (offset + obj_relative_offset s)%Z ∧
             offsets_add_up s ∧ all l'
         end) subEls
  end.

(** Two silent parsers registered for "x/t". *)
Definition two_silent : gmap string (list Parser) :=
  {["x/t" := [ParserInstance 10 silent; ParserInstance 11 silent]]}.

End Polyfile.

(** ** Facts about search.py *)
Module SearchFacts.
Import Search.

Lemma dict_get_elem d k v : dict_get d k = Some v → (k, v) ∈ d.
Proof.
  induction d as [|[k' v'] d IH]; simpl; [done|].
  case_decide; intros ?; simplify_eq; [left | right; auto].
Qed.

Lemma dict_get_None d k : dict_get d k = None → k ∉ d.*1.
Proof.
  induction d as [|[k' v'] d IH]; csimpl.
  - intros _ H. by apply elem_of_nil in H.
  - case_decide; [done|]. intros Hn [->|Hin]%elem_of_cons; [done|]. by apply IH.
Qed.

Lemma dict_get_of_elem d k v : NoDup d.*1 → (k, v) ∈ d → dict_get d k = Some v.
Proof.
  induction d as [|[k' v'] d IH]; csimpl.
  - intros _ H. by apply elem_of_nil in H.
  - intros [Hk Hd]%NoDup_cons. intros [Heq|Hin]%elem_of_cons.
    + simplify_eq. by rewrite decide_True.
    + case_decide; [|by apply IH]. subst k'. exfalso. apply Hk.
      apply list_elem_of_fmap. by exists (k, v).
Qed.

Lemma dict_set_fresh d k v : dict_get d k = None → dict_set d k v = d ++ [(k, v)].
Proof.
  induction d as [|[k' v'] d IH]; simpl; [done|].
  case_decide; [done|]. intros ?. by rewrite IH.
Qed.

Lemma dict_get_snoc d k v k' :
  dict_get (d ++ [(k, v)]) k' =
  match dict_get d k' with
  | Some x => Some x
  | None => if decide (k = k') then Some v else None
  end.
Proof.
  induction d as [|[k1 v1] d IH]; simpl; [done|].
  destruct (decide (k1 = k')); [done|apply IH].
Qed.

Lemma contains_Some n b : contains n (Some b) = true ↔ is_Some (getitem n b).
Proof. unfold contains, getitem. by rewrite bool_decide_eq_true. Qed.

Lemma contains_false n b : contains n (Some b) = false ↔ getitem n b = None.
Proof.
  unfold contains, getitem. rewrite bool_decide_eq_false.
  by rewrite eq_None_not_Some.
Qed.

(** *** Heaps of the same shape *)

Lemma shape_fields nd nd' :
  shape nd' = shape nd →
  _value nd' = _value nd ∧ _children nd' = _children nd ∧ _parent nd' = _parent nd.
Proof. unfold shape. intros ?; by simplify_eq. Qed.

Lemma same_shape_refl h : same_shape h h.
Proof. done. Qed.

Lemma same_shape_sym h h' : same_shape h h' → same_shape h' h.
Proof. done. Qed.

Lemma same_shape_trans h1 h2 h3 :
  same_shape h1 h2 → same_shape h2 h3 → same_shape h1 h3.
Proof. unfold same_shape. congruence. Qed.

Lemma same_shape_length h h' : same_shape h h' → length h' = length h.
Proof.
  intros Hs. rewrite <- (length_fmap shape h), <- (length_fmap shape h').
  by rewrite Hs.
Qed.

Lemma same_shape_lookup h h' i nd :
  same_shape h h' → h !! i = Some nd →
  ∃ nd', h' !! i = Some nd' ∧ shape nd' = shape nd.
Proof.
  intros Hs Hi.
  assert ((shape <$> h') !! i = Some (shape nd)) as H.
  { rewrite <- Hs, list_lookup_fmap, Hi. done. }
  rewrite list_lookup_fmap in H.
  destruct (h' !! i) as [nd'|]; simplify_eq/=.
  exists nd'. split; [done|]. unfold shape. congruence.
Qed.

Lemma same_shape_lookup_None h h' i :
  same_shape h h' → h !! i = None → h' !! i = None.
Proof.
  intros Hs. rewrite !lookup_ge_None, (same_shape_length _ _ Hs). done.
Qed.

Lemma same_shape_insert h n nd nd' :
  h !! n = Some nd → shape nd' = shape nd → same_shape h (<[n := nd']> h).
Proof.
  intros Hn Hsh. unfold same_shape. rewrite list_fmap_insert, Hsh.
  symmetry. apply list_insert_id. by rewrite list_lookup_fmap, Hn.
Qed.

Lemma walk_shape h h' p n : same_shape h h' → walk h n p = walk h' n p.
Proof.
  intros Hs. revert n. induction p as [|b p IH]; intros n; simpl; [done|].
  destruct (h !! n) as [nd|] eqn:E.
  - destruct (same_shape_lookup _ _ _ _ Hs E) as (nd' & -> & Hsh).
    apply shape_fields in Hsh as (_ & Hc & _). simpl. unfold getitem.
    rewrite Hc. destruct (dict_get _ b); simpl; auto.
  - by rewrite (same_shape_lookup_None _ _ _ Hs E).
Qed.

Lemma path_fuel_shape h h' fuel i :
  same_shape h h' → path_fuel fuel h i = path_fuel fuel h' i.
Proof.
  intros Hs. revert i. induction fuel as [|fuel IH]; intros i; simpl; [done|].
  destruct (h !! i) as [nd|] eqn:E.
  - destruct (same_shape_lookup _ _ _ _ Hs E) as (nd' & -> & Hsh).
    apply shape_fields in Hsh as (-> & _ & ->).
    destruct (_parent nd), (_value nd); try done. by rewrite IH.
  - by rewrite (same_shape_lookup_None _ _ _ Hs E).
Qed.

Lemma path_shape h h' i : same_shape h h' → path h i = path h' i.
Proof. apply path_fuel_shape. Qed.

Lemma in_trie_shape h h' p : same_shape h h' → in_trie h p → in_trie h' p.
Proof. intros Hs. unfold in_trie. by rewrite (walk_shape h h'). Qed.

Lemma lps_shape h h' w s : same_shape h h' → lps h w s → lps h' w s.
Proof.
  intros Hs (H1 & H2 & H3 & H4). repeat split; auto.
  - by apply (in_trie_shape h).
  - intros s' ? ? ?. apply H4; auto. by apply (in_trie_shape h').
Qed.

Lemma WF_shape h h' : same_shape h h' → WF h → WF h'.
Proof.
  intros Hs [Hr Hu Hd Hk]. pose proof (same_shape_sym _ _ Hs) as Hs'. split.
  - destruct Hr as (r & Hr & ? & ?).
    destruct (same_shape_lookup _ _ _ _ Hs Hr) as (r' & ? & Hsh).
    apply shape_fields in Hsh as (? & ? & ?). exists r'. split_and!; congruence.
  - intros i nd' Hi Hne.
    destruct (same_shape_lookup _ _ _ _ Hs' Hi) as (nd & Hnd & Hsh).
    apply shape_fields in Hsh as (Hv & Hc & Hp).
    destruct (Hu _ _ Hnd Hne) as (p & b & pn & ? & ? & ? & Hpn & ?).
    destruct (same_shape_lookup _ _ _ _ Hs Hpn) as (pn' & ? & Hsh).
    apply shape_fields in Hsh as (? & ? & ?).
    exists p, b, pn'. split_and!; congruence.
  - intros p pn' b i Hp Hg.
    destruct (same_shape_lookup _ _ _ _ Hs' Hp) as (pn & Hpn & Hsh).
    apply shape_fields in Hsh as (Hv & Hc & Hpp). rewrite <- Hc in Hg.
    destruct (Hd _ _ _ _ Hpn Hg) as (nd & Hnd & ? & ?).
    destruct (same_shape_lookup _ _ _ _ Hs Hnd) as (nd' & ? & Hsh).
    apply shape_fields in Hsh as (? & ? & ?).
    exists nd'. split_and!; congruence.
  - intros p pn' Hp.
    destruct (same_shape_lookup _ _ _ _ Hs' Hp) as (pn & Hpn & Hsh).
    apply shape_fields in Hsh as (Hv & Hc & Hpp). rewrite <- Hc. eauto.
Qed.

(** *** Paths in a well-formed heap *)

Lemma walk_app h n p q : walk h n (p ++ q) = walk h n p ≫= λ m, walk h m q.
Proof.
  revert n. induction p as [|b p IH]; intros n; simpl; [done|].
  destruct (h !! n) as [nd|]; simpl; [|done].
  destruct (getitem nd b); simpl; [apply IH|done].
Qed.

Lemma walk_snoc h n p b :
  walk h n (p ++ [b]) = walk h n p ≫= λ m, h !! m ≫= λ nd, getitem nd b.
Proof.
  rewrite walk_app. destruct (walk h n p) as [m|]; simpl; [|done].
  destruct (h !! m) as [nd|]; simpl; [|done]. by destruct (getitem nd b).
Qed.

Lemma in_trie_prefix h p q : in_trie h (p ++ q) → in_trie h p.
Proof.
  unfold in_trie. rewrite walk_app. destruct (walk h 0 p); simpl; [eauto|].
  by intros [? ?].
Qed.

Section wf.
Context (h : heap) (Hwf : WF h).

Lemma root_not_child i nd p :
  h !! i = Some nd → _parent nd = Some p → i ≠ 0.
Proof.
  intros Hi Hp ->. destruct (wf_root h Hwf) as (r & Hr & Hpr & _). congruence.
Qed.

Lemma parent_lt i nd p : h !! i = Some nd → _parent nd = Some p → p < i.
Proof.
  intros Hi Hp. pose proof (root_not_child _ _ _ Hi Hp) as Hne.
  destruct (wf_up h Hwf i nd Hi Hne) as (p' & b' & pn & ? & ? & ? & ? & ?).
  by simplify_eq.
Qed.

Lemma path_fuel_enough f f' i :
  i < f → i < f' → path_fuel f h i = path_fuel f' h i.
Proof.
  revert f' i. induction f as [|f IH]; intros f' i Hf Hf'; [lia|].
  destruct f' as [|f']; [lia|]. simpl.
  destruct (h !! i) as [nd|] eqn:E; [|done].
  destruct (_parent nd) as [p|] eqn:Ep; [|done].
  destruct (_value nd) as [b|] eqn:Eb; [|done].
  pose proof (parent_lt _ _ _ E Ep). rewrite (IH f' p); [done|lia|lia].
Qed.

Lemma path_root : path h 0 = [].
Proof.
  unfold path. simpl. destruct (wf_root h Hwf) as (r & -> & -> & _). done.
Qed.

Lemma path_child i nd p b :
  h !! i = Some nd → _parent nd = Some p → _value nd = Some b →
  path h i = path h p ++ [b].
Proof.
  intros Hi Hp Hb. unfold path at 1. simpl. rewrite Hi, Hp, Hb.
  pose proof (parent_lt _ _ _ Hi Hp).
  by rewrite (path_fuel_enough i (S p) p) by lia.
Qed.

Lemma root_lt : 0 < length h.
Proof.
  destruct (wf_root h Hwf) as (r & Hr & _). by apply lookup_lt_Some in Hr.
Qed.

Lemma walk_path i : i < length h → walk h 0 (path h i) = Some i.
Proof.
  induction (lt_wf i) as [i _ IH]. intros Hi.
  destruct (decide (i = 0)) as [->|Hne]; [by rewrite path_root|].
  destruct (lookup_lt_is_Some_2 _ _ Hi) as [nd Hnd].
  destruct (wf_up h Hwf i nd Hnd Hne) as (p & b & pn & Hp & Hb & Hlt & Hpn & Hg).
  rewrite (path_child _ _ _ _ Hnd Hp Hb), walk_snoc, IH by lia.
  simpl. rewrite Hpn. done.
Qed.

Lemma walk_path_eq p i : walk h 0 p = Some i → p = path h i ∧ i < length h.
Proof.
  revert i. induction p as [|b q IH] using rev_ind; intros i.
  - simpl. intros [= <-]. split; [by rewrite path_root|apply root_lt].
  - rewrite walk_snoc. destruct (walk h 0 q) as [m|]; simpl; [|done].
    destruct (h !! m) as [nd|] eqn:Em; simpl; [|done]. intros Hg.
    destruct (wf_down h Hwf _ _ _ _ Em Hg) as (ndi & Hi & Hp & Hb).
    destruct (IH m eq_refl) as [-> _]. split.
    + by rewrite (path_child _ _ _ _ Hi Hp Hb).
    + by apply lookup_lt_Some in Hi.
Qed.

Lemma in_trie_path i : i < length h → in_trie h (path h i).
Proof. intros Hi. unfold in_trie. rewrite walk_path; eauto. Qed.

Lemma in_trie_node p : in_trie h p → ∃ i, i < length h ∧ path h i = p.
Proof. intros [i Hi]. apply walk_path_eq in Hi as [-> ?]. eauto. Qed.

Lemma path_inj i j :
  i < length h → j < length h → path h i = path h j → i = j.
Proof.
  intros Hi Hj Heq. apply walk_path in Hi, Hj. rewrite Heq in Hi. congruence.
Qed.

Lemma path_nil i : i < length h → path h i = [] → i = 0.
Proof.
  intros Hi Hp. apply (path_inj i 0); [done|apply root_lt|].
  by rewrite path_root.
Qed.

Lemma child_path g ng b c :
  h !! g = Some ng → getitem ng b = Some c →
  c < length h ∧ path h c = path h g ++ [b].
Proof.
  intros Hg Hc.
  destruct (wf_down h Hwf _ _ _ _ Hg Hc) as (nc & Hnc & Hp & Hb). split.
  - by apply lookup_lt_Some in Hnc.
  - by apply (path_child _ _ _ _ Hnc Hp Hb).
Qed.

Lemma in_trie_snoc g ng b :
  h !! g = Some ng → in_trie h (path h g ++ [b]) → is_Some (getitem ng b).
Proof.
  intros Hg [c Hc]. rewrite walk_snoc, walk_path in Hc
    by (by apply lookup_lt_Some in Hg).
  simpl in Hc. rewrite Hg in Hc. simpl in Hc. eauto.
Qed.
End wf.

(** *** Suffixes *)

Lemma suffix_of_both {A} (s t w : list A) :
  s `suffix_of` w → t `suffix_of` w → length s ≤ length t → s `suffix_of` t.
Proof.
  intros Hs Ht Hl. destruct (suffix_weak_total s t w Hs Ht) as [|H]; [done|].
  by rewrite (suffix_length_eq _ _ H Hl).
Qed.

Lemma suffix_snoc_cases {A} (s u : list A) b :
  s `suffix_of` u ++ [b] → s = [] ∨ ∃ t, s = t ++ [b] ∧ t `suffix_of` u.
Proof.
  destruct s as [|c t _] using rev_ind; [by left|]. intros Hs. right.
  pose proof (suffix_snoc_inv_1 _ _ _ _ Hs) as ->.
  apply suffix_snoc_inv_2 in Hs. eauto.
Qed.

Lemma path_fuel_length h f i : length (path_fuel f h i) ≤ f.
Proof.
  revert i. induction f as [|f IH]; intros i; simpl; [done|].
  destruct (h !! i) as [nd|]; simpl; [|lia].
  destruct (_parent nd) as [p|]; simpl; [|lia].
  destruct (_value nd); simpl; [|lia].
  rewrite length_app. simpl. specialize (IH p). lia.
Qed.

Lemma depth_le h i : depth h i ≤ S i.
Proof. apply path_fuel_length. Qed.

(** *** The failure links computed by [finalize] *)

Lemma fall_ok_shape h h' y :
  same_shape h h' → h' !! y = h !! y → fall_ok h y → fall_ok h' y.
Proof.
  intros Hs Hy (nd & f & Hnd & Hf & Hlt & Hl). exists nd, f.
  rewrite Hy, (same_shape_length _ _ Hs), <- !(path_shape h h') by done.
  split_and!; try done. by apply (lps_shape h).
Qed.

Lemma fall_loop_spec h b fuel x :
  WF h →
  root_fall h →
  x < length h → depth h x ≤ fuel →
  (∀ y, y < length h → depth h y ≤ depth h x → y ≠ 0 → fall_ok h y) →
  ∃ g ng, fall_loop fuel h 0 (Some b) x = Some g ∧ h !! g = Some ng ∧
    path h g `suffix_of` path h x ∧
    (contains ng (Some b) = false → g = 0) ∧
    (∀ t, t `suffix_of` path h x → in_trie h (t ++ [b]) →
          t `suffix_of` path h g).
Proof.
  intros Hwf Hroot. revert x.
  induction fuel as [|fuel IH]; intros x Hx Hd Hok;
    destruct (lookup_lt_is_Some_2 _ _ Hx) as [nx Hnx];
    simpl; rewrite Hnx; simpl;
    destruct (contains nx (Some b) || bool_decide (x = 0)) eqn:Hc.
  1,3: exists x, nx; split_and!; [done|done|done| |by intros].
  all: try (intros Hcf; rewrite Hcf in Hc; simpl in Hc;
            by apply bool_decide_eq_true in Hc).
  - apply orb_false_iff in Hc as [_ Hx0%bool_decide_eq_false].
    exfalso. apply Hx0, (path_nil h Hwf x Hx).
    apply nil_length_inv. unfold depth in Hd. lia.
  - apply orb_false_iff in Hc as [Hcf Hx0%bool_decide_eq_false].
    destruct (Hok x Hx (le_n _) Hx0) as (nx' & f & Hnx' & Hf & Hflt & Hl).
    simplify_eq. rewrite Hf. simpl.
    destruct Hl as (Hsuf & Hne & Hin & Hmax).
    assert (depth h f < depth h x) as Hdf.
    { unfold depth. apply suffix_length in Hsuf as Hle.
      destruct (decide (length (path h f) = length (path h x))) as [Heq|]; [|lia].
      exfalso. apply Hne. apply suffix_length_eq; [done|lia]. }
    destruct (IH f Hflt) as (g & ng & Hg & Hng & Hgs & Hg0 & Hgmax).
    { lia. }
    { intros y Hy Hdy. apply Hok; [done|lia]. }
    exists g, ng. split_and!; try done.
    + by etrans.
    + intros t Ht Hint. apply Hgmax; [|done].
      apply (suffix_of_both _ _ (path h x)); [done..|].
      apply Hmax; [done| |by apply (in_trie_prefix _ _ [b])].
      intros ->. apply contains_false in Hcf.
      destruct (in_trie_snoc h Hwf _ _ _ Hnx Hint) as [? ?]. congruence.
Qed.

Lemma set_fall_shape h n f h' :
  set_fall h n f = Some h' →
  same_shape h h' ∧ (∀ y, y ≠ n → h' !! y = h !! y) ∧
  ∃ nd, h !! n = Some nd ∧ h' !! n = Some (with_fall nd f).
Proof.
  unfold set_fall. destruct (h !! n) as [nd|] eqn:Hn; simpl; [|done].
  intros [= <-]. split_and!.
  - by apply (same_shape_insert _ _ nd).
  - intros y Hy. by apply list_lookup_insert_ne.
  - exists nd. split; [done|]. apply list_lookup_insert_eq.
    by apply lookup_lt_Some in Hn.
Qed.

Lemma lps_nil_single h b : WF h → lps h [b] [].
Proof.
  intros Hwf. split_and!; [apply suffix_nil|done|by exists 0|].
  intros s' Hs Hne _. apply (suffix_snoc_cases s' [] b) in Hs as [->|(t & -> & Ht)].
  - done.
  - apply suffix_nil_inv in Ht as ->. done.
Qed.

Lemma finalize_node_spec h n :
  WF h →
  root_fall h →
  n < length h → n ≠ 0 →
  (∀ y, y < length h → depth h y < depth h n → y ≠ 0 → fall_ok h y) →
  ∃ h', finalize_node h 0 n = Some h' ∧ same_shape h h' ∧
        (∀ y, y ≠ n → h' !! y = h !! y) ∧ fall_ok h' n.
Proof.
  intros Hwf Hroot Hn Hn0 Hok.
  destruct (lookup_lt_is_Some_2 _ _ Hn) as [nd Hnd].
  destruct (wf_up h Hwf n nd Hnd Hn0) as (p & b & pn & Hp & Hb & Hlt & Hpn & Hg).
  pose proof (path_child h Hwf _ _ _ _ Hnd Hp Hb) as Hpath.
  assert (depth h n = S (depth h p)) as Hdn.
  { unfold depth. rewrite Hpath, length_app. simpl. lia. }
  assert (p < length h) as Hpl by (by apply lookup_lt_Some in Hpn).
  (* where the walk starts: the failure link of the parent *)
  assert (∃ start, _fall pn = Some start ∧ start < length h ∧
            path h start `suffix_of` path h p ∧
            (p = 0 → start = 0) ∧
            (p ≠ 0 → lps h (path h p) (path h start))) as
    (start & Hst & Hstl & Hsts & Hst0 & Hstlps).
  { destruct (decide (p = 0)) as [->|Hp0].
    - destruct Hroot as (r & Hr & Hfr). simplify_eq. exists 0.
      split_and!; [done|by apply root_lt|done|done|done].
    - destruct (Hok p Hpl) as (pn' & f & Hpn' & Hf & Hfl & Hl); [lia|done|].
      simplify_eq. exists f. split_and!; [done|done|apply Hl|done|done]. }
  destruct (fall_loop_spec h b (length h) start Hwf Hroot Hstl)
    as (g & ng & Hloop & Hng & Hgs & Hg0 & Hgmax).
  { pose proof (depth_le h start). lia. }
  { intros y Hy Hdy. apply Hok; [done|].
    apply suffix_length in Hsts. unfold depth in *. lia. }
  assert (path h g `suffix_of` path h p) as Hgp by (by etrans).
  (* a proper suffix of the path of [n], once its last byte is removed *)
  assert (∀ t, t `suffix_of` path h p → t ≠ path h p → in_trie h (t ++ [b]) →
               t `suffix_of` path h g) as Hbelow.
  { intros t Ht Hne Hin. apply Hgmax; [|done].
    assert (p ≠ 0) as Hp0.
    { intros ->. rewrite (path_root h Hwf) in Ht, Hne.
      by apply suffix_nil_inv in Ht. }
    destruct (Hstlps Hp0) as (_ & _ & _ & Hmax).
    apply (suffix_of_both _ _ (path h p)); [done..|].
    apply Hmax; [done..|]. by apply (in_trie_prefix _ _ [b]). }
  unfold finalize_node. rewrite decide_False by done.
  rewrite Hnd. simpl. rewrite Hp. simpl. rewrite Hpn. simpl. rewrite Hst. simpl.
  rewrite Hb, Hloop. simpl. rewrite Hng. simpl.
  assert (∀ f, f < length h → lps h (path h n) (path h f) →
            ∃ h', set_fall h n f = Some h' ∧ same_shape h h' ∧
                  (∀ y, y ≠ n → h' !! y = h !! y) ∧ fall_ok h' n) as Hfin.
  { intros f Hf Hl. unfold set_fall. rewrite Hnd. simpl. eexists. split; [done|].
    destruct (set_fall_shape h n f (<[n:=with_fall nd f]> h)) as (Hs & Hy & _).
    { unfold set_fall. by rewrite Hnd. }
    split_and!; [done..|]. exists (with_fall nd f), f.
    rewrite length_insert, <- (path_shape h _ n Hs), <- (path_shape h _ f Hs).
    split_and!; [by apply list_lookup_insert_eq|done|done|].
    by apply (lps_shape h). }
  destruct (contains ng (Some b)) eqn:Hc.
  - apply contains_Some in Hc as [c Hc]. rewrite Hc. simpl.
    destruct (child_path h Hwf _ _ _ _ Hng Hc) as [Hcl Hcp].
    destruct (decide (c = n)) as [->|Hcn].
    + (* the child found is [n] itself: [n] hangs below the root *)
      apply Hfin; [by apply root_lt|]. rewrite (path_root h Hwf).
      assert (g = p) as ->.
      { apply (path_inj h Hwf); [by apply lookup_lt_Some in Hng|done|].
        rewrite Hpath in Hcp. by apply app_inj_tail in Hcp as [? _]. }
      destruct (decide (p = 0)) as [->|Hp0].
      * rewrite Hpath, (path_root h Hwf). by apply lps_nil_single.
      * exfalso. destruct (Hstlps Hp0) as (_ & Hne & _).
        apply Hne. apply suffix_length_eq; [done|]. by apply suffix_length.
    + apply Hfin; [done|]. rewrite Hpath, Hcp. split_and!.
      * by apply suffix_app.
      * intros Heq. apply Hcn. apply (path_inj h Hwf); [done..|]. congruence.
      * rewrite <- Hcp. by apply in_trie_path.
      * intros s' Hs Hne Hin.
        apply suffix_snoc_cases in Hs as [->|(t & -> & Ht)]; [simpl; lia|].
        rewrite !length_app. simpl.
        assert (t `suffix_of` path h g) as Hle; [|apply suffix_length in Hle; lia].
        apply Hbelow; [done| |done]. congruence.
  - assert (g = 0) as -> by (by apply Hg0). apply Hfin; [by apply root_lt|].
    rewrite (path_root h Hwf) in *. rewrite Hpath. split_and!.
    + apply suffix_nil.
    + by destruct (path h p).
    + by exists 0.
    + intros s' Hs Hne Hin.
      apply suffix_snoc_cases in Hs as [->|(t & -> & Ht)]; [done|]. exfalso.
      assert (t `suffix_of` []) as Hnil by (apply Hbelow; [done|congruence|done]).
      apply suffix_nil_inv in Hnil as ->.
      apply contains_false in Hc.
      assert (is_Some (getitem ng b)) as [? ?]; [|congruence].
      apply (in_trie_snoc h Hwf 0); [done|]. by rewrite (path_root h Hwf).
Qed.

Lemma depth_shape h h' i : same_shape h h' → depth h i = depth h' i.
Proof. intros Hs. unfold depth. by rewrite (path_shape h h'). Qed.

Lemma finalize_nodes_spec h done todo :
  WF h → root_fall h →
  (∀ x, x ∈ todo → x < length h) →
  (∀ x, x ∈ done → x ≠ 0 → fall_ok h x) →
  depth_ordered h done todo →
  ∃ h', finalize_nodes h 0 todo = Some h' ∧ same_shape h h' ∧ root_fall h' ∧
        ∀ x, x ∈ done ++ todo → x ≠ 0 → fall_ok h' x.
Proof.
  revert h done. induction todo as [|n todo IH]; intros h done Hwf Hroot Hlt Hok Hord.
  - exists h. rewrite app_nil_r. by split_and!.
  - simpl.
    assert (∃ h1, finalize_node h 0 n = Some h1 ∧ same_shape h h1 ∧
              root_fall h1 ∧ (∀ x, x ∈ done ++ [n] → x ≠ 0 → fall_ok h1 x))
      as (h1 & -> & Hs & Hroot1 & Hok1).
    { destruct (decide (n = 0)) as [->|Hn0].
      - exists h. unfold finalize_node. rewrite decide_True by done.
        split_and!; [done..|].
        intros x [?|Hx%list_elem_of_singleton]%elem_of_app; [auto|done].
      - destruct (finalize_node_spec h n Hwf Hroot) as (h1 & Hf & Hs & Hy & Hn);
          [apply Hlt; left|done| |].
        { intros y Hy Hd Hy0. apply Hok; [|done].
          specialize (Hord [] n todo y eq_refl Hy Hd Hy0).
          by rewrite app_nil_r in Hord. }
        exists h1. split_and!; [done..| |].
        + destruct Hroot as (r & Hr & Hfr). exists r. by rewrite Hy.
        + intros x [Hx|Hx%list_elem_of_singleton]%elem_of_app Hx0;
            [|by subst x].
          destruct (decide (x = n)) as [->|Hne]; [done|].
          apply (fall_ok_shape h); auto. }
    simpl. destruct (IH h1 (done ++ [n])) as (h' & Hf & Hs' & Hroot' & Hok').
    + by apply (WF_shape h).
    + done.
    + intros x Hx. rewrite (same_shape_length _ _ Hs). apply Hlt. by right.
    + done.
    + intros pre m post y -> Hy Hd Hy0.
      rewrite <- (assoc_L (++)). simpl.
      apply (Hord (n :: pre) m post y); [done| |by rewrite !(depth_shape h h1)|done].
      by rewrite <- (same_shape_length _ _ Hs).
    + exists h'. split_and!; [done|by etrans|done|].
      intros x Hx. apply Hok'. by rewrite <- (assoc_L (++)).
Qed.

(** *** The order of [bfs] *)

Lemma bounded_NoDup_length (l : list nat) n :
  NoDup l → (∀ x, x ∈ l → x < n) → length l ≤ n.
Proof.
  intros Hnd Hlt. rewrite <- (length_seq n 0).
  apply submseteq_length, NoDup_submseteq; [done|].
  intros x Hx. apply elem_of_seq. specialize (Hlt x Hx). lia.
Qed.

Lemma StronglySorted_const {A} (f : A → nat) k (l : list A) :
  (∀ x, x ∈ l → f x = k) → StronglySorted (λ a b, f a ≤ f b) l.
Proof.
  induction l as [|a l IH]; intros Hk; [constructor|].
  apply StronglySorted_cons. split.
  - apply Forall_forall. intros x Hx.
    rewrite (Hk a), (Hk x); [done|by right|by left].
  - apply IH. intros x Hx. apply Hk. by right.
Qed.

Section bfs.
Context (h : heap) (Hwf : WF h).

Lemma child_elem x nd c :
  h !! x = Some nd → c ∈ (_children nd).*2 →
  ∃ b ndc, getitem nd b = Some c ∧ h !! c = Some ndc ∧
           _parent ndc = Some x ∧ _value ndc = Some b.
Proof.
  intros Hx ([b c'] & -> & Hin)%list_elem_of_fmap. simpl.
  pose proof (dict_get_of_elem _ _ _ (wf_keys h Hwf _ _ Hx) Hin) as Hg.
  destruct (wf_down h Hwf _ _ _ _ Hx Hg) as (ndc & ? & ? & ?).
  by exists b, ndc.
Qed.

Lemma children_NoDup x nd : h !! x = Some nd → NoDup (_children nd).*2.
Proof.
  intros Hx. pose proof (wf_keys h Hwf _ _ Hx) as Hk.
  apply NoDup_fmap_2_strong; [|by apply (NoDup_fmap_1 fst)].
  intros [b1 c1] [b2 c2] H1 H2 Heq. simpl in Heq. subst c2.
  apply (dict_get_of_elem _ _ _ Hk) in H1, H2.
  destruct (wf_down h Hwf _ _ _ _ Hx H1) as (n1 & ? & ? & ?).
  destruct (wf_down h Hwf _ _ _ _ Hx H2) as (n2 & ? & ? & ?). congruence.
Qed.

Lemma depth_root : depth h 0 = 0.
Proof. unfold depth. by rewrite path_root. Qed.

Lemma depth_child x nd p :
  h !! x = Some nd → _parent nd = Some p → depth h x = S (depth h p).
Proof.
  intros Hx Hp. pose proof (root_not_child h Hwf _ _ _ Hx Hp) as Hx0.
  destruct (wf_up h Hwf x nd Hx Hx0) as (p' & b & pn & ? & Hb & _).
  simplify_eq. unfold depth.
  rewrite (path_child h Hwf _ _ _ _ Hx Hp Hb), length_app. simpl. lia.
Qed.

Lemma bfs_inv_step done head queue nd :
  bfs_inv h done (head :: queue) → h !! head = Some nd →
  bfs_inv h (done ++ [head]) (queue ++ (_children nd).*2).
Proof.
  intros [Hnd Hlt Hch Hpar Hsort Hroot] Hhead.
  set (cs := (_children nd).*2).
  assert ((done ++ [head]) ++ queue ++ cs = (done ++ head :: queue) ++ cs)
    as E by (by rewrite <- !(assoc_L (++))).
  assert (head ∈ done ++ head :: queue) as Hin
    by (apply elem_of_app; right; left).
  assert (head ∉ done) as Hnotin.
  { intros Hd. apply NoDup_app in Hnd as (_ & Hdis & _).
    apply (Hdis head Hd). left. }
  assert (∀ c, c ∈ cs → depth h c = S (depth h head)) as Hdc.
  { intros c (b & ndc & _ & Hc & Hp & _)%(child_elem head nd); [|done].
    by apply (depth_child c ndc). }
  split; rewrite ?E.
  - apply NoDup_app. split_and!; [done| |by apply (children_NoDup head)].
    intros x Hx (b & ndc & _ & Hc & Hp & _)%(child_elem head nd); [|done].
    apply Hnotin. by apply (Hpar x ndc).
  - intros x [Hx|Hx]%elem_of_app; [by apply Hlt|].
    apply (child_elem head nd) in Hx as (b & ndc & _ & Hc & _); [|done].
    by apply lookup_lt_Some in Hc.
  - intros x ndx c [Hx|Hx%list_elem_of_singleton]%elem_of_app Hndx Hc.
    + apply elem_of_app. left. by apply (Hch x ndx).
    + simplify_eq. apply elem_of_app. by right.
  - intros x ndx p [Hx|Hx]%elem_of_app Hndx Hp; apply elem_of_app.
    + left. by apply (Hpar x ndx).
    + apply (child_elem head nd) in Hx as (b & ndc & _ & Hc & Hp' & _); [|done].
      simplify_eq. right. left.
  - apply StronglySorted_app_2; [|done|by apply (StronglySorted_const _ (S (depth h head)))].
    intros x1 x2 Hx1 Hx2. rewrite (Hdc x2 Hx2).
    apply elem_of_app in Hx1 as [Hx1|Hx1].
    { pose proof (StronglySorted_app_1_elem_of _ _ _ x1 head Hsort Hx1) as Hle.
      simpl in Hle. specialize (Hle ltac:(left)). lia. }
    apply elem_of_cons in Hx1 as [->|Hx1]; [lia|].
    destruct (decide (x1 = 0)) as [->|Hx0]; [rewrite depth_root; lia|].
    assert (x1 ∈ done ++ head :: queue) as Hx1'
      by (apply elem_of_app; right; by right).
    destruct (lookup_lt_is_Some_2 _ _ (Hlt _ Hx1')) as [n1 Hn1].
    destruct (wf_up h Hwf x1 n1 Hn1 Hx0) as (p & b & pn & Hp & _).
    rewrite (depth_child _ _ _ Hn1 Hp).
    pose proof (Hpar _ _ _ Hx1' Hn1 Hp) as Hpd.
    pose proof (StronglySorted_app_1_elem_of _ _ _ p head Hsort Hpd) as Hle.
    simpl in Hle. specialize (Hle ltac:(left)). lia.
  - apply elem_of_app. by left.
Qed.

Lemma bfs_loop_spec fuel done queue :
  bfs_inv h done queue → length h ≤ fuel + length done →
  ∃ out, bfs_loop fuel h queue = Some out ∧ bfs_inv h (done ++ out) [].
Proof.
  revert done queue. induction fuel as [|fuel IH]; intros done queue Hinv Hfuel;
    destruct queue as [|head queue];
    try (exists []; simpl; by rewrite app_nil_r in * ).
  - exfalso.
    pose proof (bounded_NoDup_length _ _ (bi_nodup _ _ _ Hinv) (bi_lt _ _ _ Hinv))
      as Hle.
    rewrite length_app in Hle. simpl in *. lia.
  - assert (head < length h) as Hhl.
    { apply (bi_lt _ _ _ Hinv), elem_of_app. right. left. }
    destruct (lookup_lt_is_Some_2 _ _ Hhl) as [nd Hnd].
    destruct (IH (done ++ [head]) (queue ++ (_children nd).*2))
      as (out & Hout & Hinv').
    { by apply bfs_inv_step. }
    { rewrite length_app. simpl. lia. }
    exists (head :: out). simpl. rewrite Hnd. simpl. rewrite Hout. simpl.
    split; [done|]. by rewrite <- (assoc_L (++)) in Hinv'.
Qed.

Lemma bfs_inv_complete ns i : bfs_inv h ns [] → i < length h → i ∈ ns.
Proof.
  intros [_ _ Hch _ _ Hroot]. rewrite app_nil_r in *.
  induction (lt_wf i) as [i _ IH]. intros Hi.
  destruct (decide (i = 0)) as [->|Hi0]; [done|].
  destruct (lookup_lt_is_Some_2 _ _ Hi) as [nd Hnd].
  destruct (wf_up h Hwf i nd Hnd Hi0) as (p & b & pn & Hp & Hb & Hlt & Hpn & Hg).
  apply (Hch p pn i); [|done|].
  - apply IH; [done|]. by apply lookup_lt_Some in Hpn.
  - apply list_elem_of_fmap. exists (b, i). split; [done|].
    by apply dict_get_elem.
Qed.

Lemma bfs_inv_ordered ns : bfs_inv h ns [] → depth_ordered h [] ns.
Proof.
  intros Hinv pre n post m -> Hm Hd Hm0. simpl.
  pose proof (bfs_inv_complete _ m Hinv Hm) as Hin.
  pose proof (bi_sorted _ _ _ Hinv) as Hs. rewrite app_nil_r in Hs.
  apply elem_of_app in Hin as [?|Hin]; [done|]. exfalso.
  apply elem_of_cons in Hin as [->|Hin]; [lia|].
  apply StronglySorted_app_1_r, StronglySorted_cons in Hs as [Hall _].
  rewrite Forall_forall in Hall. specialize (Hall m Hin). simpl in Hall. lia.
Qed.

Lemma bfs_spec :
  ∃ ns, bfs h 0 = Some ns ∧ (∀ x, x ∈ ns → x < length h) ∧
        (∀ x, x < length h → x ∈ ns) ∧ NoDup ns ∧ depth_ordered h [] ns.
Proof.
  destruct (bfs_loop_spec (length h) [] [0]) as (ns & Hns & Hinv).
  - split; simpl.
    + apply NoDup_singleton.
    + intros x ->%list_elem_of_singleton. by apply root_lt.
    + intros x nd c Hx. by apply elem_of_nil in Hx.
    + intros x nd p ->%list_elem_of_singleton Hx Hp.
      by destruct (root_not_child h Hwf _ _ _ Hx Hp).
    + repeat constructor.
    + by left.
  - simpl. lia.
  - simpl in Hinv. exists ns. split_and!; [done| | | |].
    + intros x Hx. apply (bi_lt _ _ _ Hinv). by rewrite app_nil_r.
    + intros x Hx. by apply bfs_inv_complete.
    + pose proof (bi_nodup _ _ _ Hinv) as Hnd. by rewrite app_nil_r in Hnd.
    + by apply bfs_inv_ordered.
Qed.
End bfs.

(** *** Tries built by [add] *)

Lemma WF_new_root : WF [new_root].
Proof.
  split.
  - by exists new_root.
  - intros [|i] nd Hi Hne; [done|]. by destruct i.
  - intros [|[|p]] pn b i Hp Hg; simplify_eq/=.
  - intros [|[|p]] pn Hp; simplify_eq/=. constructor.
Qed.

Lemma add_child_lookup (h : heap) self n n' new i :
  h !! self = Some n →
  <[self := n']> (h ++ [new]) !! i =
  if decide (i = self) then Some n'
  else if decide (i = length h) then Some new else h !! i.
Proof.
  intros Hs. pose proof (lookup_lt_Some _ _ _ Hs) as Hl.
  rewrite list_lookup_insert, length_app. simpl.
  destruct (decide (i = self)) as [->|Hne].
  - rewrite decide_True; [done|]. split; [done|lia].
  - rewrite decide_False by (intros [? _]; congruence).
    destruct (decide (i = length h)) as [->|Hnl].
    + by rewrite lookup_app_r, Nat.sub_diag.
    + destruct (decide (i < length h)); [by rewrite lookup_app_l|].
      rewrite (proj2 (lookup_ge_None h i)) by lia.
      apply lookup_ge_None. rewrite length_app. simpl. lia.
Qed.

Lemma add_child_WF h self n b h' c :
  WF h → h !! self = Some n → getitem n b = None →
  _add_child h self b = Some (h', c) →
  WF h' ∧ c = length h ∧ length h' = S (length h) ∧
  (∀ i, i < length h → _sources <$> h' !! i = _sources <$> h !! i) ∧
  (_sources <$> h' !! c = Some []).
Proof.
  intros Hwf Hs Hg. unfold _add_child. rewrite Hs. simpl. intros [= <- <-].
  pose proof (lookup_lt_Some _ _ _ Hs) as Hl.
  unfold getitem in Hg. rewrite (dict_set_fresh _ _ _ Hg).
  set (n' := with_children n (_children n ++ [(b, length h)])).
  set (new := mkACNode (Some b) [] [] (Some self) None).
  pose proof (λ i, add_child_lookup h self n n' new i Hs) as Hlk.
  split_and!; [|done|by rewrite length_insert, length_app; simpl; lia| |].
  - destruct Hwf as [Hr Hu Hd Hk]. split.
    + destruct Hr as (r & Hr & Hrp & Hrv). rewrite Hlk.
      destruct (decide (0 = self)) as [<-|_].
      * exists n'. simplify_eq. by split_and!.
      * rewrite decide_False by lia. by exists r.
    + intros i nd. rewrite Hlk. intros Hi Hi0.
      assert (∀ p pn bb, h !! p = Some pn → dict_get (_children pn) bb = Some i →
                ∃ pn', <[self:=n']> (h ++ [new]) !! p = Some pn' ∧
                       dict_get (_children pn') bb = Some i) as Hparent.
      { intros p pn bb Hp Hgp. rewrite Hlk.
        destruct (decide (p = self)) as [->|_].
        - exists n'. split; [done|]. simplify_eq. simpl.
          by rewrite dict_get_snoc, Hgp.
        - apply lookup_lt_Some in Hp as Hpl.
          rewrite decide_False by lia. by exists pn. }
      destruct (decide (i = self)) as [->|_]; [|destruct (decide (i = length h)) as [->|_]].
      * simplify_eq.
        destruct (Hu self n Hs Hi0) as (p & bb & pn & ? & ? & ? & Hp & Hgp).
        destruct (Hparent p pn bb Hp Hgp) as (pn' & ? & ?).
        by exists p, bb, pn'.
      * simplify_eq. exists self, b, n'. rewrite Hlk, decide_True by done.
        split_and!; [done..|]. simpl. by rewrite dict_get_snoc, Hg, decide_True.
      * destruct (Hu i nd Hi Hi0) as (p & bb & pn & ? & ? & ? & Hp & Hgp).
        destruct (Hparent p pn bb Hp Hgp) as (pn' & ? & ?).
        by exists p, bb, pn'.
    + intros p pn bb i. rewrite Hlk.
      assert (∀ nd, h !! i = Some nd →
                ∃ nd', <[self:=n']> (h ++ [new]) !! i = Some nd' ∧
                       _parent nd' = _parent nd ∧ _value nd' = _value nd) as Hchild.
      { intros nd Hi. rewrite Hlk.
        destruct (decide (i = self)) as [->|_].
        - exists n'. by simplify_eq.
        - apply lookup_lt_Some in Hi as Hil.
          rewrite decide_False by lia. by exists nd. }
      destruct (decide (p = self)) as [->|_]; [|destruct (decide (p = length h)) as [->|_]].
      * intros [= <-]. simpl. rewrite dict_get_snoc.
        destruct (dict_get (_children n) bb) as [x|] eqn:Hx.
        -- intros [= ->].
           destruct (Hd _ _ _ _ Hs Hx) as (nd & Hi & ? & ?).
           destruct (Hchild nd Hi) as (nd' & ? & ? & ?).
           exists nd'. split_and!; congruence.
        -- case_decide; [|done]. intros [= <-]. subst bb.
           exists new. rewrite Hlk, decide_False, decide_True by lia. done.
      * by intros [= <-].
      * intros Hp Hgp. destruct (Hd _ _ _ _ Hp Hgp) as (nd & Hi & ? & ?).
        destruct (Hchild nd Hi) as (nd' & ? & ? & ?).
        exists nd'. split_and!; congruence.
    + intros p pn. rewrite Hlk.
      destruct (decide (p = self)) as [->|_]; [|destruct (decide (p = length h)) as [->|_]].
      * intros [= <-]. simpl. rewrite fmap_app. apply NoDup_app. split_and!.
        -- by apply (Hk self n).
        -- intros x Hx ->%list_elem_of_singleton. by apply (dict_get_None _ _ Hg).
        -- apply NoDup_singleton.
      * intros [= <-]. constructor.
      * apply Hk.
  - intros i Hi. rewrite Hlk.
    destruct (decide (i = self)) as [->|_]; [by rewrite Hs|].
    by rewrite decide_False by lia.
  - by rewrite Hlk, decide_False, decide_True by lia.
Qed.

Lemma set_add_elem s x l : s ∈ set_add x l ↔ s = x ∨ s ∈ l.
Proof.
  unfold set_add. case_decide.
  - split; [by right|]. by intros [->|?].
  - rewrite elem_of_app, list_elem_of_singleton. tauto.
Qed.

Lemma add_walk_spec h node seq :
  WF h → node < length h →
  ∃ h' c, _add_walk h node seq = Some (h', c) ∧ WF h' ∧ c < length h' ∧
    length h ≤ length h' ∧
    (∀ i, i < length h → _sources <$> h' !! i = _sources <$> h !! i) ∧
    (∀ i, length h ≤ i → i < length h' → _sources <$> h' !! i = Some []).
Proof.
  intros Hwf. revert node. induction seq as [|first seq IH]; intros node Hn; simpl.
  - exists h, node. split_and!; [done..|]. intros i ? ?. lia.
  - destruct (lookup_lt_is_Some_2 _ _ Hn) as [n Hnd]. rewrite Hnd. simpl.
    destruct (contains n (Some first)) eqn:Hc.
    + apply contains_Some in Hc as [c Hc]. rewrite Hc. simpl.
      apply IH. by destruct (child_path h Hwf _ _ _ _ Hnd Hc).
    + apply contains_false in Hc.
      destruct (_add_child h node first) as [[h' c]|] eqn:Ha;
        [|unfold _add_child in Ha; by rewrite Hnd in Ha].
      destruct (add_child_WF _ _ _ _ _ _ Hwf Hnd Hc Ha) as (? & -> & Hl & Hold & Hnew).
      exists h', (length h). split_and!; [done|done|lia|lia|done|].
      intros i ? ?. by assert (i = length h) as -> by lia.
Qed.

Lemma add_spec h seq :
  WF h → sources_nonempty h →
  ∃ h' c, add h 0 seq = Some (h', c) ∧ WF h' ∧ sources_nonempty h'.
Proof.
  intros Hwf Hsrc. unfold add, _add.
  destruct (add_walk_spec h 0 seq Hwf (root_lt h Hwf))
    as (h1 & c & Hw & Hwf1 & Hc & Hlen & Hold & Hnew).
  rewrite Hw. simpl.
  destruct (lookup_lt_is_Some_2 _ _ Hc) as [n Hn]. rewrite Hn. simpl.
  eexists _, c. split; [done|]. split.
  - apply (WF_shape h1); [|done]. by apply (same_shape_insert _ _ n).
  - intros i nd s Hi Hi0 Hs.
    assert (∀ nd1, h1 !! i = Some nd1 → s ∈ _sources nd1 → s ≠ []) as Hsrc1.
    { intros nd1 Hi1 Hs1. destruct (decide (i < length h)) as [Hlt|Hge].
      - specialize (Hold i Hlt). rewrite Hi1 in Hold.
        destruct (h !! i) as [nd0|] eqn:Hi'; simplify_eq/=.
        apply (Hsrc i nd0); [done..|]. congruence.
      - apply lookup_lt_Some in Hi1 as Hil.
        specialize (Hnew i ltac:(lia) Hil). rewrite Hi1 in Hnew.
        simplify_eq/=. rewrite Hnew in Hs1. by apply elem_of_nil in Hs1. }
    apply list_lookup_insert_Some in Hi as [(<- & <- & _)|[Hne Hi]]; [|by eauto].
    simpl in Hs. apply set_add_elem in Hs as [->|Hs]; [|by eauto].
    intros ->. simpl in Hw. by simplify_eq.
Qed.

Lemma add_all_spec h seqs :
  WF h → sources_nonempty h →
  ∃ h', add_all h 0 seqs = Some h' ∧ WF h' ∧ sources_nonempty h'.
Proof.
  revert h. induction seqs as [|seq seqs IH]; intros h Hwf Hsrc; simpl; [by exists h|].
  destruct (add_spec h seq Hwf Hsrc) as (h1 & c & -> & Hwf1 & Hsrc1). simpl.
  by apply IH.
Qed.

Lemma sources_nonempty_new_root : sources_nonempty [new_root].
Proof. intros [|[|i]] nd s Hi Hi0; by simplify_eq/=. Qed.

(** *** [finalize] as a whole *)

Lemma set_fall_sources h n f h' :
  set_fall h n f = Some h' → _sources <$> h' = _sources <$> h.
Proof.
  unfold set_fall. destruct (h !! n) as [nd|] eqn:Hn; simpl; [|done].
  intros [= <-]. rewrite list_fmap_insert. apply list_insert_id.
  by rewrite list_lookup_fmap, Hn.
Qed.

Lemma finalize_node_sources h n h' :
  finalize_node h 0 n = Some h' → _sources <$> h' = _sources <$> h.
Proof.
  unfold finalize_node. intros H.
  repeat (case_decide || case_match || simplify_option_eq);
    eauto using set_fall_sources.
Qed.

Lemma finalize_nodes_sources h ns h' :
  finalize_nodes h 0 ns = Some h' → _sources <$> h' = _sources <$> h.
Proof.
  revert h. induction ns as [|n ns IH]; intros h; simpl; [by intros [= ->]|].
  destruct (finalize_node h 0 n) as [h1|] eqn:H1; simpl; [|done].
  intros H2. rewrite (IH _ H2). by apply (finalize_node_sources _ n).
Qed.

Lemma finalize_spec h :
  WF h →
  ∃ h', finalize h 0 = Some h' ∧ same_shape h h' ∧ root_fall h' ∧
        (∀ i, i < length h' → i ≠ 0 → fall_ok h' i) ∧
        _sources <$> h' = _sources <$> h.
Proof.
  intros Hwf. unfold finalize.
  destruct (wf_root h Hwf) as (r & Hr & _).
  destruct (set_fall h 0 0) as [h0|] eqn:H0;
    [|unfold set_fall in H0; by rewrite Hr in H0].
  simpl. destruct (set_fall_shape _ _ _ _ H0) as (Hs0 & _ & (r' & Hr' & Hr0)).
  pose proof (WF_shape _ _ Hs0 Hwf) as Hwf0.
  destruct (bfs_spec h0 Hwf0) as (ns & -> & Hlt & Hall & _ & Hord). simpl.
  destruct (finalize_nodes_spec h0 [] ns Hwf0) as (h' & Hf & Hs & Hroot & Hok).
  - by exists (with_fall r' 0).
  - done.
  - intros x Hx. by apply elem_of_nil in Hx.
  - done.
  - exists h'. split_and!; [done|by etrans|done| |].
    + intros i Hi. apply Hok. simpl. apply Hall.
      by rewrite <- (same_shape_length _ _ Hs).
    + rewrite (finalize_nodes_sources _ _ _ Hf). by apply (set_fall_sources _ 0 0).
Qed.

(** *** [search] *)

Lemma goto_loop_fall_loop fuel h root c n :
  goto_loop fuel h root c n = fall_loop fuel h root (Some c) n.
Proof.
  revert n. induction fuel as [|fuel IH]; intros n; simpl; [done|].
  destruct (h !! n) as [nd|]; simpl; [|done].
  destruct (_ || _); [done|]. destruct (_fall nd); simpl; [apply IH|done].
Qed.

Lemma fall_ok_depth h x :
  fall_ok h x →
  ∃ nd f, h !! x = Some nd ∧ _fall nd = Some f ∧ f < length h ∧
          depth h f < depth h x ∧ path h f `suffix_of` path h x.
Proof.
  intros (nd & f & Hx & Hf & Hl & Hsuf & Hne & _). exists nd, f.
  split_and!; [done..| |done]. unfold depth.
  apply suffix_length in Hsuf as Hle.
  destruct (decide (length (path h f) = length (path h x))); [|lia].
  exfalso. apply Hne. apply suffix_length_eq; [done|lia].
Qed.

Lemma emit_loop_spec h fuel off n :
  finalized h → n < length h → depth h n ≤ fuel →
  ∃ out, emit_loop fuel h 0 off n = Some out ∧
    ∀ j s, (j, s) ∈ out ↔
      j = off ∧ ∃ x nd, x ≠ 0 ∧ h !! x = Some nd ∧ s ∈ _sources nd ∧
                        path h x `suffix_of` path h n.
Proof.
  intros (Hwf & Hroot & Hok). revert n.
  induction fuel as [|fuel IH]; intros n Hn Hd; simpl;
    destruct (decide (n = 0)) as [->|Hn0].
  1,3: exists []; split; [done|]; intros j s; split;
       [by intros ?%elem_of_nil|];
       intros (_ & x & nd & Hx0 & Hx & _ & Hsuf);
       rewrite (path_root h Hwf) in Hsuf; apply suffix_nil_inv in Hsuf;
       destruct Hx0; apply (path_nil h Hwf x); [by apply lookup_lt_Some in Hx|done].
  - exfalso. apply Hn0, (path_nil h Hwf n Hn), nil_length_inv.
    unfold depth in Hd. lia.
  - destruct (fall_ok_depth h n (Hok n Hn Hn0)) as (nd & f & Hnd & Hf & Hfl & Hdf & Hsuf).
    rewrite Hnd. simpl. rewrite Hf. simpl.
    destruct (IH f Hfl ltac:(lia)) as (rest & -> & Hrest). simpl.
    eexists. split; [done|]. intros j s.
    rewrite elem_of_app, list_elem_of_fmap, Hrest. split.
    + intros [(s' & [= -> ->] & Hs)|(-> & x & ndx & ? & ? & ? & ?)].
      * split; [done|]. by exists n, nd.
      * split; [done|]. exists x, ndx. split_and!; [done..|]. by etrans.
    + intros (-> & x & ndx & Hx0 & Hx & Hs & Hxs).
      destruct (decide (x = n)) as [->|Hne].
      * left. simplify_eq. by exists s.
      * right. split; [done|]. exists x, ndx. split_and!; [done..|].
        destruct (Hok n Hn Hn0) as (nd' & f' & ? & ? & _ & _ & _ & _ & Hmax).
        simplify_eq. apply (suffix_of_both _ _ (path h n)); [done..|].
        apply Hmax; [done| |apply (in_trie_path h Hwf); by apply lookup_lt_Some in Hx].
        intros Heq. apply Hne, (path_inj h Hwf); [|done..].
        by apply lookup_lt_Some in Hx.
Qed.

Lemma take_S_app_cons {A} (P T : list A) c :
  take (S (length P)) (P ++ c :: T) = P ++ [c].
Proof.
  rewrite (assoc_L (++) P [c] T : P ++ c :: T = (P ++ [c]) ++ T).
  rewrite take_app_le by (rewrite length_app; simpl; lia).
  apply take_ge. rewrite length_app. simpl. lia.
Qed.

Lemma search_step h P state c :
  finalized h → state < length h → lsuf h P (path h state) →
  ∃ g ng n',
    goto_loop (length h) h 0 c state = Some g ∧ h !! g = Some ng ∧
    (if decide (g = 0)
     then (if contains ng (Some c) then getitem ng c else Some g)
     else getitem ng c) = Some n' ∧
    n' < length h ∧ lsuf h (P ++ [c]) (path h n').
Proof.
  intros (Hwf & Hroot & Hok) Hst (Hsuf & _ & Hmax).
  rewrite goto_loop_fall_loop.
  destruct (fall_loop_spec h c (length h) state Hwf Hroot Hst)
    as (g & ng & -> & Hng & Hgs & Hg0 & Hgmax).
  { pose proof (depth_le h state). lia. }
  { intros y Hy _ Hy0. by apply Hok. }
  exists g, ng.
  assert (∀ s', s' `suffix_of` P ++ [c] → in_trie h s' →
            s' = [] ∨ ∃ t, s' = t ++ [c] ∧ t `suffix_of` path h g) as Hcases.
  { intros s' [->|(t & -> & Ht)]%suffix_snoc_cases Hin; [by left|]. right.
    exists t. split; [done|]. apply Hgmax; [|done].
    apply Hmax; [done|]. by apply (in_trie_prefix _ _ [c]). }
  destruct (contains ng (Some c)) eqn:Hc.
  - apply contains_Some in Hc as [x Hx].
    destruct (child_path h Hwf _ _ _ _ Hng Hx) as [Hxl Hxp].
    exists x. split_and!; [done|done|by case_decide|done|]. rewrite Hxp. split_and!.
    + apply suffix_app. by etrans.
    + rewrite <- Hxp. by apply in_trie_path.
    + intros s' Hs' Hin. destruct (Hcases s' Hs' Hin) as [->|(t & -> & Ht)].
      * apply suffix_nil.
      * by apply suffix_app.
  - specialize (Hg0 eq_refl) as ->. exists 0. rewrite decide_True by done.
    split_and!; [done|done|done|by apply root_lt|].
    rewrite (path_root h Hwf) in *. split_and!; [apply suffix_nil|by exists 0|].
    intros s' Hs' Hin. destruct (Hcases s' Hs' Hin) as [->|(t & -> & Ht)]; [done|].
    apply suffix_nil_inv in Ht as ->. exfalso. apply contains_false in Hc.
    assert (is_Some (getitem ng c)) as [? ?]; [|congruence].
    apply (in_trie_snoc h Hwf 0); [done|]. by rewrite (path_root h Hwf).
Qed.

Lemma search_loop_spec h P state T :
  finalized h → state < length h → lsuf h P (path h state) →
  ∃ out, search_loop h 0 state (length P) T = Some out ∧
    ∀ j s, (j, s) ∈ out ↔
      length P ≤ j ∧ ∃ x nd, x ≠ 0 ∧ h !! x = Some nd ∧ s ∈ _sources nd ∧
                             ends_at (P ++ T) j (path h x).
Proof.
  intros Hfin. pose proof Hfin as (Hwf & Hroot & Hok).
  revert P state. induction T as [|c T IH]; intros P state Hst Hl; simpl.
  - exists []. split; [done|]. intros j s. split; [by intros ?%elem_of_nil|].
    intros (Hj & x & nd & _ & _ & _ & Hlt & _). rewrite app_nil_r in Hlt. lia.
  - destruct (search_step h P state c Hfin Hst Hl)
      as (g & ng & n' & -> & Hng & Hn' & Hn'l & Hl').
    simpl. rewrite Hng. simpl. rewrite Hn'. simpl.
    destruct (emit_loop_spec h (length h) (length P) n' Hfin Hn'l) as (out & -> & Hout).
    { pose proof (depth_le h n'). lia. }
    destruct (IH (P ++ [c]) n' Hn'l Hl') as (more & Hmore & Hmore').
    rewrite length_app, Nat.add_1_r in Hmore. rewrite Hmore. simpl.
    eexists. split; [done|]. intros j s.
    rewrite elem_of_app, Hout, Hmore', <- (assoc_L (++)), length_app. simpl.
    destruct Hl' as (Hsuf' & _ & Hmax'). split.
    + intros [(-> & x & nd & ? & ? & ? & Hx)|(Hj & x & nd & ? & ? & ? & Hx)].
      * split; [done|]. exists x, nd. split_and!; [done..|]. split.
        -- rewrite length_app. simpl. lia.
        -- rewrite take_S_app_cons. by etrans.
      * split; [lia|]. by exists x, nd.
    + intros (Hj & x & nd & Hx0 & Hx & Hs & Hlt & He).
      destruct (decide (j = length P)) as [->|Hne].
      * left. split; [done|]. exists x, nd. split_and!; [done..|].
        rewrite take_S_app_cons in He. apply Hmax'; [done|].
        apply (in_trie_path h Hwf). by apply lookup_lt_Some in Hx.
      * right. split; [lia|]. by exists x, nd.
Qed.

Lemma init_spec seqs :
  ∃ h h', add_all [new_root] 0 seqs = Some h ∧ finalize h 0 = Some h' ∧
    MultiSequenceSearch_init seqs = Some (mkMSS h' 0) ∧
    WF h ∧ sources_nonempty h ∧ finalized h' ∧ sources_nonempty h' ∧
    same_shape h h'.
Proof.
  destruct (add_all_spec [new_root] seqs WF_new_root sources_nonempty_new_root)
    as (h & Ha & Hwf & Hsrc).
  destruct (finalize_spec h Hwf) as (h' & Hf & Hs & Hroot & Hok & Hsame).
  exists h, h'. unfold MultiSequenceSearch_init. rewrite Ha. simpl. rewrite Hf.
  split_and!; try done.
  - split_and!; [by apply (WF_shape h)|done..].
  - intros i nd s Hi Hi0 Hin.
    assert ((_sources <$> h) !! i = Some (_sources nd)) as Hl.
    { by rewrite <- Hsame, list_lookup_fmap, Hi. }
    rewrite list_lookup_fmap in Hl.
    destruct (h !! i) as [nd0|] eqn:Hi'; simplify_eq/=.
    apply (Hsrc i nd0); [done..|]. congruence.
Qed.

Lemma lsuf_root h : WF h → lsuf h [] (path h 0).
Proof.
  intros Hwf. rewrite (path_root h Hwf). split_and!; [done|by exists 0|].
  by intros s' Hs' _.
Qed.

(** X1: [search] over a trie built by [add] calls and finalized always
    returns, and reports [(j, s)] exactly when [s] is recorded as a source of
    a non-root node whose path occurs in the input with its last byte at
    [j]. *)
Theorem search_reports_recorded_sources (seqs : list bseq) (U : bseq) :
  ∃ m out, MultiSequenceSearch_init seqs = Some m ∧ search m U = Some out ∧
    ∀ j s, (j, s) ∈ out ↔
      ∃ x nd, x ≠ 0 ∧ nodes m !! x = Some nd ∧ s ∈ _sources nd ∧
              ends_at U j (path (nodes m) x).
Proof.
  destruct (init_spec seqs) as (h & h' & _ & _ & Hm & _ & _ & Hfin & _ & _).
  pose proof Hfin as (Hwf & _ & _).
  destruct (search_loop_spec h' [] 0 U Hfin (root_lt h' Hwf) (lsuf_root h' Hwf))
    as (out & Hout & Hspec).
  exists (mkMSS h' 0), out. split_and!; [done..|]. intros j s.
  rewrite Hspec. simpl. split; [by intros (_ & ?)|]. intros ?. split; [lia|done].
Qed.

(** C1 (the code departs from the claim): with the single source "ab",
    searching "ab" yields the one pair (0, "ab"), although "ab" does not end
    at position 0, and misses (1, "ab"), where it does end. *)
Theorem C1_search_single_source :
  ∃ m, MultiSequenceSearch_init [bytes "ab"] = Some m ∧
       search m (bytes "ab") = Some [(0, bytes "ab")] ∧
       ¬ ends_at (bytes "ab") 0 (bytes "ab") ∧
       ends_at (bytes "ab") 1 (bytes "ab").
Proof.
  eexists. split_and!; [vm_compute; reflexivity|vm_compute; reflexivity| |].
  - intros [_ Hs]. apply suffix_length in Hs. simpl in Hs. lia.
  - split; [simpl; lia|]. by exists [].
Qed.

(** [add] allocates at most one node, whatever the length of the sequence. *)
Lemma add_at_most_one_node h seq h' c :
  WF h → add h 0 seq = Some (h', c) → length h' ≤ S (length h).
Proof.
  intros Hwf. unfold add, _add.
  assert (∀ node h1 c1, _add_walk h node seq = Some (h1, c1) →
            length h1 ≤ S (length h)) as Hw.
  { induction seq as [|first seq IH]; intros node h1 c1; simpl.
    - intros [= <- <-]. lia.
    - destruct (h !! node) as [n|] eqn:Hn; simpl; [|done].
      destruct (contains n (Some first)) eqn:Hc.
      + destruct (getitem n first); simpl; [apply IH|done].
      + unfold _add_child. rewrite Hn. simpl. intros [= <- <-].
        rewrite length_insert, length_app. simpl. lia. }
  destruct (_add_walk h 0 seq) as [[h1 c1]|] eqn:E; simpl; [|done].
  destruct (h1 !! c1); simpl; [|done]. intros [= <- <-].
  rewrite length_insert. by apply (Hw 0 h1 c1).
Qed.

(** C2 (the code departs from the claim): [add] of the two-byte sequence
    "ab" to an empty trie creates the node for "a" only, records "ab" there,
    and leaves the trie without a path for "ab": [find] answers no. *)
Theorem C2_add_two_bytes :
  ∃ h n1, add [new_root] 0 (bytes "ab") = Some (h, 1) ∧ length h = 2 ∧
          h !! 1 = Some n1 ∧ _sources n1 = [bytes "ab"] ∧
          walk h 0 (bytes "a") = Some 1 ∧
          walk h 0 (bytes "ab") = None ∧
          find h 0 (bytes "ab") = Some false.
Proof. do 2 eexists. split_and!; vm_compute; reflexivity. Qed.

(** C3: after [finalize] on a trie built by any sequence of [add] calls, the
    failure link of the root is the root, and the failure link of every other
    node is the node whose path is the longest proper suffix of the node's own
    path that is present in the trie (the root, of empty path, when no longer
    one is). *)
Theorem C3_failure_links (seqs : list bseq) :
  ∃ h h', add_all [new_root] 0 seqs = Some h ∧ finalize h 0 = Some h' ∧
    (∃ r, h' !! 0 = Some r ∧ _fall r = Some 0) ∧
    ∀ i nd, h' !! i = Some nd → i ≠ 0 →
      walk h' 0 (path h' i) = Some i ∧
      ∃ f, _fall nd = Some f ∧ walk h' 0 (path h' f) = Some f ∧
           lps h' (path h' i) (path h' f).
Proof.
  destruct (init_spec seqs) as (h & h' & Ha & Hf & _ & _ & _ & Hfin & _ & _).
  destruct Hfin as (Hwf & Hroot & Hok).
  exists h, h'. split_and!; [done..|]. intros i nd Hi Hi0.
  apply lookup_lt_Some in Hi as Hil.
  destruct (Hok i Hil Hi0) as (nd' & f & ? & Hfall & Hfl & Hlps). simplify_eq.
  split; [by apply walk_path|]. exists f. split_and!; [done| |done].
  by apply walk_path.
Qed.

(** C10: [add] accepts the empty sequence and records it on the root without
    creating a node; and whatever sequences a searcher was built from, the
    empty one included, [search] returns and never reports the empty
    sequence, at any position of any input. *)
Theorem C10_empty_sequence (seqs : list bseq) (U : bseq) :
  (∃ h h' r, add_all [new_root] 0 seqs = Some h ∧
             add h 0 [] = Some (h', 0) ∧ length h' = length h ∧
             h' !! 0 = Some r ∧ [] ∈ _sources r) ∧
  (∃ m out, MultiSequenceSearch_init seqs = Some m ∧ search m U = Some out ∧
            ∀ j, (j, []) ∉ out).
Proof.
  destruct (init_spec seqs) as (h & h' & Ha & _ & Hm & Hwf & _ & Hfin & Hsrc & _).
  split.
  - destruct (wf_root h Hwf) as (r & Hr & _).
    exists h, (<[0 := with_sources r (set_add [] (_sources r))]> h),
      (with_sources r (set_add [] (_sources r))).
    unfold add, _add. simpl. rewrite Hr. simpl.
    split_and!; [done|done|by rewrite length_insert| |].
    + apply list_lookup_insert_eq. by apply lookup_lt_Some in Hr.
    + simpl. apply set_add_elem. by left.
  - pose proof Hfin as (Hwf' & _ & _).
    destruct (search_loop_spec h' [] 0 U Hfin (root_lt h' Hwf') (lsuf_root h' Hwf'))
      as (out & Hout & Hspec).
    exists (mkMSS h' 0), out. split_and!; [done..|].
    intros j (_ & x & nd & Hx0 & Hx & Hs & _)%Hspec.
    by apply (Hsrc x nd []).
Qed.

(** *** [find], [add], [bfs] and [find_prefix] on tries built by [add] *)

Lemma find_walk h s : WF h → ∀ n, n < length h →
  ∃ b, find h n s = Some b ∧
    (b = true ↔ ∃ x nd, walk h n s = Some x ∧ h !! x = Some nd ∧ _sources nd ≠ []).
Proof.
  intros Hwf. induction s as [|c s IH]; intros n Hn.
  - destruct (lookup_lt_is_Some_2 h n Hn) as [nd Hnd].
    eexists. simpl. rewrite Hnd. simpl. split; [done|].
    rewrite bool_decide_eq_true. split.
    + intros Hl. exists n, nd. split_and!; [done..|]. intros E. rewrite E in Hl.
      simpl in Hl. lia.
    + intros (x & nd' & [= <-] & Hx' & Hs). rewrite Hnd in Hx'.
      injection Hx' as <-. destruct (_sources nd); simpl; [done|lia].
  - destruct (lookup_lt_is_Some_2 h n Hn) as [nd Hnd].
    simpl. rewrite Hnd. simpl.
    destruct (contains nd (Some c)) eqn:Hc.
    + apply contains_Some in Hc as [k Hk]. rewrite Hk. simpl.
      destruct (wf_down h Hwf n nd c k Hnd Hk) as (ndk & Hndk & _).
      apply lookup_lt_Some in Hndk. apply (IH k Hndk).
    + apply contains_false in Hc. rewrite Hc. simpl.
      exists false. split; [done|]. split; [done|]. by intros (? & ? & ? & _).
Qed.

Lemma add_walk_decompose seq : ∀ (h : heap) node h' c,
  _add_walk h node seq = Some (h', c) →
  ∃ q g, q `prefix_of` seq ∧ walk h node q = Some g ∧
    ((q = seq ∧ h' = h ∧ c = g) ∨
     (∃ b rest ng, seq = q ++ b :: rest ∧ h !! g = Some ng ∧
        getitem ng b = None ∧ _add_child h g b = Some (h', c))).
Proof.
  induction seq as [|first seq IH]; intros h node h' c; simpl.
  - intros [= <- <-]. exists [], node. split_and!; [done|done|by left].
  - destruct (h !! node) as [n|] eqn:Hn; simpl; [|done].
    destruct (contains n (Some first)) eqn:Hc.
    + apply contains_Some in Hc as [k Hk]. rewrite Hk. simpl. intros Hw.
      destruct (IH _ _ _ _ Hw) as (q & g & Hq & Hg & Hcase).
      exists (first :: q), g. split_and!.
      * by apply prefix_cons.
      * simpl. rewrite Hn. simpl. by rewrite Hk.
      * destruct Hcase as [(-> & -> & ->)|(b & rest & ng & -> & ? & ? & ?)];
          [by left|right].
        by exists b, rest, ng.
    + apply contains_false in Hc. intros Ha. exists [], node.
      split_and!; [apply prefix_nil|done|].
      right. by exists first, seq, n.
Qed.

Lemma add_child_walk (h : heap) g ng b h' c :
  h !! g = Some ng → getitem ng b = None → _add_child h g b = Some (h', c) →
  (∀ p n x, walk h n p = Some x → walk h' n p = Some x) ∧
  c = length h ∧
  h' !! c = Some (mkACNode (Some b) [] [] (Some g) None) ∧
  (∃ ng', h' !! g = Some ng' ∧ getitem ng' b = Some c).
Proof.
  intros Hg Hb. unfold _add_child. rewrite Hg. simpl. intros [= <- <-].
  pose proof (lookup_lt_Some _ _ _ Hg) as Hl.
  unfold getitem in Hb. rewrite (dict_set_fresh _ _ _ Hb).
  set (n' := with_children ng (_children ng ++ [(b, length h)])).
  set (new := mkACNode (Some b) [] [] (Some g) None).
  pose proof (λ i, add_child_lookup h g ng n' new i Hg) as Hlk.
  split_and!; [|done| |].
  - induction p as [|a p IH]; intros n x; simpl; [done|].
    destruct (h !! n) as [nd|] eqn:Hn; simpl; [|done].
    apply lookup_lt_Some in Hn as Hnl.
    destruct (getitem nd a) as [k|] eqn:Hk; simpl; [|done].
    intros Hw. rewrite Hlk. destruct (decide (n = g)) as [->|_].
    + simpl. simplify_eq. unfold getitem in *. simpl.
      rewrite dict_get_snoc, Hk. simpl. by apply IH.
    + rewrite decide_False by lia. rewrite Hn. simpl. rewrite Hk. simpl.
      by apply IH.
  - by rewrite Hlk, decide_False, decide_True by lia.
  - exists n'. rewrite Hlk, decide_True by done. split; [done|].
    unfold getitem. simpl. by rewrite dict_get_snoc, Hb, decide_True.
Qed.

Lemma walk_preserved_path h h' i :
  WF h → WF h' → i < length h →
  (∀ p n x, walk h n p = Some x → walk h' n p = Some x) →
  path h' i = path h i.
Proof.
  intros Hwf Hwf' Hi Hw.
  pose proof (walk_path h Hwf i Hi) as Hp. apply Hw in Hp.
  by destruct (walk_path_eq h' Hwf' _ _ Hp) as [-> _].
Qed.

Lemma add_full_spec h seq :
  WF h →
  ∃ h' c q nd',
    add h 0 seq = Some (h', c) ∧ WF h' ∧
    q `prefix_of` seq ∧ in_trie h q ∧
    (∀ q', q' `prefix_of` seq → in_trie h q' → length q' ≤ length q) ∧
    path h' c = take (S (length q)) seq ∧
    (if decide (q = seq) then length h' = length h ∧ c < length h
     else length h' = S (length h) ∧ c = length h) ∧
    h' !! c = Some nd' ∧
    (∀ s, s ∈ _sources nd' ↔ s = seq ∨ ∃ nd, h !! c = Some nd ∧ s ∈ _sources nd) ∧
    (∀ i, i ≠ c → _sources <$> h' !! i = _sources <$> h !! i) ∧
    (∀ p n x, walk h n p = Some x → walk h' n p = Some x) ∧
    (∀ i, i < length h → path h' i = path h i).
Proof.
  intros Hwf. unfold add, _add.
  destruct (add_walk_spec h 0 seq Hwf (root_lt h Hwf))
    as (h1 & c & Hw & Hwf1 & Hc & Hlen & Hold & Hnew).
  rewrite Hw. simpl.
  destruct (lookup_lt_is_Some_2 _ _ Hc) as [n Hn]. rewrite Hn. simpl.
  set (nd' := with_sources n (set_add seq (_sources n))).
  assert (same_shape h1 (<[c := nd']> h1)) as Hsh
    by by apply (same_shape_insert _ _ n).
  pose proof (WF_shape _ _ Hsh Hwf1) as Hwf'.
  assert (<[c := nd']> h1 !! c = Some nd') as Hc'
    by by apply list_lookup_insert_eq.
  destruct (add_walk_decompose _ _ _ _ _ Hw) as (q & g & Hq & Hg & Hcase).
  exists (<[c := nd']> h1), c, q, nd'.
  destruct Hcase as [(-> & -> & ->)|(b & rest & ng & -> & Hng & Hb & Ha)].
  - rewrite decide_True by done. rewrite length_insert.
    destruct (walk_path_eq h Hwf _ _ Hg) as [Hp _].
    split_and!; [done|done|done|by exists g| | |done|by apply lookup_lt_Some in Hn|done| | | |].
    + intros q' Hq' _. by apply prefix_length.
    + rewrite <- (path_shape h _ _ Hsh), <- Hp. by rewrite take_ge by lia.
    + intros s. unfold nd'. simpl. rewrite set_add_elem. split.
      * intros [->|?]; [by left|right]. by exists n.
      * intros [->|(nd & ? & ?)]; [by left|right]. by simplify_eq.
    + intros i Hi. by rewrite list_lookup_insert_ne.
    + intros p n0 x. by rewrite <- (walk_shape h _ _ _ Hsh).
    + intros i _. by rewrite <- (path_shape h _ _ Hsh).
  - destruct (add_child_walk _ _ _ _ _ _ Hng Hb Ha) as (Hwk & -> & Hnew' & (ng' & Hng' & Hgb)).
    rewrite decide_False; last first.
    { intros E. apply (f_equal length) in E. rewrite length_app in E. simpl in E. lia. }
    rewrite length_insert.
    assert (walk h1 0 (q ++ [b]) = Some (length h)) as Hwc.
    { rewrite walk_snoc, (Hwk _ _ _ Hg). simpl. rewrite Hng'. simpl. done. }
    destruct (walk_path_eq h1 Hwf1 _ _ Hwc) as [Hp _].
    rewrite Hn in Hnew'. injection Hnew' as Hnn.
    assert (length h1 = S (length h)) as Hl1.
    { unfold _add_child in Ha. rewrite Hng in Ha. simpl in Ha.
      injection Ha as <-. rewrite length_insert, length_app. simpl. lia. }
    split_and!; [done|done|done|by exists g| | |lia|done|done| | | |].
    + intros q' Hq' Hin. destruct (decide (length q' ≤ length q)) as [|Hgt]; [done|].
      exfalso. destruct Hq' as [r' Hr'].
      assert (q ++ [b] `prefix_of` q') as [r'' ->].
      { destruct (prefix_weak_total (q ++ [b]) q' (q ++ b :: rest)) as [H|H];
          [exists rest; by rewrite <- app_assoc|by exists r'|done|].
        rewrite (prefix_length_eq _ _ H); [done|].
        rewrite length_app. simpl. lia. }
      apply in_trie_prefix in Hin. destruct Hin as [x Hx].
      rewrite walk_snoc, Hg in Hx. simpl in Hx. rewrite Hng in Hx. simpl in Hx.
      by rewrite Hb in Hx.
    + rewrite <- (path_shape h1 _ _ Hsh), <- Hp. by rewrite take_S_app_cons.
    + intros s. unfold nd'. simpl. rewrite set_add_elem. subst n. simpl. split.
      * intros [->|Hs]; [by left|]. by apply elem_of_nil in Hs.
      * intros [->|(nd & Hnd & _)]; [by left|].
        apply lookup_lt_Some in Hnd. lia.
    + intros i Hi. rewrite list_lookup_insert_ne by done.
      destruct (decide (i < length h)) as [|Hge]; [by apply Hold|].
      rewrite (proj2 (lookup_ge_None h1 i)) by lia.
      by rewrite (proj2 (lookup_ge_None h i)) by lia.
    + intros p n0 x Hx. rewrite <- (walk_shape h1 _ _ _ Hsh). by apply Hwk.
    + intros i Hi. rewrite <- (path_shape h1 _ _ Hsh).
      by apply walk_preserved_path.
Qed.
Lemma in_trie_prefix_of h (s q : bseq) :
  in_trie h s → q `prefix_of` s → in_trie h q.
Proof. intros Hin [t ->]. by apply (in_trie_prefix _ _ t). Qed.

Lemma built_trie seqs :
  ∃ h, add_all [new_root] 0 seqs = Some h ∧ WF h.
Proof.
  destruct (add_all_spec [new_root] seqs WF_new_root sources_nonempty_new_root)
    as (h & Ha & Hwf & _).
  by exists h.
Qed.

(** X2: on a trie built by [add] calls, [find] always returns, and it returns
    [True] exactly when the sequence labels a path from the root that ends on
    a node holding at least one source. *)
Theorem find_iff_path_with_source (seqs : list bseq) (s : bseq) :
  ∃ h b, add_all [new_root] 0 seqs = Some h ∧ find h 0 s = Some b ∧
    (b = true ↔
     ∃ x nd, walk h 0 s = Some x ∧ h !! x = Some nd ∧ _sources nd ≠ []).
Proof.
  destruct (built_trie seqs) as (h & Ha & Hwf).
  destruct (find_walk h s Hwf 0 (root_lt h Hwf)) as (b & Hb & Hiff).
  by exists h, b.
Qed.

(** X3: [add] of [s] to a trie built by [add] calls follows the longest prefix
    [q] of [s] present in the trie, allocates one node when [q] is shorter
    than [s] and none otherwise, and records [s] on the node reached, whose
    path is [q] extended by at most one byte of [s]; the sources of the other
    nodes and the existing paths are left as they were. *)
Theorem add_records_after_longest_present_prefix (seqs : list bseq) (s : bseq) :
  ∃ h h' c q nd',
    add_all [new_root] 0 seqs = Some h ∧ add h 0 s = Some (h', c) ∧
    q `prefix_of` s ∧ in_trie h q ∧
    (∀ q', q' `prefix_of` s → in_trie h q' → length q' ≤ length q) ∧
    walk h' 0 (take (S (length q)) s) = Some c ∧
    length h' = (if decide (q = s) then length h else S (length h)) ∧
    h' !! c = Some nd' ∧ s ∈ _sources nd' ∧
    (∀ i, i ≠ c → _sources <$> h' !! i = _sources <$> h !! i) ∧
    (∀ p x, walk h 0 p = Some x → walk h' 0 p = Some x).
Proof.
  destruct (built_trie seqs) as (h & Ha & Hwf).
  destruct (add_full_spec h s Hwf)
    as (h' & c & q & nd' & Hadd & Hwf' & Hq & Hin & Hmax & Hp & Hlen & Hc & Hsrc
        & Hoth & Hwk & _).
  exists h, h', c, q, nd'. split_and!; [done..| | |done| |done|].
  - rewrite <- Hp. apply (walk_path h' Hwf'). by apply lookup_lt_Some in Hc.
  - by destruct (decide (q = s)) as [_|_]; destruct Hlen.
  - apply Hsrc. by left.
  - intros p x. apply Hwk.
Qed.

Lemma removelast_prefix {A} (s : list A) :
  removelast s `prefix_of` s ∧ length (removelast s) = length s - 1.
Proof.
  rewrite removelast_firstn_len. split.
  - exists (drop (Init.Nat.pred (length s)) s). by rewrite take_drop.
  - rewrite length_take. lia.
Qed.

(** X4: [find(s)] right after [add(s)] returns [True] exactly when [s] less
    its last byte labelled a path of the trie before the call (so always for
    sequences of at most one byte). *)
Theorem find_after_add (seqs : list bseq) (s : bseq) :
  ∃ h h' c r,
    add_all [new_root] 0 seqs = Some h ∧ add h 0 s = Some (h', c) ∧
    find h' 0 s = Some r ∧ (r = true ↔ in_trie h (removelast s)).
Proof.
  destruct (built_trie seqs) as (h & Ha & Hwf).
  destruct (add_full_spec h s Hwf)
    as (h' & c & q & nd' & Hadd & Hwf' & Hq & Hin & Hmax & Hp & Hlen & Hc & Hsrc
        & Hoth & Hwk & Hpath).
  destruct (find_walk h' s Hwf' 0 (root_lt h' Hwf')) as (r & Hr & Hiff).
  exists h, h', c, r. split_and!; [done..|]. rewrite Hiff.
  destruct (removelast_prefix s) as [Hrp Hrl].
  pose proof (prefix_length _ _ Hq) as Hql.
  split.
  - intros (x & nd & Hx & Hnd & _).
    destruct (walk_path_eq h' Hwf' _ _ Hx) as [Hs Hxl].
    destruct (decide (q = s)) as [->|Hne]; [by apply (in_trie_prefix_of h s)|].
    destruct Hlen as [Hl ->].
    destruct (decide (x = length h)) as [->|Hxne].
    + rewrite Hp in Hs. apply (f_equal length) in Hs. rewrite length_take in Hs.
      assert (length s ≤ S (length q)) as Hsl by lia.
      assert (removelast s = q) as ->; [|done].
      destruct Hq as [t ->]. rewrite length_app in Hsl.
      destruct t as [|a [|a' t]];
        [by rewrite app_nil_r in Hne|by rewrite removelast_last|simpl in Hsl; lia].
    + exfalso. rewrite Hpath in Hs by lia. apply Hne.
      apply prefix_length_eq; [done|]. apply Hmax; [done|].
      rewrite Hs. apply (in_trie_path h Hwf). lia.
  - intros Hrin. exists c, nd'. split_and!; [|done|].
    + assert (take (S (length q)) s = s) as Ht.
      { apply take_ge. specialize (Hmax _ Hrp Hrin). lia. }
      rewrite <- Ht at 1. rewrite <- Hp. apply (walk_path h' Hwf').
      by apply lookup_lt_Some in Hc.
    + intros E. assert (s ∈ _sources nd') as Hs by (apply Hsrc; by left).
      rewrite E in Hs. by apply elem_of_nil in Hs.
Qed.
Lemma bfs_inv_start h : WF h → bfs_inv h [] [0].
Proof.
  intros Hwf. split; simpl.
  - apply NoDup_singleton.
  - intros x ->%list_elem_of_singleton. by apply root_lt.
  - intros x nd c Hx. by apply elem_of_nil in Hx.
  - intros x nd p ->%list_elem_of_singleton Hx Hp.
    by destruct (root_not_child h Hwf _ _ _ Hx Hp).
  - repeat constructor.
  - by left.
Qed.

(** X5: [bfs] from the root of a trie built by [add] calls yields every node
    exactly once, the root first, and in order of non-decreasing depth. *)
Theorem bfs_yields_each_node_once_by_depth (seqs : list bseq) :
  ∃ h ns, add_all [new_root] 0 seqs = Some h ∧ bfs h 0 = Some ns ∧
    ns ≡ₚ seq 0 (length h) ∧ head ns = Some 0 ∧
    StronglySorted (λ a b, depth h a ≤ depth h b) ns.
Proof.
  destruct (built_trie seqs) as (h & Ha & Hwf).
  destruct (bfs_loop_spec h Hwf (length h) [] [0] (bfs_inv_start h Hwf))
    as (ns & Hns & Hinv); [simpl; lia|].
  simpl in Hinv. exists h, ns.
  pose proof (bi_nodup _ _ _ Hinv) as Hnd. rewrite app_nil_r in Hnd.
  split_and!; [done|done| | |].
  - apply NoDup_Permutation; [done|apply NoDup_seq|].
    intros x. rewrite elem_of_seq. split.
    + intros Hx. pose proof (bi_lt _ _ _ Hinv x) as Hl. rewrite app_nil_r in Hl.
      specialize (Hl Hx). lia.
    + intros [_ Hx]. by apply (bfs_inv_complete h Hwf).
  - pose proof (root_lt h Hwf) as Hl.
    destruct (length h) as [|n]; [lia|]. simpl in Hns.
    destruct (h !! 0); simpl in Hns; [|done].
    destruct (bfs_loop n h _); simpl in Hns; [|done]. by injection Hns as <-.
  - pose proof (bi_sorted _ _ _ Hinv) as Hs. by rewrite app_nil_r in Hs.
Qed.

Lemma sources_lookup (h h' : heap) x nd :
  _sources <$> h' = _sources <$> h → h !! x = Some nd →
  ∃ nd', h' !! x = Some nd' ∧ _sources nd' = _sources nd.
Proof.
  intros E Hx. apply (f_equal (.!! x)) in E. rewrite !list_lookup_fmap, Hx in E.
  destruct (h' !! x) as [nd'|]; simplify_eq/=. by exists nd'.
Qed.

Lemma sources_lookup_at (h h' : heap) x nd :
  _sources <$> h' !! x = _sources <$> h !! x → h' !! x = Some nd →
  ∃ nd0, h !! x = Some nd0 ∧ _sources nd0 = _sources nd.
Proof.
  intros E Hx. rewrite Hx in E. destruct (h !! x) as [nd0|]; simplify_eq/=.
  by exists nd0.
Qed.

Lemma add_all_sources seqs : ∀ h (known : list bseq),
  WF h →
  (∀ x nd s, h !! x = Some nd → s ∈ _sources nd →
     path h x `prefix_of` s ∧ s ∈ known) →
  ∃ h', add_all h 0 seqs = Some h' ∧ WF h' ∧
    ∀ x nd s, h' !! x = Some nd → s ∈ _sources nd →
      path h' x `prefix_of` s ∧ s ∈ known ++ seqs.
Proof.
  induction seqs as [|seq seqs IH]; intros h known Hwf Hinv; simpl.
  - exists h. rewrite app_nil_r. by split_and!.
  - destruct (add_full_spec h seq Hwf)
      as (h1 & c & q & nd' & -> & Hwf1 & Hq & Hin & Hmax & Hp & Hlen & Hc & Hsrc
          & Hoth & Hwk & Hpath).
    simpl. destruct (IH h1 (known ++ [seq]) Hwf1) as (h' & Ha & Hwf' & Hinv').
    + intros x nd s Hx Hs.
      assert (∀ nd0, h !! x = Some nd0 → s ∈ _sources nd0 →
                path h1 x `prefix_of` s ∧ s ∈ known ++ [seq]) as Hold.
      { intros nd0 Hx0 Hs0. destruct (Hinv x nd0 s Hx0 Hs0) as [? ?].
        rewrite Hpath by by apply lookup_lt_Some in Hx0.
        split; [done|]. apply elem_of_app. by left. }
      destruct (decide (x = c)) as [->|Hne].
      * rewrite Hc in Hx. injection Hx as <-.
        apply Hsrc in Hs as [->|(nd0 & Hx0 & Hs0)]; [|by eauto].
        split; [|apply elem_of_app; right; by left].
        rewrite Hp. eexists. symmetry. apply take_drop.
      * destruct (sources_lookup_at _ _ _ _ (Hoth x Hne) Hx) as (nd0 & Hx0 & E).
        apply (Hold nd0 Hx0). by rewrite E.
    + exists h'. split_and!; [done..|]. intros x nd s Hx Hs.
      rewrite (cons_middle seq), (assoc_L (++)). by apply (Hinv' x nd).
Qed.

Lemma emit_loop_offsets fuel : ∀ (h : heap) root off n out,
  emit_loop fuel h root off n = Some out → ∀ x, x ∈ out.*1 → x = off.
Proof.
  induction fuel as [|fuel IH]; intros h root off n out; simpl;
    destruct (decide (n = root)) as [_|_]; try done.
  1,2: by intros [= <-] x ?%elem_of_nil.
  destruct (h !! n) as [nd|]; simpl; [|done].
  destruct (_fall nd) as [nxt|]; simpl; [|done].
  destruct (emit_loop fuel h root off nxt) as [rest|] eqn:Hr; simpl; [|done].
  intros [= <-] x. rewrite fmap_app, elem_of_app.
  intros [Hx|Hx]; [|by apply (IH _ _ _ _ _ Hr)].
  apply list_elem_of_fmap in Hx as ([j s] & -> & Hx).
  by apply list_elem_of_fmap in Hx as (s' & [= -> _] & _).
Qed.

Lemma search_loop_cons (h : heap) root state off c T out :
  search_loop h root state off (c :: T) = Some out →
  ∃ n' o more, emit_loop (length h) h root off n' = Some o ∧
    search_loop h root n' (S off) T = Some more ∧ out = o ++ more ∧
    ∀ T', search_loop h root state off (c :: T') =
          more' ← search_loop h root n' (S off) T'; Some (o ++ more').
Proof.
  simpl. destruct (goto_loop (length h) h root c state) as [n|]; simpl; [|done].
  destruct (h !! n) as [nd|]; simpl; [|done].
  match goal with |- context [mbind _ ?x] => destruct x as [n'|] end; simpl; [|done].
  destruct (emit_loop (length h) h root off n') as [o|] eqn:Ho; simpl; [|done].
  destruct (search_loop h root n' (S off) T) as [more|] eqn:Hm; simpl; [|done].
  intros [= <-]. by exists n', o, more.
Qed.

Lemma search_loop_sorted T : ∀ (h : heap) root state off out,
  search_loop h root state off T = Some out →
  StronglySorted le out.*1 ∧ ∀ x, x ∈ out.*1 → off ≤ x.
Proof.
  induction T as [|c T IH]; intros h root state off out.
  - intros [= <-]. split; [constructor|]. by intros x ?%elem_of_nil.
  - intros (n' & o & more & Ho & Hm & -> & _)%search_loop_cons.
    destruct (IH _ _ _ _ _ Hm) as [Hs Hge].
    pose proof (emit_loop_offsets _ _ _ _ _ _ Ho) as Hoff.
    rewrite fmap_app. split.
    + apply StronglySorted_app_2; [|by apply (StronglySorted_const id off)|done].
      intros x1 x2 ->%Hoff ?%Hge. lia.
    + intros x [->%Hoff|?%Hge]%elem_of_app; lia.
Qed.

Lemma search_loop_app T1 : ∀ (h : heap) root state off T2 out,
  search_loop h root state off (T1 ++ T2) = Some out →
  ∃ out1, search_loop h root state off T1 = Some out1 ∧ out1 `prefix_of` out.
Proof.
  induction T1 as [|c T1 IH]; intros h root state off T2 out.
  - intros _. exists []. split; [done|apply prefix_nil].
  - rewrite <- app_comm_cons.
    intros (n' & o & more & Ho & Hm & -> & Heq)%search_loop_cons.
    destruct (IH _ _ _ _ _ _ Hm) as (out1 & H1 & Hpre).
    exists (o ++ out1). rewrite Heq, H1. simpl. split; [done|].
    by apply prefix_app.
Qed.
Lemma init_sources seqs :
  ∃ h h', add_all [new_root] 0 seqs = Some h ∧ finalize h 0 = Some h' ∧
    MultiSequenceSearch_init seqs = Some (mkMSS h' 0) ∧
    WF h ∧ finalized h' ∧ same_shape h h' ∧ _sources <$> h' = _sources <$> h.
Proof.
  destruct (built_trie seqs) as (h & Ha & Hwf).
  destruct (finalize_spec h Hwf) as (h' & Hf & Hs & Hroot & Hok & Hsame).
  exists h, h'. unfold MultiSequenceSearch_init. rewrite Ha. simpl. rewrite Hf.
  split_and!; try done. split_and!; [by apply (WF_shape h)|done..].
Qed.

(** X6: [search] yields its pairs in order of non-decreasing position; each
    position is an index of the input, each source is one of the sequences
    handed to the constructor, and a non-empty prefix of it occurs in the
    input with its last byte at that position. *)
Theorem search_yields_in_stream_order (seqs : list bseq) (U : bseq) :
  ∃ m out, MultiSequenceSearch_init seqs = Some m ∧ search m U = Some out ∧
    StronglySorted le out.*1 ∧
    ∀ j s, (j, s) ∈ out →
      j < length U ∧ s ∈ seqs ∧
      ∃ p, p ≠ [] ∧ p `prefix_of` s ∧ ends_at U j p.
Proof.
  destruct (init_sources seqs) as (h & h' & Ha & _ & Hm & Hwf & Hfin & Hsh & Hsrc).
  pose proof Hfin as (Hwf' & _ & _).
  destruct (search_loop_spec h' [] 0 U Hfin (root_lt h' Hwf') (lsuf_root h' Hwf'))
    as (out & Hout & Hspec).
  destruct (add_all_sources seqs [new_root] [] WF_new_root) as (h2 & Ha2 & _ & Hinv).
  { intros [|[|x]] nd s Hx Hs; simplify_eq/=. by apply elem_of_nil in Hs. }
  rewrite Ha in Ha2. injection Ha2 as <-.
  exists (mkMSS h' 0), out. split_and!; [done|done| |].
  - by destruct (search_loop_sorted _ _ _ _ _ _ Hout).
  - intros j s (_ & x & nd & Hx0 & Hx & Hs & He)%Hspec. simpl in He.
    destruct (sources_lookup_at h h' x nd) as (nd0 & Hx0' & E);
      [by rewrite <- !list_lookup_fmap, Hsrc|done|].
    rewrite <- E in Hs. destruct (Hinv x nd0 s Hx0' Hs) as [Hp Hin].
    split_and!; [by destruct He|done|].
    exists (path h' x). split_and!; [|by rewrite <- (path_shape h h')|done].
    intros Hnil. apply Hx0, (path_nil h' Hwf'); [|done].
    by apply lookup_lt_Some in Hx.
Qed.

(** X7: [search] is incremental: what it yields on an input is a prefix of
    what it yields on any extension of that input. *)
Theorem search_results_extend_with_input (seqs : list bseq) (U1 U2 : bseq) :
  ∃ m out1 out, MultiSequenceSearch_init seqs = Some m ∧
    search m U1 = Some out1 ∧ search m (U1 ++ U2) = Some out ∧
    out1 `prefix_of` out.
Proof.
  destruct (init_sources seqs) as (h & h' & _ & _ & Hm & _ & Hfin & _ & _).
  pose proof Hfin as (Hwf' & _ & _).
  destruct (search_loop_spec h' [] 0 (U1 ++ U2) Hfin (root_lt h' Hwf')
              (lsuf_root h' Hwf')) as (out & Hout & _).
  destruct (search_loop_app _ _ _ _ _ _ _ Hout) as (out1 & Hout1 & Hpre).
  by exists (mkMSS h' 0), out1, out.
Qed.

Lemma add_all_built_up seqs : ∀ h (seen : list bseq),
  WF h →
  (∀ x nd s, h !! x = Some nd → s ∈ _sources nd → path h x = s ∧ s ∈ seen) →
  (∀ s, s ∈ seen → ∃ x nd, h !! x = Some nd ∧ path h x = s ∧ s ∈ _sources nd) →
  built_up seen seqs = true →
  ∃ h', add_all h 0 seqs = Some h' ∧ WF h' ∧
    (∀ x nd s, h' !! x = Some nd → s ∈ _sources nd →
       path h' x = s ∧ (s ∈ seen ∨ s ∈ seqs)) ∧
    (∀ s, s ∈ seen ∨ s ∈ seqs →
       ∃ x nd, h' !! x = Some nd ∧ path h' x = s ∧ s ∈ _sources nd).
Proof.
  induction seqs as [|seq seqs IH]; intros h seen Hwf Hon Hall; simpl.
  - intros _. exists h. split_and!; [done|done| |].
    + intros x nd s Hx Hs. destruct (Hon x nd s Hx Hs). by auto.
    + intros s [?|?%elem_of_nil]; by auto.
  - intros [Hrm Hrest]%andb_prop. apply bool_decide_eq_true in Hrm.
    destruct (add_full_spec h seq Hwf)
      as (h1 & c & q & nd' & -> & Hwf1 & Hq & Hin & Hmax & Hp & Hlen & Hc & Hsrc
          & Hoth & Hwk & Hpath).
    simpl.
    assert (path h1 c = seq) as Hpc.
    { rewrite Hp. apply take_ge.
      destruct (removelast_prefix seq) as [Hrp Hrl].
      assert (in_trie h (removelast seq)) as Hrin.
      { apply elem_of_cons in Hrm as [->|Hrm]; [by exists 0|].
        destruct (Hall _ Hrm) as (x & nd & Hx & <- & _).
        apply (in_trie_path h Hwf). by apply lookup_lt_Some in Hx. }
      specialize (Hmax _ Hrp Hrin). lia. }
    destruct (IH h1 (seq :: seen) Hwf1) as (h' & Ha & Hwf' & Hon' & Hall').
    + intros x nd s Hx Hs.
      assert (∀ nd0, h !! x = Some nd0 → s ∈ _sources nd0 →
                path h1 x = s ∧ s ∈ seq :: seen) as Hold.
      { intros nd0 Hx0 Hs0. destruct (Hon x nd0 s Hx0 Hs0) as [? ?].
        rewrite Hpath by by apply lookup_lt_Some in Hx0.
        split; [done|]. by right. }
      destruct (decide (x = c)) as [->|Hne].
      * rewrite Hc in Hx. injection Hx as <-.
        apply Hsrc in Hs as [->|(nd0 & Hx0 & Hs0)]; [|by eauto].
        split; [done|by left].
      * destruct (sources_lookup_at _ _ _ _ (Hoth x Hne) Hx) as (nd0 & Hx0 & E).
        apply (Hold nd0 Hx0). by rewrite E.
    + intros s [->|Hs]%elem_of_cons.
      * exists c, nd'. split_and!; [done..|]. apply Hsrc. by left.
      * destruct (Hall s Hs) as (x & nd & Hx & Hpx & Hsx).
        apply lookup_lt_Some in Hx as Hxl.
        destruct (decide (x = c)) as [->|Hne].
        -- exists c, nd'. split_and!; [done|by rewrite Hpath|].
           apply Hsrc. right. by exists nd.
        -- pose proof (Hoth x Hne) as E. rewrite Hx in E.
           destruct (h1 !! x) as [nd1|] eqn:Hx1; simplify_eq/=.
           exists x, nd1. split_and!; [done|by rewrite Hpath|congruence].
    + done.
    + exists h'. split_and!; [done..| |].
      * intros x nd s Hx Hs. destruct (Hon' x nd s Hx Hs) as [? Hcase].
        split; [done|]. rewrite elem_of_cons in Hcase. rewrite elem_of_cons. tauto.
      * intros s Hs. apply Hall'. rewrite !elem_of_cons in *. tauto.
Qed.

(** X8: when the sequences are handed to the constructor so that each one,
    less its last byte, is empty or was handed over before, [search] is
    exact: it yields [(j, s)] exactly when [s] is a non-empty sequence of the
    constructor that occurs in the input with its last byte at [j]. *)
Theorem search_exact_when_built_up (seqs : list bseq) (U : bseq) :
  built_up [] seqs = true →
  ∃ m out, MultiSequenceSearch_init seqs = Some m ∧ search m U = Some out ∧
    ∀ j s, (j, s) ∈ out ↔ s ∈ seqs ∧ s ≠ [] ∧ ends_at U j s.
Proof.
  intros Hb.
  destruct (init_sources seqs) as (h & h' & Ha & _ & Hm & Hwf & Hfin & Hsh & Hsrc).
  pose proof Hfin as (Hwf' & _ & _).
  destruct (search_loop_spec h' [] 0 U Hfin (root_lt h' Hwf') (lsuf_root h' Hwf'))
    as (out & Hout & Hspec).
  destruct (add_all_built_up seqs [new_root] [] WF_new_root)
    as (h2 & Ha2 & _ & Hon & Hall); [| |done|].
  { intros [|[|x]] nd s Hx Hs; simplify_eq/=. by apply elem_of_nil in Hs. }
  { by intros s ?%elem_of_nil. }
  rewrite Ha in Ha2. injection Ha2 as <-.
  exists (mkMSS h' 0), out. split_and!; [done..|]. intros j s.
  rewrite Hspec. simpl. split.
  - intros (_ & x & nd & Hx0 & Hx & Hs & He).
    destruct (sources_lookup_at h h' x nd) as (nd0 & Hx0' & E);
      [by rewrite <- !list_lookup_fmap, Hsrc|done|].
    rewrite <- E in Hs. destruct (Hon x nd0 s Hx0' Hs) as [Hp [?%elem_of_nil|Hin]]; [done|].
    rewrite <- (path_shape h h') in He by done. rewrite Hp in He.
    split_and!; [done| |done].
    intros ->. apply Hx0, (path_nil h Hwf); [|done]. by apply lookup_lt_Some in Hx0'.
  - intros (Hin & Hne & He). split; [lia|].
    destruct (Hall s (or_intror Hin)) as (x & nd & Hx & Hp & Hs).
    destruct (sources_lookup h h' x nd Hsrc Hx) as (nd' & Hx' & E).
    exists x, nd'. split_and!; [|done|by rewrite E|].
    + intros ->. by rewrite (path_root h Hwf) in Hp.
    + by rewrite <- (path_shape h h'), Hp.
Qed.

Lemma search_exact_when_built_up_witness :
  built_up [] [bytes "a"; bytes "ab"; bytes "b"] = true ∧
  ∃ m out, MultiSequenceSearch_init [bytes "a"; bytes "ab"; bytes "b"] = Some m ∧
    search m (bytes "cab") = Some out ∧
    ∀ j s, (j, s) ∈ out ↔
      s ∈ [bytes "a"; bytes "ab"; bytes "b"] ∧ s ≠ [] ∧ ends_at (bytes "cab") j s.
Proof.
  split; [reflexivity|].
  apply (search_exact_when_built_up [bytes "a"; bytes "ab"; bytes "b"] (bytes "cab")).
  reflexivity.
Defined.
Lemma depth_lt h i : WF h → i < length h → depth h i ≤ i.
Proof.
  intros Hwf. induction (lt_wf i) as [i _ IH]. intros Hi.
  destruct (decide (i = 0)) as [->|Hi0]; [by rewrite (depth_root h Hwf)|].
  destruct (lookup_lt_is_Some_2 _ _ Hi) as [nd Hnd].
  destruct (wf_up h Hwf i nd Hnd Hi0) as (p & b & pn & Hp & Hb & Hlt & Hpn & Hg).
  rewrite (depth_child h Hwf i nd p Hnd Hp).
  apply lookup_lt_Some in Hpn. specialize (IH p Hlt Hpn). lia.
Qed.

Lemma mapM_concat_spec {A B} (f : A → option (list B)) (Q : A → B → Prop) l :
  (∀ x, x ∈ l → ∃ y, f x = Some y ∧ ∀ s, s ∈ y ↔ Q x s) →
  ∃ k, mapM f l = Some k ∧ ∀ s, s ∈ concat k ↔ ∃ x, x ∈ l ∧ Q x s.
Proof.
  induction l as [|a l IH]; intros H.
  - exists []. split; [done|]. intros s. simpl. split; [by intros ?%elem_of_nil|].
    by intros (x & ?%elem_of_nil & _).
  - destruct (H a) as (y & Hy & Hys); [by left|].
    destruct IH as (k & Hk & Hks); [intros x Hx; apply H; by right|].
    exists (y :: k). simpl. rewrite Hy. simpl. rewrite Hk. simpl.
    split; [done|]. intros s. rewrite elem_of_app, Hys, Hks. split.
    + intros [?|(x & ? & ?)]; [exists a; split; [by left|done]|].
      exists x. split; [by right|done].
    + intros (x & [->|Hx]%elem_of_cons & HQ); [by left|right]. by exists x.
Qed.

Lemma find_prefix_fuel_spec h : WF h → ∀ fuel n p,
  n < length h → length h ≤ fuel + depth h n →
  ∃ out, find_prefix_fuel fuel h n p = Some out ∧
    ∀ s, s ∈ out ↔
      ∃ x nd, h !! x = Some nd ∧ s ∈ _sources nd ∧
              (path h n ++ p) `prefix_of` path h x.
Proof.
  intros Hwf. induction fuel as [|fuel IH]; intros n p Hn Hfuel.
  { pose proof (depth_lt h n Hwf Hn). lia. }
  destruct (lookup_lt_is_Some_2 _ _ Hn) as [nd Hnd].
  simpl. rewrite Hnd. simpl. destruct p as [|first remainder].
  - destruct (mapM_concat_spec (λ child, find_prefix_fuel fuel h child [])
                (λ c s, ∃ x ndx, h !! x = Some ndx ∧ s ∈ _sources ndx ∧
                                 path h c `prefix_of` path h x)
                (_children nd).*2) as (below & -> & Hbelow).
    { intros c Hc.
      destruct (child_elem h Hwf n nd c Hnd Hc) as (b & ndc & Hb & Hndc & Hpc & _).
      destruct (IH c []) as (out & Hout & Hspec).
      - by apply lookup_lt_Some in Hndc.
      - rewrite (depth_child h Hwf c ndc n Hndc Hpc). lia.
      - exists out. split; [done|]. intros s. rewrite Hspec.
        by rewrite app_nil_r. }
    simpl. eexists. split; [done|]. intros s.
    rewrite elem_of_app, Hbelow, app_nil_r. split.
    + intros [Hs|(c & Hc & x & ndx & Hx & Hs & Hpre)]; [by exists n, nd|].
      exists x, ndx. split_and!; [done..|].
      destruct (child_elem h Hwf n nd c Hnd Hc) as (b & ndc & Hb & _).
      destruct (child_path h Hwf n nd b c Hnd Hb) as [_ Hpc].
      etrans; [|done]. rewrite Hpc. by exists [b].
    + intros (x & ndx & Hx & Hs & [r Hr]).
      apply lookup_lt_Some in Hx as Hxl.
      destruct r as [|b r].
      * left. rewrite app_nil_r in Hr.
        assert (x = n) as -> by by apply (path_inj h Hwf).
        by simplify_eq.
      * right.
        assert (in_trie h (path h n ++ [b])) as Hin.
        { apply (in_trie_prefix_of h (path h x)); [by apply in_trie_path|].
          rewrite Hr. exists r. by rewrite <- app_assoc. }
        destruct (in_trie_snoc h Hwf n nd b Hnd Hin) as [c Hc].
        destruct (child_path h Hwf n nd b c Hnd Hc) as [_ Hpc].
        exists c. split.
        -- apply list_elem_of_fmap. exists (b, c). split; [done|].
           by apply dict_get_elem.
        -- exists x, ndx. split_and!; [done..|]. rewrite Hpc, Hr.
           exists r. by rewrite <- app_assoc.
  - destruct (contains nd (Some first)) eqn:Hc.
    + apply contains_Some in Hc as [c Hc]. rewrite Hc. simpl.
      destruct (child_path h Hwf n nd first c Hnd Hc) as [Hcl Hpc].
      destruct (IH c remainder Hcl) as (out & Hout & Hspec).
      { unfold depth in *. rewrite Hpc, length_app. simpl. lia. }
      exists out. split; [done|]. intros s. rewrite Hspec, Hpc.
      by rewrite <- app_assoc.
    + apply contains_false in Hc. exists []. split; [done|]. intros s.
      split; [by intros ?%elem_of_nil|]. intros (x & ndx & Hx & _ & Hpre).
      exfalso. apply lookup_lt_Some in Hx.
      assert (in_trie h (path h n ++ [first])) as Hin.
      { apply (in_trie_prefix_of h (path h x)); [by apply in_trie_path|].
        etrans; [|done]. exists remainder. by rewrite <- app_assoc. }
      destruct (in_trie_snoc h Hwf n nd first Hnd Hin) as [c' Hc']. congruence.
Qed.

(** X9: [find_prefix(p)] on a trie built by [add] calls returns, and yields
    exactly the sources recorded on the nodes whose path extends [p]; each of
    them is one of the sequences added and starts with [p]. *)
Theorem find_prefix_yields_sources_below (seqs : list bseq) (p : bseq) :
  ∃ h out, add_all [new_root] 0 seqs = Some h ∧ find_prefix h 0 p = Some out ∧
    (∀ s, s ∈ out ↔
       ∃ x nd, h !! x = Some nd ∧ s ∈ _sources nd ∧ p `prefix_of` path h x) ∧
    (∀ s, s ∈ out → s ∈ seqs ∧ p `prefix_of` s).
Proof.
  destruct (add_all_sources seqs [new_root] [] WF_new_root) as (h & Ha & Hwf & Hinv).
  { intros [|[|x]] nd s Hx Hs; simplify_eq/=. by apply elem_of_nil in Hs. }
  destruct (find_prefix_fuel_spec h Hwf (length h) 0 p (root_lt h Hwf))
    as (out & Hout & Hspec); [lia|].
  rewrite (path_root h Hwf) in Hspec. simpl in Hspec.
  exists h, out. split_and!; [done..|].
  intros s (x & nd & Hx & Hs & Hp)%Hspec.
  destruct (Hinv x nd s Hx Hs) as [Hps Hin]. split; [done|]. by etrans.
Qed.

(** *** [finalize] again *)

Lemma lps_unique h w (s s' : bseq) : lps h w s → lps h w s' → s = s'.
Proof.
  intros (Hs & Hne & Hin & Hmax) (Hs' & Hne' & Hin' & Hmax').
  pose proof (Hmax s' Hs' Hne' Hin'). pose proof (Hmax' s Hs Hne Hin).
  apply suffix_length_eq; [|done]. by apply (suffix_of_both _ _ w).
Qed.

Lemma erase_fall_eq h1 h2 :
  erase_fall <$> h1 = erase_fall <$> h2 ↔
  same_shape h1 h2 ∧ _sources <$> h1 = _sources <$> h2.
Proof.
  unfold same_shape. split.
  - intros E. split; apply list_eq; intros i; apply (f_equal (.!! i)) in E;
      rewrite !list_lookup_fmap in *;
      destruct (h1 !! i) as [[]|], (h2 !! i) as [[]|]; by simplify_eq/=.
  - intros [Hs Hsrc]. apply list_eq. intros i. rewrite !list_lookup_fmap.
    apply (f_equal (.!! i)) in Hs. apply (f_equal (.!! i)) in Hsrc.
    rewrite !list_lookup_fmap in Hs. rewrite !list_lookup_fmap in Hsrc.
    destruct (h1 !! i) as [[]|], (h2 !! i) as [[]|]; by simplify_eq/=.
Qed.

Lemma finalized_unique h1 h2 :
  finalized h1 → finalized h2 → same_shape h1 h2 →
  _sources <$> h1 = _sources <$> h2 → h1 = h2.
Proof.
  intros (Hwf1 & (r1 & Hr1 & Hf1) & Hok1) (Hwf2 & (r2 & Hr2 & Hf2) & Hok2) Hs Hsrc.
  pose proof (same_shape_length _ _ Hs) as Hlen.
  apply list_eq. intros i.
  destruct (h1 !! i) as [nd1|] eqn:H1; [|by rewrite (same_shape_lookup_None h1 h2)].
  destruct (same_shape_lookup _ _ _ _ Hs H1) as (nd2 & H2 & Hshape).
  destruct (sources_lookup h1 h2 i nd1 (eq_sym Hsrc) H1) as (nd2' & H2' & Hsources).
  rewrite H2 in H2'. injection H2' as <-. rewrite H2. f_equal.
  apply shape_fields in Hshape as (Hv & Hc & Hp).
  assert (_fall nd1 = _fall nd2) as Hfall.
  { destruct (decide (i = 0)) as [->|Hi0]; [simplify_eq; congruence|].
    apply lookup_lt_Some in H1 as Hi1. apply lookup_lt_Some in H2 as Hi2.
    destruct (Hok1 i Hi1 Hi0) as (nd & f1 & ? & Hfa1 & Hfl1 & Hlps1).
    destruct (Hok2 i Hi2 Hi0) as (nd' & f2 & ? & Hfa2 & Hfl2 & Hlps2).
    simplify_eq. rewrite Hfa1, Hfa2. f_equal.
    apply (lps_shape h2 h1) in Hlps2; [|done].
    rewrite <- !(path_shape h1 h2) in Hlps2 by done.
    apply (path_inj h1 Hwf1); [done|lia|]. by apply (lps_unique h1 (path h1 i)). }
  destruct nd1, nd2. simpl in *. by subst.
Qed.
Lemma add_child_erase (h : heap) self b h' c :
  _add_child h self b = Some (h', c) →
  _add_child (erase_fall <$> h) self b = Some (erase_fall <$> h', c).
Proof.
  unfold _add_child. rewrite list_lookup_fmap, length_fmap.
  destruct (h !! self) as [n|]; simpl; [|done].
  intros [= <- <-]. by rewrite list_fmap_insert, fmap_app.
Qed.

Lemma add_walk_erase seq : ∀ (h : heap) node h' c,
  _add_walk h node seq = Some (h', c) →
  _add_walk (erase_fall <$> h) node seq = Some (erase_fall <$> h', c).
Proof.
  induction seq as [|first seq IH]; intros h node h' c; simpl.
  - by intros [= <- <-].
  - rewrite list_lookup_fmap. destruct (h !! node) as [n|]; simpl; [|done].
    change (contains (erase_fall n) (Some first)) with (contains n (Some first)).
    change (getitem (erase_fall n) first) with (getitem n first).
    destruct (contains n (Some first)).
    + destruct (getitem n first) as [k|]; simpl; [apply IH|done].
    + apply add_child_erase.
Qed.

Lemma add_erase (h : heap) seq h' c :
  add h 0 seq = Some (h', c) →
  add (erase_fall <$> h) 0 seq = Some (erase_fall <$> h', c).
Proof.
  unfold add, _add.
  destruct (_add_walk h 0 seq) as [[h1 n]|] eqn:Hw; simpl; [|done].
  rewrite (add_walk_erase _ _ _ _ _ Hw). simpl. rewrite list_lookup_fmap.
  destruct (h1 !! n) as [nd|]; simpl; [|done].
  intros [= <- <-]. by rewrite list_fmap_insert.
Qed.

Lemma add_all_erase seqs : ∀ (h h' : heap),
  add_all h 0 seqs = Some h' →
  add_all (erase_fall <$> h) 0 seqs = Some (erase_fall <$> h').
Proof.
  induction seqs as [|seq seqs IH]; intros h h'; simpl; [by intros [= <-]|].
  destruct (add h 0 seq) as [[h1 c]|] eqn:Ha; simpl; [|done].
  rewrite (add_erase _ _ _ _ Ha). simpl. apply IH.
Qed.

Lemma add_all_app s1 s2 : ∀ (h : heap),
  add_all h 0 (s1 ++ s2) = add_all h 0 s1 ≫= λ h1, add_all h1 0 s2.
Proof.
  induction s1 as [|seq s1 IH]; intros h; simpl; [done|].
  destruct (add h 0 seq) as [[h1 c]|]; simpl; [apply IH|done].
Qed.

(** X10: [finalize] does not depend on failure links left by an earlier call:
    adding further sequences to a finalized trie and calling [finalize] again
    gives the very heap [MultiSequenceSearch] builds from all the sequences
    at once (with no further sequence: calling [finalize] twice changes
    nothing). *)
Theorem finalize_again_after_more_adds (seqs more : list bseq) :
  ∃ m h2 h2', MultiSequenceSearch_init seqs = Some m ∧
    add_all (nodes m) (trie m) more = Some h2 ∧
    finalize h2 (trie m) = Some h2' ∧
    MultiSequenceSearch_init (seqs ++ more) = Some (mkMSS h2' (trie m)).
Proof.
  destruct (init_spec seqs)
    as (h & h' & Ha & Hf & Hm & Hwf & Hsn & Hfin & Hsn' & Hsh).
  destruct (finalize_spec h Hwf) as (h'' & Hf' & _ & _ & _ & Hsrc).
  rewrite Hf in Hf'. injection Hf' as <-.
  pose proof Hfin as (Hwf' & _ & _).
  destruct (add_all_spec h' more Hwf' Hsn') as (h2 & Ha2 & Hwf2 & _).
  destruct (add_all_spec h more Hwf Hsn) as (hA & HaA & HwfA & _).
  destruct (finalize_spec h2 Hwf2) as (h2' & Hf2 & Hs2 & Hroot2 & Hok2 & Hsrc2).
  destruct (finalize_spec hA HwfA) as (hA' & HfA & HsA & HrootA & HokA & HsrcA).
  assert (same_shape hA h2 ∧ _sources <$> hA = _sources <$> h2) as [HsAB HsrcAB].
  { apply erase_fall_eq.
    apply add_all_erase in Ha2, HaA.
    assert (erase_fall <$> h = erase_fall <$> h') as E by by apply erase_fall_eq.
    rewrite E in HaA. congruence. }
  assert (hA' = h2') as ->.
  { apply finalized_unique.
    - split_and!; [by apply (WF_shape hA)|done..].
    - split_and!; [by apply (WF_shape h2)|done..].
    - apply (same_shape_trans _ hA); [by apply same_shape_sym|].
      by apply (same_shape_trans _ h2).
    - congruence. }
  exists (mkMSS h' 0), h2, h2'. simpl. split_and!; [done..|].
  unfold MultiSequenceSearch_init. rewrite add_all_app, Ha. simpl.
  rewrite HaA. simpl. by rewrite HfA.
Qed.

Lemma add_all_nodes_hold_sources seqs : ∀ h,
  WF h →
  (∀ x nd, h !! x = Some nd → x ≠ 0 → _sources nd ≠ []) →
  ∃ h', add_all h 0 seqs = Some h' ∧ WF h' ∧
    ∀ x nd, h' !! x = Some nd → x ≠ 0 → _sources nd ≠ [].
Proof.
  induction seqs as [|seq seqs IH]; intros h Hwf Hinv; simpl; [by exists h|].
  destruct (add_full_spec h seq Hwf)
    as (h1 & c & q & nd' & -> & Hwf1 & _ & _ & _ & _ & _ & Hc & Hsrc & Hoth & _).
  simpl. apply IH; [done|]. intros x nd Hx Hx0.
  destruct (decide (x = c)) as [->|Hne].
  - rewrite Hc in Hx. injection Hx as <-. intros E.
    assert (seq ∈ _sources nd') as Hin by (apply Hsrc; by left).
    rewrite E in Hin. by apply elem_of_nil in Hin.
  - destruct (sources_lookup_at _ _ _ _ (Hoth x Hne) Hx) as (nd0 & Hx0' & E).
    rewrite <- E. by apply (Hinv x nd0).
Qed.

(** X11: on a trie built by [add] calls, for every non-empty sequence,
    [s in root] and [root.find(s)] return the same value, and it is [True]
    exactly when the sequence labels a path from the root. *)
Theorem contains_agrees_with_find (seqs : list bseq) (s : bseq) :
  s ≠ [] →
  ∃ h b, add_all [new_root] 0 seqs = Some h ∧
    contains_bytes h 0 s = Some b ∧ find h 0 s = Some b ∧
    (b = true ↔ in_trie h s).
Proof.
  intros Hs.
  destruct (add_all_nodes_hold_sources seqs [new_root] WF_new_root)
    as (h & Ha & Hwf & Hinv).
  { by intros [|[|x]] nd Hx Hx0; simplify_eq/=. }
  destruct (find_walk h s Hwf 0 (root_lt h Hwf)) as (b & Hb & Hiff).
  assert (b = true ↔ in_trie h s) as Hpath.
  { rewrite Hiff. split; [intros (x & _ & Hx & _); by exists x|].
    intros [x Hx]. destruct (walk_path_eq h Hwf _ _ Hx) as [-> Hxl].
    destruct (lookup_lt_is_Some_2 _ _ Hxl) as [nd Hnd].
    exists x, nd. split_and!; [done..|]. apply (Hinv x nd Hnd).
    intros ->. by rewrite (path_root h Hwf) in Hs. }
  exists h, b. split_and!; [done| |done..].
  unfold contains_bytes. destruct (wf_root h Hwf) as (r & Hr & _).
  rewrite Hr. simpl. destruct s as [|first [|second s]]; [done| |done].
  rewrite <- Hb. simpl. rewrite Hr. simpl. unfold contains.
  destruct (bool_decide _) eqn:Hc; [|done].
  apply bool_decide_eq_true in Hc as [k Hk]. unfold getitem. rewrite Hk. simpl.
  destruct (wf_down h Hwf 0 r first k Hr Hk) as (ndk & Hndk & _).
  rewrite Hndk. simpl. f_equal. symmetry. apply bool_decide_eq_true.
  assert (_sources ndk ≠ []) as Hne.
  { apply (Hinv k ndk Hndk). intros ->.
    destruct (wf_root h Hwf) as (r' & Hr' & Hp & _).
    destruct (wf_down h Hwf 0 r first 0 Hr Hk) as (nd0 & ? & ? & _).
    by simplify_eq. }
  destruct (_sources ndk); [done|simpl; lia].
Qed.

Lemma contains_agrees_with_find_witness :
  bytes "a" ≠ [] ∧
  ∃ h b, add_all [new_root] 0 [bytes "ab"] = Some h ∧
    contains_bytes h 0 (bytes "a") = Some b ∧ find h 0 (bytes "a") = Some b ∧
    (b = true ↔ in_trie h (bytes "a")).
Proof.
  split; [done|].
  apply (contains_agrees_with_find [bytes "ab"] (bytes "a")). done.
Defined.

End SearchFacts.

(** ** Facts about polyfile.py *)
Module PolyfileFacts.
Import Polyfile.
#[local] Open Scope Z_scope.

(** *** The match tree: offsets and lengths *)

Lemma max_of_is_max e es : is_max (max_of e es) (e :: es).
Proof.
  unfold max_of. induction es as [|x es [Hin Hle]]; simpl.
  - split; [left|]. by intros x ->%list_elem_of_singleton.
  - split.
    + destruct (Z.max_spec x (foldr Z.max e es)) as [[_ ->]|[_ ->]].
      * apply elem_of_cons in Hin as [->|Hin]; [left|right; by right].
      * right. left.
    + intros y [->|[->|Hy]%elem_of_cons]%elem_of_cons.
      * specialize (Hle e ltac:(left)). lia.
      * lia.
      * specialize (Hle y ltac:(by right)). lia.
Qed.

Section store.
Variable guess_extension : string → option string.

Lemma Match_init_spec (st : store) a st' i e :
  WFst st → Match_init guess_extension st a = Some (st', i, e) →
  WFst st' ∧ i = length st ∧ length st' = S (length st).
Proof.
  intros Hwf. unfold Match_init.
  assert (∀ st1 o,
    length st1 = length st →
    (∀ j m, st1 !! j = Some m →
       (∀ p, _parent m = Some p → (p < j)%nat) ∧
       (∀ c, c ∈ _children m → (j < c ∧ c < S (length st))%nat)) →
    (∀ p, _parent o = Some p → (p < length st)%nat) → _children o = [] →
    WFst (st1 ++ [o]) ∧ length st = length st ∧
    length (st1 ++ [o]) = S (length st)) as Hfin.
  { intros st1 o Hlen H1 Hp Hc. split; [|rewrite length_app; simpl; lia].
    intros j m [[Hj Hm]|[-> <-]]%lookup_snoc_Some.
    - rewrite length_app. simpl. rewrite Hlen, Nat.add_1_r. by apply H1.
    - rewrite Hc, Hlen. split; [done|]. by intros c ?%elem_of_nil. }
  assert (∀ j m, st !! j = Some m →
       (∀ p, _parent m = Some p → (p < j)%nat) ∧
       (∀ c, c ∈ _children m → (j < c ∧ c < S (length st))%nat)) as Hold.
  { intros j m Hj. destruct (Hwf j m Hj) as [Hup Hdown]. split; [done|].
    intros c Hc. specialize (Hdown c Hc). lia. }
  destruct (a_parent a) as [p|] eqn:Hpar; simpl.
  - destruct (st !! p) as [pm|] eqn:Hpm; simpl; [|done].
    apply lookup_lt_Some in Hpm as Hpl.
    assert (∀ j m, <[p:=append_child pm (length st)]> st !! j = Some m →
       (∀ p, _parent m = Some p → (p < j)%nat) ∧
       (∀ c, c ∈ _children m → (j < c ∧ c < S (length st))%nat)) as Hnew.
    { intros j m [(<- & <- & _)|[Hne Hj]]%list_lookup_insert_Some; [|by apply Hold].
      destruct (Hold p pm Hpm) as [Hup Hdown]. split; [done|]. simpl.
      intros c [Hc|Hc%list_elem_of_singleton]%elem_of_app; [by apply Hdown|lia]. }
    destruct (match a_matcher a with Some x => Some x | None => matcher pm end);
      intros [= <- <- <-]; (apply Hfin;
        [by rewrite length_insert|done|by intros ? [= <-]|done]).
  - destruct (a_matcher a); intros [= <- <- <-]; by apply Hfin.
Qed.

Lemma WFst_nil : WFst [].
Proof. by intros i m Hi. Qed.

Lemma construct_WFst calls st st' :
  WFst st → construct guess_extension calls st = Some st' → WFst st'.
Proof.
  revert st. induction calls as [|a calls IH]; intros st Hwf; simpl.
  - by intros [= <-].
  - destruct (Match_init guess_extension st a) as [[[st1 i] e]|] eqn:Hi;
      simpl; [|done].
    apply IH. by destruct (Match_init_spec _ _ _ _ _ Hwf Hi).
Qed.
End store.

Section wfst.
Context (st : store) (Hwf : WFst st).

Lemma offset_fuel_enough f f' i :
  (i < f)%nat → (i < f')%nat → offset_fuel f st i = offset_fuel f' st i.
Proof.
  revert f' i. induction f as [|f IH]; intros f' i Hf Hf'; [lia|].
  destruct f' as [|f']; [lia|]. simpl.
  destruct (st !! i) as [m|] eqn:Hm; simpl; [|done].
  destruct (_parent m) as [p|] eqn:Hp; [|done].
  destruct (Hwf i m Hm) as [Hup _]. specialize (Hup p Hp).
  by rewrite (IH f' p) by lia.
Qed.

Lemma Match_offset_eq i m :
  st !! i = Some m →
  Match_offset st i =
  match _parent m with
  | Some p => po ← Match_offset st p; Some (po + _offset m)
  | None => Some (_offset m)
  end.
Proof.
  intros Hm. unfold Match_offset at 1. simpl. rewrite Hm. simpl.
  destruct (_parent m) as [p|] eqn:Hp; [|done].
  destruct (Hwf i m Hm) as [Hup _]. specialize (Hup p Hp).
  by rewrite (offset_fuel_enough i (S p) p) by lia.
Qed.

Lemma Match_offset_total i : (i < length st)%nat → is_Some (Match_offset st i).
Proof.
  induction (lt_wf i) as [i _ IH]. intros Hi.
  destruct (lookup_lt_is_Some_2 _ _ Hi) as [m Hm].
  rewrite (Match_offset_eq i m Hm).
  destruct (_parent m) as [p|] eqn:Hp; [|done].
  destruct (Hwf i m Hm) as [Hup _]. specialize (Hup p Hp).
  destruct (IH p) as [po ->]; [done|lia|]. done.
Qed.

Lemma length_fuel_enough f f' i :
  (length st - i ≤ f)%nat → (length st - i ≤ f')%nat → (i < length st)%nat →
  length_fuel f st i = length_fuel f' st i.
Proof.
  revert f' i. induction f as [|f IH]; intros f' i Hf Hf' Hi; [lia|].
  destruct f' as [|f']; [lia|]. simpl.
  destruct (st !! i) as [m|] eqn:Hm; simpl; [|done].
  destruct (_length m); [done|].
  destruct (Hwf i m Hm) as [_ Hdown].
  rewrite (Forall_mapM_ext _ (λ c, o ← Match_offset st c;
                                  l ← length_fuel f' st c; Some (o + l))); [done|].
  apply Forall_forall. intros c Hc. specialize (Hdown c Hc).
  by rewrite (IH f' c) by lia.
Qed.

Lemma Match_length_eq i m :
  st !! i = Some m →
  Match_length st i =
  match _length m with
  | Some l => Some l
  | None =>
      ends ← mapM (λ c, o ← Match_offset st c; l ← Match_length st c;
                        Some (o + l)) (_children m);
      match ends with
      | [] => Some 0
      | e :: es => o ← Match_offset st i; Some (max_of e es - o)
      end
  end.
Proof.
  intros Hm. apply lookup_lt_Some in Hm as Hi. unfold Match_length at 1.
  destruct (length st - i)%nat as [|f] eqn:Hf; [lia|]. simpl. rewrite Hm. simpl.
  destruct (_length m); [done|].
  destruct (Hwf i m Hm) as [_ Hdown].
  rewrite (Forall_mapM_ext _ (λ c, o ← Match_offset st c;
                                  l ← Match_length st c; Some (o + l))); [done|].
  apply Forall_forall. intros c Hc. specialize (Hdown c Hc).
  unfold Match_length. by rewrite (length_fuel_enough f (length st - c) c) by lia.
Qed.

Lemma Match_length_total i : (i < length st)%nat → is_Some (Match_length st i).
Proof.
  remember (length st - i)%nat as k eqn:Hk. revert i Hk.
  induction (lt_wf k) as [k _ IH]. intros i -> Hi.
  destruct (lookup_lt_is_Some_2 _ _ Hi) as [m Hm].
  rewrite (Match_length_eq i m Hm). destruct (_length m); [done|].
  destruct (Hwf i m Hm) as [_ Hdown].
  destruct (mapM_is_Some_2 (λ c, o ← Match_offset st c; l ← Match_length st c;
                                 Some (o + l)) (_children m)) as [ends ->].
  { apply Forall_forall. intros c Hc. specialize (Hdown c Hc). simpl.
    destruct (Match_offset_total c) as [o ->]; [lia|]. simpl.
    destruct (IH (length st - c)%nat ltac:(lia) c eq_refl) as [l ->]; [lia|].
    done. }
  simpl. destruct ends; [done|].
  destruct (Match_offset_total i Hi) as [o ->]. done.
Qed.
End wfst.

(** C8: in every store built by constructor calls, every node has an absolute
    offset, equal to its relative offset when it has no parent and to the
    absolute offset of its parent plus its relative offset otherwise; and it
    has a length, equal to the explicit length when one was given, to 0 when
    there is none and no child, and otherwise to the greatest of the
    children's absolute offset plus length, minus the absolute offset of the
    node.  In the tree of the example the root has absolute offset 100 and
    length 23. *)
Theorem C8_offset_length :
  (∀ guess_extension calls st i m,
     construct guess_extension calls [] = Some st → st !! i = Some m →
     (∃ o, Match_offset st i = Some o ∧
           match _parent m with
           | Some p => ∃ po, Match_offset st p = Some po ∧ o = po + _offset m
           | None => o = _offset m
           end) ∧
     (∃ l, Match_length st i = Some l ∧
           match _length m with
           | Some explicit => l = explicit
           | None =>
               ∃ ends,
                 Forall2 (λ c e, ∃ oc lc, Match_offset st c = Some oc ∧
                                          Match_length st c = Some lc ∧
                                          e = oc + lc) (_children m) ends ∧
                 match ends with
                 | [] => l = 0
                 | _ => ∃ o v, Match_offset st i = Some o ∧ is_max v ends ∧
                               l = v - o
                 end
           end)) ∧
  (∃ st, construct (λ _, None) example_tree [] = Some st ∧
         Match_offset st 0 = Some 100 ∧ Match_length st 0 = Some 23).
Proof.
  split; [|eexists; split_and!; vm_compute; reflexivity].
  intros ge calls st i m Hc Hm.
  pose proof (construct_WFst ge calls [] st WFst_nil Hc) as Hwf.
  apply lookup_lt_Some in Hm as Hi. split.
  - destruct (Match_offset_total st Hwf i Hi) as [o Ho]. exists o. split; [done|].
    rewrite (Match_offset_eq st Hwf i m Hm) in Ho.
    destruct (_parent m) as [p|]; [|by simplify_eq].
    destruct (Match_offset st p) as [po|]; simplify_eq/=. by exists po.
  - destruct (Match_length_total st Hwf i Hi) as [l Hl]. exists l. split; [done|].
    rewrite (Match_length_eq st Hwf i m Hm) in Hl.
    destruct (_length m); [by simplify_eq|].
    destruct (mapM _ (_children m)) as [ends|] eqn:Hends; simplify_eq/=.
    exists ends. split.
    + apply mapM_Some_1 in Hends. eapply Forall2_impl; [exact Hends|].
      intros c e He. simpl in He.
      destruct (Match_offset st c) as [oc|]; simplify_eq/=.
      destruct (Match_length st c) as [lc|]; simplify_eq/=. by exists oc, lc.
    + destruct ends as [|e es]; [by simplify_eq|].
      destruct (Match_offset st i) as [o|]; simplify_eq/=.
      exists o, (max_of e es). split_and!; [done|apply max_of_is_max|done].
Qed.

(** The instance of C8 at the root of the example tree. *)
Lemma C8_offset_length_witness :
  ∃ st m, construct (λ _, None) example_tree [] = Some st ∧ st !! 0%nat = Some m ∧
    (∃ o, Match_offset st 0 = Some o ∧
          match _parent m with
          | Some p => ∃ po, Match_offset st p = Some po ∧ o = po + _offset m
          | None => o = _offset m
          end).
Proof.
  eexists _, _. split; [vm_compute; reflexivity|]. split; [reflexivity|].
  eapply (proj1 C8_offset_length (λ _, None) example_tree); reflexivity.
Defined.

(** *** The registry *)

Lemma set_add_idempotent x s : set_add x (set_add x s) = set_add x s.
Proof.
  unfold set_add. destruct (existsb _ s) eqn:He.
  - by rewrite He.
  - rewrite existsb_app, He. unfold py_eq. simpl.
    by rewrite !bool_decide_true by done.
Qed.

(** Registering the same [Parser] object twice under a type leaves the set
    of that type as after the first registration. *)
Lemma register_instance_idempotent p t g :
  let g1 := (register_parser [t] (IsParser p) g).1 in
  let g2 := (register_parser [t] (IsParser p) g1).1 in
  parsers_of (PARSERS g2) t = parsers_of (PARSERS g1) t.
Proof.
  simpl. unfold parsers_of. rewrite !lookup_insert_eq. simpl.
  apply set_add_idempotent.
Qed.

(** C4 (the code departs from the claim): a plain function registered twice
    under "application/pdf" is wrapped twice; the two wrappers hash alike but
    are not equal, and the set of the type holds both. *)
Theorem C4_function_registered_twice :
  ∃ g1 w1 g2 w2,
    register_parser ["application/pdf"] (IsFunction 5 silent) (mkRegistry ∅ 0)
      = (g1, w1) ∧
    register_parser ["application/pdf"] (IsFunction 5 silent) g1 = (g2, w2) ∧
    parsers_of (PARSERS g2) "application/pdf" = [w1; w2] ∧
    w1 = ParserFunctionWrapper 0 5 silent ∧
    w2 = ParserFunctionWrapper 1 5 silent ∧
    py_hash w1 = py_hash w2 ∧ py_eq w1 w2 = false.
Proof. do 4 eexists. split_and!; vm_compute; reflexivity. Qed.

(** *** Rejected candidates *)

(** X12: a candidate built below a parent and rejected by its parser at once
    is not yielded, and is left at the end of the children of the parent. *)
Lemma rejected_candidate_trace guess_extension recur M mimetype match_obj
    data q pm offset len ext p (st : store) :
  st !! q = Some pm →
  call p (window data offset len) = mkScript [] (RaiseExn InvalidMatch) →
  ∃ st' pm',
    try_parser guess_extension recur M mimetype match_obj data (Some q)
               offset len ext p st = Some (mkRun st' [] [] None) ∧
    st' !! q = Some pm' ∧ _children pm' = _children pm ++ [length st].
Proof.
  intros Hq Hcall. unfold try_parser, Match_init. simpl. rewrite Hq. simpl.
  unfold run_parser. rewrite Hcall. simpl. eexists _, _. split; [done|].
  apply lookup_lt_Some in Hq as Hl.
  rewrite lookup_app_l by (by rewrite length_insert).
  by rewrite list_lookup_insert_eq.
Qed.

(** C5 (the code departs from the claim): on the bytes "AB" the parser of
    "x/outer" matches the embedded "B" below its candidate, and the parser of
    "x/inner" rejects there before yielding.  The rejected candidate, at
    address 1, is never yielded, but it stays among the children of the node
    at address 0, which is yielded. *)
Theorem C5_rejected_candidate_stays_attached :
  ∃ r m0 m1,
    match_ no_guess nested_parsers 2 nested_matcher (Search.bytes "AB") None []
      = Some r ∧
    r_exn r = None ∧ r_out r = [0%nat] ∧
    r_store r !! 0%nat = Some m0 ∧ _children m0 = [1%nat] ∧
    r_store r !! 1%nat = Some m1 ∧ name m1 = "x/inner" ∧
    _parent m1 = Some 0%nat ∧ _children m1 = [].
Proof. do 3 eexists. split_and!; vm_compute; reflexivity. Qed.

(** *** One expansion per MIME type and window *)

Section dedup.
Context (guess_extension : string → option string)
        (registered : gmap string (list Parser))
        (recur : list byte → option nat → store → option run)
        (M : Matcher) (data : list byte) (parent : option nat).

Abbreviation results_loop :=
  (match_results guess_extension registered recur M data parent).
Abbreviation groups_loop :=
  (match_groups guess_extension registered recur M data parent).



End dedup.



(** *** Faults after the first child *)

Section faults.
Context (guess_extension : string → option string)
        (registered : gmap string (list Parser))
        (recur : list byte → option nat → store → option run)
        (M : Matcher).


End faults.

(** *** Faults after the first child cannot be observed *)

Lemma osim_refl o : osim o o.
Proof. done. Qed.




Section sim.
Context (guess_extension : string → option string)
        (registered : gmap string (list Parser))
        (recur recur' : list byte → option nat → store → option run)
        (M : Matcher)
        (Hrecur : ∀ d q st, osim (recur d q st) (recur' d q st)).









End sim.




(** *** No cap on depth or node count *)

Lemma window_full (data : list byte) :
  window data 0 (Z.of_nat (length data) - 0) = data.
Proof.
  unfold window. rewrite Z.sub_0_r, Nat2Z.id. simpl. by apply take_ge.
Qed.







(** *** The registry, in general *)

Lemma set_add_member x s :
  (∀ q, q ∈ s → q ∈ set_add x s) ∧
  ∃ y, y ∈ set_add x s ∧ id_of y = id_of x ∧ py_hash y = py_hash x.
Proof.
  unfold set_add. destruct (existsb _ s) eqn:He.
  - split; [done|]. apply existsb_exists in He as (y & Hy & Hc).
    apply andb_prop in Hc as [Hh He]. exists y.
    apply bool_decide_eq_true in Hh. apply bool_decide_eq_true in He.
    split_and!; [by apply list_elem_of_In|done..].
  - split; [intros q Hq; apply elem_of_app; by left|].
    exists x. split_and!; [|done..]. apply elem_of_app. right. by left.
Qed.

Lemma foldl_register_lookup p fts : ∀ (P : gmap string (list Parser)) ft,
  foldl (λ P ft, <[ft := set_add p (parsers_of P ft)]> P) P fts !! ft
  = if bool_decide (ft ∈ fts) then Some (set_add p (parsers_of P ft)) else P !! ft.
Proof.
  induction fts as [|a fts IH]; intros P ft; simpl; [done|].
  rewrite IH. unfold parsers_of at 1.
  destruct (decide (a = ft)) as [->|Hne].
  - rewrite lookup_insert_eq. simpl. rewrite set_add_idempotent.
    rewrite (bool_decide_true (ft ∈ ft :: fts)) by by left.
    by destruct (bool_decide (ft ∈ fts)).
  - rewrite lookup_insert_ne by done.
    destruct (bool_decide (ft ∈ fts)) eqn:Hin.
    + apply bool_decide_eq_true in Hin.
      by rewrite (bool_decide_true (ft ∈ a :: fts)) by by right.
    + apply bool_decide_eq_false in Hin.
      rewrite (bool_decide_false (ft ∈ a :: fts)); [done|].
      by intros [?|?]%elem_of_cons.
Qed.

Lemma foldl_register_id p fts : ∀ (P : gmap string (list Parser)),
  (∀ ft, ft ∈ fts → ∃ l, P !! ft = Some l ∧ set_add p l = l) →
  foldl (λ P ft, <[ft := set_add p (parsers_of P ft)]> P) P fts = P.
Proof.
  induction fts as [|a fts IH]; intros P H; simpl; [done|].
  destruct (H a) as (l & Hl & Hs); [by left|].
  assert (parsers_of P a = l) as -> by (unfold parsers_of; by rewrite Hl).
  rewrite Hs, insert_id by done.
  apply IH. intros ft Hft. apply H. by right.
Qed.

(** X13: [register_parser] puts the parser (a function: its new wrapper) in
    the set of every file type it is given, also when a type is given more
    than once, leaves the set of every other type as it was and removes no
    entry; a member with the identity of the parser is in each set. *)
Theorem register_parser_adds_to_each_type filetypes parser g ft :
  ∃ g' p, register_parser filetypes parser g = (g', p) ∧
    parsers_of (PARSERS g') ft
    = (if bool_decide (ft ∈ filetypes)
       then set_add p (parsers_of (PARSERS g) ft)
       else parsers_of (PARSERS g) ft) ∧
    (∀ q, q ∈ parsers_of (PARSERS g) ft → q ∈ parsers_of (PARSERS g') ft) ∧
    (ft ∈ filetypes →
     ∃ y, y ∈ parsers_of (PARSERS g') ft ∧ id_of y = id_of p) ∧
    match parser with
    | IsParser q => p = q ∧ next_id g' = next_id g
    | IsFunction fa f =>
        p = ParserFunctionWrapper (next_id g) fa f ∧ next_id g' = S (next_id g)
    end.
Proof.
  unfold register_parser.
  set (pn := match parser with
            | IsParser p => (p, next_id g)
            | IsFunction fa f => (ParserFunctionWrapper (next_id g) fa f, S (next_id g))
            end).
  destruct pn as [p next] eqn:Hp. eexists _, p. split; [done|]. simpl.
  assert (parsers_of
            (foldl (λ P ft, <[ft := set_add p (parsers_of P ft)]> P) (PARSERS g)
                   filetypes) ft
          = if bool_decide (ft ∈ filetypes)
            then set_add p (parsers_of (PARSERS g) ft)
            else parsers_of (PARSERS g) ft) as Hlk.
  { unfold parsers_of at 1. rewrite foldl_register_lookup.
    by destruct (bool_decide (ft ∈ filetypes)). }
  rewrite Hlk. destruct (set_add_member p (parsers_of (PARSERS g) ft)) as [Hkeep Hin].
  split_and!; [done| | |].
  - intros q Hq. destruct (bool_decide (ft ∈ filetypes)); [by apply Hkeep|done].
  - intros Hft. rewrite bool_decide_true by done.
    destruct Hin as (y & ? & ? & _). by exists y.
  - by destruct parser; simplify_eq.
Qed.

(** X14: registering again, under the same file types, the [Parser] object a
    registration returned changes nothing in the registry. *)
Theorem register_returned_parser_again_changes_nothing filetypes parser g :
  ∃ g1 p1, register_parser filetypes parser g = (g1, p1) ∧
    register_parser filetypes (IsParser p1) g1 = (g1, p1).
Proof.
  unfold register_parser.
  destruct parser as [p|fa f]; simpl; eexists _, _; (split; [done|]);
    f_equal; f_equal; apply foldl_register_id; intros ft Hft;
    rewrite foldl_register_lookup, bool_decide_true by done;
    (eexists; split; [done|]); apply set_add_idempotent.
Qed.
(** *** What a constructor call does to the store *)

Lemma Match_init_effect guess_extension (st : store) a st' i e :
  Match_init guess_extension st a = Some (st', i, e) →
  i = length st ∧ length st' = S (length st) ∧
  (∀ p, a_parent a = Some p → (p < length st)%nat) ∧
  (∃ o, st' !! i = Some o ∧ _parent o = a_parent a ∧ _children o = [] ∧
        cls o = a_cls a ∧ name o = a_name a ∧ _offset o = a_relative_offset a ∧
        _length o = a_length a ∧ (e = None → is_Some (matcher o)) ∧
        (is_Some (a_matcher a) → e = None ∧ matcher o = a_matcher a)) ∧
  (∀ j m, st !! j = Some m →
     st' !! j = Some (if decide (a_parent a = Some j)
                      then append_child m i else m)).
Proof.
  unfold Match_init.
  destruct (a_parent a) as [p|] eqn:Hpar; simpl.
  - destruct (st !! p) as [pm|] eqn:Hpm; simpl; [|done].
    apply lookup_lt_Some in Hpm as Hpl.
    assert (∀ o j m, st !! j = Some m →
              (<[p:=append_child pm (length st)]> st ++ [o]) !! j
              = Some (if decide (Some p = Some j)
                      then append_child m (length st) else m)) as Hold.
    { intros o j m Hj. apply lookup_lt_Some in Hj as Hjl.
      rewrite lookup_app_l by by rewrite length_insert.
      destruct (decide (p = j)) as [->|Hne].
      - rewrite decide_True by done. rewrite list_lookup_insert_eq by done.
        by simplify_eq.
      - rewrite decide_False by congruence.
        by rewrite list_lookup_insert_ne. }
    destruct (a_matcher a) as [x|] eqn:Hmt; [|destruct (matcher pm) as [x|] eqn:Hmp];
      intros [= <- <- <-];
      (split_and!;
       [done
       |rewrite length_app, length_insert; simpl; lia
       |by intros ? [= <-]
       |eexists; split;
        [rewrite lookup_app_r, length_insert, Nat.sub_diag by
           (rewrite length_insert; lia); done|];
        simpl; split_and!; try done;
        try (by intros [? ?]); try (by intros _; eexists)
       |apply Hold]).
  - assert (∀ o j m, st !! j = Some m →
              (st ++ [o]) !! j
              = Some (if decide (None = Some j)
                      then append_child m (length st) else m)) as Hold.
    { intros o j m Hj. apply lookup_lt_Some in Hj as Hjl.
      by rewrite lookup_app_l. }
    destruct (a_matcher a) as [x|] eqn:Hmt; intros [= <- <- <-];
      (split_and!;
       [done
       |rewrite length_app; simpl; lia
       |done
       |eexists; split;
        [rewrite lookup_app_r, Nat.sub_diag by lia; done|];
        simpl; split_and!; try done;
        try (by intros [? ?]); try (by intros _; eexists)
       |apply Hold]).
Qed.
Lemma linked_nil : linked [].
Proof. split_and!; by intros ??. Qed.

Lemma Match_init_linked guess_extension (st : store) a st' i e :
  WFst st → linked st →
  Match_init guess_extension st a = Some (st', i, e) → linked st'.
Proof.
  intros Hwf (Hup & Hdown & Hsort) Hinit.
  destruct (Match_init_effect _ _ _ _ _ _ Hinit)
    as (-> & Hlen & Hpar & (o & Ho & Hop & Hoc & _) & Hold).
  assert (∀ j m', st' !! j = Some m' →
            (j = length st ∧ m' = o) ∨
            ∃ m, st !! j = Some m ∧ _parent m' = _parent m ∧
                 _children m' = (if decide (a_parent a = Some j)
                                 then _children m ++ [length st]
                                 else _children m)) as Hcases.
  { intros j m' Hj. apply lookup_lt_Some in Hj as Hjl.
    destruct (decide (j = length st)) as [->|Hne]; [left; split; congruence|].
    right. destruct (lookup_lt_is_Some_2 st j) as [m Hm]; [lia|].
    rewrite (Hold j m Hm) in Hj. injection Hj as <-. exists m.
    split; [done|]. by case_decide. }
  split_and!.
  - intros c m' p Hc Hp.
    destruct (Hcases c m' Hc) as [[-> ->]|(m & Hm & Hpm & _)].
    + rewrite Hop in Hp. specialize (Hpar p Hp).
      destruct (lookup_lt_is_Some_2 st p Hpar) as [pm Hpm].
      eexists. split; [by apply Hold|]. rewrite decide_True by done. simpl.
      apply elem_of_app. right. by left.
    + rewrite Hpm in Hp. destruct (Hup c m p Hm Hp) as (pm & Hpm' & Hin).
      eexists. split; [by apply Hold|].
      case_decide; simpl; [apply elem_of_app; by left|done].
  - intros p pm' c Hp Hc.
    destruct (Hcases p pm' Hp) as [[-> ->]|(pm & Hpm & _ & Hch)].
    + rewrite Hoc in Hc. by apply elem_of_nil in Hc.
    + rewrite Hch in Hc.
      assert (c ∈ _children pm → ∃ m, st' !! c = Some m ∧ _parent m = Some p)
        as Hin.
      { intros Hin. destruct (Hdown p pm c Hpm Hin) as (m & Hm & Hmp).
        eexists. split; [by apply Hold|].
        by destruct (decide (a_parent a = Some c)). }
      case_decide as Hd; [|by apply Hin].
      apply elem_of_app in Hc as [?|Hc]; [by apply Hin|].
      apply list_elem_of_singleton in Hc as ->.
      exists o. split; [done|]. congruence.
  - intros p pm' Hp.
    destruct (Hcases p pm' Hp) as [[-> ->]|(pm & Hpm & _ & Hch)].
    + rewrite Hoc. constructor.
    + rewrite Hch. case_decide; [|by apply (Hsort p pm)].
      apply StronglySorted_app_2; [|by apply (Hsort p pm)|repeat constructor].
      intros x1 x2 Hx1 ->%list_elem_of_singleton.
      destruct (Hwf p pm Hpm) as [_ Hlt]. by destruct (Hlt x1 Hx1).
Qed.

Lemma construct_linked guess_extension calls : ∀ st st',
  WFst st → linked st → construct guess_extension calls st = Some st' →
  linked st'.
Proof.
  induction calls as [|a calls IH]; intros st st' Hwf Hl; simpl.
  - by intros [= <-].
  - destruct (Match_init guess_extension st a) as [[[st1 i] e]|] eqn:Hi;
      simpl; [|done].
    apply IH; [|by apply (Match_init_linked _ _ _ _ _ _ Hwf Hl Hi)].
    by destruct (Match_init_spec _ _ _ _ _ _ Hwf Hi).
Qed.

(** X15: in every store built by constructor calls, a node has parent [p]
    exactly when it is among the children of [p]; the children of a node
    are listed in strictly increasing order of construction, so each once,
    and were all built after it. *)
Theorem constructors_keep_parents_and_children_in_step guess_extension calls st :
  construct guess_extension calls [] = Some st →
  (∀ c m p, st !! c = Some m →
     (_parent m = Some p ↔ ∃ pm, st !! p = Some pm ∧ c ∈ _children pm)) ∧
  (∀ p pm, st !! p = Some pm →
     StronglySorted lt (_children pm) ∧
     ∀ c, c ∈ _children pm → (p < c < length st)%nat).
Proof.
  intros Hc.
  pose proof (construct_WFst _ _ _ _ WFst_nil Hc) as Hwf.
  destruct (construct_linked _ _ _ _ WFst_nil linked_nil Hc) as (Hup & Hdown & Hs).
  split.
  - intros c m p Hm. split; [by apply Hup|].
    intros (pm & Hpm & Hin). destruct (Hdown p pm c Hpm Hin) as (m' & ? & ?).
    by simplify_eq.
  - intros p pm Hpm. split; [by apply (Hs p)|]. by apply (Hwf p pm Hpm).
Qed.

Lemma constructors_keep_parents_and_children_in_step_witness :
  ∃ st, construct no_guess example_tree [] = Some st ∧
    (∀ c m p, st !! c = Some m →
       (_parent m = Some p ↔ ∃ pm, st !! p = Some pm ∧ c ∈ _children pm)) ∧
    (∀ p pm, st !! p = Some pm →
       StronglySorted lt (_children pm) ∧
       ∀ c, c ∈ _children pm → (p < c < length st)%nat).
Proof.
  eexists. split; [vm_compute; reflexivity|].
  apply (constructors_keep_parents_and_children_in_step no_guess example_tree).
  reflexivity.
Defined.

(** *** [root] and [root_offset] *)

Section root.
Context (st : store) (Hwf : WFst st).

Lemma root_fuel_enough f f' i :
  (i < f)%nat → (i < f')%nat → root_fuel f st i = root_fuel f' st i.
Proof.
  revert f' i. induction f as [|f IH]; intros f' i Hf Hf'; [lia|].
  destruct f' as [|f']; [lia|]. simpl.
  destruct (st !! i) as [m|] eqn:Hm; simpl; [|done].
  destruct (_parent m) as [p|] eqn:Hp; [|done].
  destruct (Hwf i m Hm) as [Hup _]. specialize (Hup p Hp).
  by rewrite (IH f' p) by lia.
Qed.

Lemma Match_root_eq i m :
  st !! i = Some m →
  Match_root st i =
  match _parent m with
  | Some p => Match_root st p
  | None => Some i
  end.
Proof.
  intros Hm. unfold Match_root at 1. simpl. rewrite Hm. simpl.
  destruct (_parent m) as [p|] eqn:Hp; [|done].
  destruct (Hwf i m Hm) as [Hup _]. specialize (Hup p Hp).
  by rewrite (root_fuel_enough i (S p) p) by lia.
Qed.

Lemma Match_root_spec i :
  (i < length st)%nat →
  ∃ r rm, Match_root st i = Some r ∧ st !! r = Some rm ∧ _parent rm = None ∧
          (r ≤ i)%nat.
Proof.
  induction (lt_wf i) as [i _ IH]. intros Hi.
  destruct (lookup_lt_is_Some_2 _ _ Hi) as [m Hm].
  rewrite (Match_root_eq i m Hm).
  destruct (_parent m) as [p|] eqn:Hp; [|by exists i, m].
  destruct (Hwf i m Hm) as [Hup _]. specialize (Hup p Hp).
  destruct (IH p Hup) as (r & rm & ? & ? & ? & ?); [lia|].
  exists r, rm. split_and!; [done..|lia].
Qed.

Lemma Match_root_offset_eq i m :
  st !! i = Some m →
  Match_root_offset st i =
  match _parent m with
  | Some p => rop ← Match_root_offset st p; Some (rop + _offset m)
  | None => Some 0
  end.
Proof.
  intros Hm. apply lookup_lt_Some in Hm as Hi. unfold Match_root_offset.
  rewrite (Match_offset_eq st Hwf i m Hm), (Match_root_eq i m Hm).
  destruct (_parent m) as [p|] eqn:Hp.
  - destruct (Hwf i m Hm) as [Hup _]. specialize (Hup p Hp).
    destruct (Match_offset_total st Hwf p) as [po ->]; [lia|]. simpl.
    destruct (Match_root_spec p) as (r & rm & -> & Hr & _); [lia|]. simpl.
    apply lookup_lt_Some in Hr.
    destruct (Match_offset_total st Hwf r Hr) as [ro ->]. simpl.
    f_equal. lia.
  - simpl. rewrite (Match_offset_eq st Hwf i m Hm), Hp. simpl. f_equal. lia.
Qed.
End root.

(** X16: in every store built by constructor calls, [root] of a node is
    defined and is a node without parent, which is its own root; a node
    without parent is its own root and a child has the root of its parent;
    [root_offset] is 0 for a node without parent and, for a child, the
    [root_offset] of its parent plus its relative offset. *)
Theorem root_and_root_offset guess_extension calls st i m :
  construct guess_extension calls [] = Some st → st !! i = Some m →
  ∃ r rm ro,
    Match_root st i = Some r ∧ st !! r = Some rm ∧ _parent rm = None ∧
    Match_root st r = Some r ∧
    match _parent m with
    | Some p => Match_root st p = Some r
    | None => r = i
    end ∧
    Match_root_offset st i = Some ro ∧
    match _parent m with
    | Some p => ∃ rop, Match_root_offset st p = Some rop ∧ ro = rop + _offset m
    | None => ro = 0
    end.
Proof.
  intros Hc Hm. pose proof (construct_WFst _ _ _ _ WFst_nil Hc) as Hwf.
  apply lookup_lt_Some in Hm as Hi.
  destruct (Match_root_spec st Hwf i Hi) as (r & rm & Hr & Hrm & Hrp & _).
  pose proof (Match_root_offset_eq st Hwf i m Hm) as Hro.
  pose proof (Match_root_eq st Hwf i m Hm) as Hre. rewrite Hr in Hre.
  destruct (_parent m) as [p|] eqn:Hp.
  - destruct (Hwf i m Hm) as [Hup _]. specialize (Hup p Hp).
    assert (is_Some (Match_root_offset st p)) as [rop Hrop].
    { apply lookup_lt_Some in Hrm. unfold Match_root_offset.
      destruct (Match_offset_total st Hwf p) as [po ->]; [lia|]. simpl.
      rewrite <- Hre. simpl.
      by destruct (Match_offset_total st Hwf r Hrm) as [x ->]. }
    rewrite Hrop in Hro. simpl in Hro.
    exists r, rm, (rop + _offset m). split_and!; [done..| |done|done|by exists rop].
    by rewrite (Match_root_eq st Hwf r rm Hrm), Hrp.
  - injection Hre as <-. exists r, rm, 0. split_and!; [done..| |done|done|done].
    by rewrite (Match_root_eq st Hwf r rm Hrm), Hrp.
Qed.

Lemma root_and_root_offset_witness :
  ∃ st m r rm ro,
    construct no_guess example_tree [] = Some st ∧ st !! 1%nat = Some m ∧
    Match_root st 1 = Some r ∧ st !! r = Some rm ∧ _parent rm = None ∧
    Match_root st r = Some r ∧
    match _parent m with
    | Some p => Match_root st p = Some r
    | None => r = 1%nat
    end ∧
    Match_root_offset st 1 = Some ro ∧
    match _parent m with
    | Some p => ∃ rop, Match_root_offset st p = Some rop ∧ ro = rop + _offset m
    | None => ro = 0
    end.
Proof.
  eexists _, _.
  destruct (root_and_root_offset no_guess example_tree _ 1%nat _ eq_refl eq_refl)
    as (r & rm & ro & H).
  exists r, rm, ro. split; [reflexivity|]. split; [reflexivity|]. exact H.
Defined.
(** *** The loops of [match] over the tests *)

Section flatten.
Context (guess_extension : string → option string)
        (registered : gmap string (list Parser))
        (recur : list byte → option nat → store → option run)
        (M : Matcher) (data : list byte) (parent : option nat).

Abbreviation results_run :=
  (match_results guess_extension registered recur M data parent).
Abbreviation groups_run :=
  (match_groups guess_extension registered recur M data parent).

Lemma match_results_app xs ys : ∀ matched st,
  results_run matched (xs ++ ys) st =
  '(r1, m1) ← results_run matched xs st;
  match r_exn r1 with
  | Some _ => Some (r1, m1)
  | None =>
      '(r2, m2) ← results_run m1 ys (r_store r1);
      Some (mkRun (r_store r2) (r_out r1 ++ r_out r2) (r_log r1 ++ r_log r2)
                  (r_exn r2), m2)
  end.
Proof.
  induction xs as [|x xs IH]; intros matched st; simpl.
  - by destruct (results_run matched ys st) as [[[] ?]|].
  - destruct (test_mime x) as [u|]; [case_bool_decide|]; try apply IH.
    destruct (handle_mimetype _ _ _ _ _ _ _ _ _ _ _) as [r1|]; simpl; [|done].
    destruct (r_exn r1) eqn:He1; simpl; [by rewrite He1|].
    rewrite IH.
    destruct (results_run (u :: matched) xs (r_store r1)) as [[r2 m2]|];
      simpl; [|done].
    destruct (r_exn r2) eqn:He2; simpl; [by rewrite He2|].
    destruct (results_run m2 ys (r_store r2)) as [[r3 m3]|]; simpl; [|done].
    by rewrite !(assoc_L (++)).
Qed.

Lemma match_groups_concat groups : ∀ matched st,
  groups_run matched groups st
  = fst <$> results_run matched (concat groups) st.
Proof.
  induction groups as [|g groups IH]; intros matched st; simpl; [done|].
  rewrite match_results_app.
  destruct (results_run matched g st) as [[r1 m1]|]; simpl; [|done].
  destruct (r_exn r1); simpl; [done|]. rewrite IH.
  by destruct (results_run m1 (concat groups) (r_store r1)) as [[r2 m2]|].
Qed.
End flatten.
Lemma match_over_concat guess_extension registered fuel
    M data parent st :
  match_ guess_extension registered (S fuel) M data parent st
  = fst <$> match_results guess_extension registered
              (match_ guess_extension registered fuel M) M data parent []
              (concat (magic_matcher M data)) st.
Proof. simpl. unfold match_body. apply match_groups_concat. Qed.

Lemma Match_init_total guess_extension (st : store) a :
  (∀ q, a_parent a = Some q → is_Some (st !! q)) →
  ∃ st' e, Match_init guess_extension st a = Some (st', length st, e).
Proof.
  intros Hp. unfold Match_init. destruct (a_parent a) as [q|]; simpl.
  - destruct (Hp q eq_refl) as [pm ->]. simpl.
    destruct (match a_matcher a with Some x => Some x | None => matcher pm end);
      by eexists _, _.
  - destruct (a_matcher a); by eexists _, _.
Qed.

Section tests.
Context (guess_extension : string → option string)
        (registered : gmap string (list Parser))
        (recur : list byte → option nat → store → option run)
        (M : Matcher) (data : list byte) (parent : option nat).

Lemma match_results_no_parser results : ∀ matched st,
  parse M = true →
  Forall (λ res, ∀ t, test_mime res = Some t → parsers_of registered t = [])
         results →
  ∃ matched',
    match_results guess_extension registered recur M data parent matched
                  results st
    = Some (mkRun st [] [] None, matched').
Proof.
  intros matched st Hparse Hall. revert matched.
  induction Hall as [|x results Hx _ IH]; intros matched; simpl; [by eexists|].
  destruct (test_mime x) as [t|] eqn:Ht; [case_bool_decide|]; try apply IH.
  unfold handle_mimetype. rewrite Hparse, (Hx t eq_refl). simpl.
  destruct (IH (t :: matched)) as (matched' & ->). simpl. by eexists.
Qed.

(** The candidate [handle_mimetype] builds for a test. *)
Lemma candidate_built t res st :
  (∀ q, parent = Some q → is_Some (st !! q)) →
  ∃ st1 cand,
    Match_init guess_extension st
      (mkArgs ClsMatch t (FromTest res) 0 (Some (Z.of_nat (length data) - 0))
              parent (Some (m_addr M)) None None None
              (head (test_all_extensions res)))
    = Some (st1, length st, None) ∧
    length st1 = S (length st) ∧ st1 !! length st = Some cand ∧
    name cand = t ∧ cls cand = ClsMatch ∧ _parent cand = parent ∧
    _children cand = [] ∧ _offset cand = 0 ∧
    _length cand = Some (Z.of_nat (length data)) ∧
    matcher cand = Some (m_addr M) ∧
    (∀ j m, st !! j = Some m →
       st1 !! j = Some (if decide (parent = Some j)
                        then append_child m (length st) else m)).
Proof.
  intros Hp.
  destruct (Match_init_total guess_extension st
              (mkArgs ClsMatch t (FromTest res) 0
                      (Some (Z.of_nat (length data) - 0)) parent
                      (Some (m_addr M)) None None None
                      (head (test_all_extensions res))) Hp) as (st1 & e & Hi).
  destruct (Match_init_effect _ _ _ _ _ _ Hi)
    as (_ & Hlen & _ & (o & Ho & ? & ? & ? & ? & ? & Hol & _ & Hm) & Hold).
  simpl in *. destruct (Hm ltac:(by eexists)) as [-> Hmo].
  exists st1, o. rewrite Z.sub_0_r in Hol. by split_and!.
Qed.

Lemma match_results_noparse results : ∀ matched st,
  parse M = false →
  (∀ q, parent = Some q → is_Some (st !! q)) →
  ∃ r matched',
    match_results guess_extension registered recur M data parent matched
                  results st = Some (r, matched') ∧
    r_exn r = None ∧ r_log r = [] ∧
    r_out r
    = seq (length st) (length (first_seen matched (omap test_mime results))) ∧
    length (r_store r)
    = (length st + length (first_seen matched (omap test_mime results)))%nat ∧
    (∀ j m, st !! j = Some m → parent ≠ Some j → r_store r !! j = Some m) ∧
    ∀ j t, first_seen matched (omap test_mime results) !! j = Some t →
      ∃ m, r_store r !! (length st + j)%nat = Some m ∧ name m = t ∧
           cls m = ClsMatch ∧ _parent m = parent ∧ _children m = [] ∧
           _offset m = 0 ∧ _length m = Some (Z.of_nat (length data)) ∧
           matcher m = Some (m_addr M).
Proof.
  intros matched st Hparse. revert matched st.
  induction results as [|x results IH]; intros matched st Hp; simpl.
  - eexists _, _. split; [done|]. simpl.
    split_and!; [done..|lia|done|by intros j t ?].
  - destruct (test_mime x) as [t|] eqn:Ht; simpl; [|by apply IH].
    case_bool_decide; [by apply IH|].
    unfold handle_mimetype. rewrite Hparse. simpl.
    destruct (candidate_built t x st Hp)
      as (st1 & cand & -> & Hl1 & Hc & Hn & Hcl & Hcp & Hcc & Hco & Hcln & Hcm & Hold).
    simpl.
    destruct (IH (t :: matched) st1)
      as (r & matched' & -> & He & Hlog & Hout & Hlen & Hkeep & Hnew).
    { intros q Hq. destruct (Hp q Hq) as [pm Hpm]. rewrite (Hold q pm Hpm).
      by eexists. }
    simpl. eexists _, _. split; [done|]. simpl.
    assert (parent ≠ Some (length st)) as Hne.
    { intros E. destruct (Hp _ E) as [? ?%lookup_lt_Some]. lia. }
    change (list_omap _ _ test_mime results) with (omap test_mime results) in *.
    split_and!; [done|by rewrite Hlog|by rewrite Hout, Hl1|rewrite Hlen, Hl1; lia| |].
    + intros j m Hj Hpj. apply Hkeep; [|done].
      rewrite (Hold j m Hj). by rewrite decide_False.
    + intros [|j] t'; simpl.
      * intros [= <-]. exists cand. rewrite Nat.add_0_r.
        split_and!; [by apply Hkeep|done..].
      * intros Hj. destruct (Hnew j t' Hj) as (m & Hm & ?).
        exists m. split; [|done]. by rewrite <- Nat.add_succ_comm, <- Hl1.
Qed.
End tests.

(** X17: with parsing disabled, [match] yields exactly one node for each
    distinct MIME string of the tests, in the order of first appearance and
    whatever the registry holds: a [Match] named by the type, below the
    given parent, without children, at relative offset 0 and with the
    length of the input; nothing is logged and nothing raised. *)
Theorem match_without_parsing guess_extension registered fuel M data parent st :
  parse M = false →
  (∀ q, parent = Some q → is_Some (st !! q)) →
  ∃ r,
    match_ guess_extension registered (S fuel) M data parent st = Some r ∧
    r_exn r = None ∧ r_log r = [] ∧
    r_out r
    = seq (length st)
          (length (first_seen [] (omap test_mime (concat (magic_matcher M data))))) ∧
    ∀ j t,
      first_seen [] (omap test_mime (concat (magic_matcher M data))) !! j = Some t →
      ∃ m, r_store r !! (length st + j)%nat = Some m ∧ name m = t ∧
           cls m = ClsMatch ∧ _parent m = parent ∧ _children m = [] ∧
           _offset m = 0 ∧ _length m = Some (Z.of_nat (length data)) ∧
           matcher m = Some (m_addr M).
Proof.
  intros Hparse Hp. rewrite match_over_concat.
  destruct (match_results_noparse guess_extension registered
              (match_ guess_extension registered fuel M) M data parent
              (concat (magic_matcher M data)) [] st Hparse Hp)
    as (r & matched' & -> & He & Hlog & Hout & _ & _ & Hnew).
  by exists r.
Qed.
Lemma match_without_parsing_witness :
  ∃ r, match_ no_guess ∅ 1 plain_matcher [] None [] = Some r ∧
       r_exn r = None ∧ r_log r = [] ∧ r_out r = [0%nat].
Proof.
  destruct (match_without_parsing no_guess ∅ 0 plain_matcher [] None [])
    as (r & Hr & He & Hl & Ho & _); [reflexivity|by intros q [=]|].
  exists r. split_and!; [exact Hr|exact He|exact Hl|exact Ho].
Defined.

(** X18: [match] reads the groups of tests the signature engine returns as
    one sequence: the run over the groups is the run over the single group
    of all their tests in order. *)
Theorem match_reads_the_groups_as_one_sequence guess_extension registered recur
    M data parent matched groups st :
  match_groups guess_extension registered recur M data parent matched groups st
  = match_groups guess_extension registered recur M data parent matched
                 [concat groups] st.
Proof.
  rewrite !match_groups_concat. simpl. by rewrite app_nil_r.
Qed.

(** X19: with parsing enabled, a run of [match] in which no test has a
    parser registered for its MIME type yields nothing and leaves the store
    as it was. *)
Theorem match_yields_nothing_without_a_registered_parser guess_extension
    registered fuel M data parent st :
  parse M = true →
  Forall (λ res, ∀ t, test_mime res = Some t → parsers_of registered t = [])
         (concat (magic_matcher M data)) →
  match_ guess_extension registered (S fuel) M data parent st
  = Some (mkRun st [] [] None).
Proof.
  intros Hparse Hall. rewrite match_over_concat.
  by destruct (match_results_no_parser guess_extension registered
                 (match_ guess_extension registered fuel M) M data parent
                 (concat (magic_matcher M data)) [] st Hparse Hall) as (? & ->).
Qed.

Lemma match_yields_nothing_without_a_registered_parser_witness :
  match_ no_guess ∅ 1 once_matcher [] None [] = Some (mkRun [] [] [] None).
Proof.
  apply (match_yields_nothing_without_a_registered_parser no_guess ∅ 0
           once_matcher [] None []); [reflexivity|].
  repeat constructor.
Defined.

(** X20: an exception other than [InvalidMatch] that the first parser of the
    first test raises before yielding anything leaves [match]: the run ends
    with it, nothing is yielded or logged and no further parser or test is
    tried, while the candidate stays in the store, appended to the children
    of its parent. *)
Theorem fault_before_first_yield_leaves_match guess_extension registered fuel M
    data parent st res results groups t p ps e :
  parse M = true →
  magic_matcher M data = (res :: results) :: groups →
  test_mime res = Some t →
  parsers_of registered t = p :: ps →
  call p data = mkScript [] (RaiseExn e) →
  is_InvalidMatch e = false →
  (∀ q, parent = Some q → is_Some (st !! q)) →
  ∃ st' cand,
    match_ guess_extension registered (S fuel) M data parent st
    = Some (mkRun st' [] [] (Some e)) ∧
    length st' = S (length st) ∧ st' !! length st = Some cand ∧
    name cand = t ∧ _parent cand = parent ∧
    ∀ q pm, parent = Some q → st !! q = Some pm →
      ∃ pm', st' !! q = Some pm' ∧ _children pm' = _children pm ++ [length st].
Proof.
  intros Hparse Hgroups Ht Hps Hcall Hinv Hp.
  destruct (candidate_built guess_extension M data parent t res st Hp)
    as (st1 & cand & Hi & Hl1 & Hc & Hn & _ & Hcp & _ & _ & _ & _ & Hold).
  exists st1, cand. split_and!; [|done..|].
  - simpl. unfold match_body. rewrite Hgroups. simpl. rewrite Ht. simpl.
    unfold handle_mimetype. rewrite Hparse, Hps. simpl.
    unfold try_parser. rewrite Hi. simpl. rewrite window_full.
    unfold run_parser. rewrite Hcall. simpl. by rewrite Hinv.
  - intros q pm Hq Hpm. rewrite (Hold q pm Hpm), decide_True by done.
    by eexists.
Qed.

Lemma fault_before_first_yield_leaves_match_witness :
  ∃ st' cand,
    match_ no_guess one_failing 1 once_matcher [] None []
    = Some (mkRun st' [] [] (Some (OtherException "broken"))) ∧
    length st' = 1%nat ∧ st' !! 0%nat = Some cand ∧ name cand = "x/t".
Proof.
  destruct (fault_before_first_yield_leaves_match no_guess one_failing 0
              once_matcher [] None [] twice [] [] "x/t" failing []
              (OtherException "broken"))
    as (st' & cand & Hr & Hl & Hc & Hn & _);
    [reflexivity..|by intros q [=]|].
  exists st', cand. split_and!; [exact Hr|exact Hl|exact Hc|exact Hn].
Defined.
(** *** What every run of [match] keeps *)





Lemma run_ok_log st r lg ex :
  run_ok st r → run_ok st (mkRun (r_store r) (r_out r) lg ex).
Proof. done. Qed.



Section invariant.
Context (guess_extension : string → option string)
        (registered : gmap string (list Parser))
        (recur : list byte → option nat → store → option run)
        (M : Matcher)
        (Hrec : ∀ sub p st r, recur sub p st = Some r → run_ok st r).








End invariant.





(** A rejected candidate, at a store with one node. *)
Lemma rejected_candidate_trace_witness :
  ∃ st' pm',
    try_parser no_guess (λ _ _ _, None) nested_matcher "x/inner" twice embedded_B
               (Some 0%nat) 0 1 None rejecting [lone_root]
    = Some (mkRun st' [] [] None) ∧
    st' !! 0%nat = Some pm' ∧
    _children pm' = _children lone_root ++ [length [lone_root]].
Proof.
  apply (rejected_candidate_trace no_guess (λ _ _ _, None) nested_matcher
           "x/inner" twice embedded_B 0%nat lone_root 0 1 None rejecting
           [lone_root]); reflexivity.
Defined.

(** *** [to_obj] *)

Lemma offsets_add_up_unfold o :
  offsets_add_up o ↔
  Forall (λ s, obj_offset s = obj_offset o + obj_relative_offset s ∧
               offsets_add_up s) (obj_subEls o).
Proof.
  destruct o as [rel off sz ty nm val subs im de ex]. simpl.
  induction subs as [|s subs IH]; [by split|].
  rewrite Forall_cons, <- IH. tauto.
Qed.

Section to_obj_facts.
Context (str : payload → string) (b64encode : list byte → string)
        (st : store) (Hwf : WFst st) (Hl : linked st).

Lemma to_obj_fuel_enough f f' i :
  (length st - i ≤ f)%nat → (length st - i ≤ f')%nat → (i < length st)%nat →
  to_obj_fuel str b64encode f st i = to_obj_fuel str b64encode f' st i.
Proof.
  revert f' i. induction f as [|f IH]; intros f' i Hf Hf' Hi; [lia|].
  destruct f' as [|f']; [lia|]. simpl.
  destruct (st !! i) as [m|] eqn:Hm; simpl; [|done].
  destruct (Hwf i m Hm) as [_ Hdown].
  rewrite (Forall_mapM_ext _ (to_obj_fuel str b64encode f' st)); [done|].
  apply Forall_forall. intros c Hc. specialize (Hdown c Hc).
  apply IH; lia.
Qed.

Lemma to_obj_eq i m :
  st !! i = Some m →
  to_obj str b64encode st i =
  offset ← Match_offset st i;
  size ← Match_length st i;
  subEls ← mapM (to_obj str b64encode st) (_children m);
  Some (mkObj (_offset m) offset size (name m) (display_name m)
              (str (match_obj m)) subEls (img_data m)
              (b64encode <$> decoded m) (extension m)).
Proof.
  intros Hm. apply lookup_lt_Some in Hm as Hi. unfold to_obj at 1.
  destruct (length st - i)%nat as [|f] eqn:Hf; [lia|]. simpl. rewrite Hm. simpl.
  destruct (Hwf i m Hm) as [_ Hdown].
  rewrite (Forall_mapM_ext _ (to_obj str b64encode st)); [done|].
  apply Forall_forall. intros c Hc. specialize (Hdown c Hc).
  unfold to_obj. apply to_obj_fuel_enough; lia.
Qed.

Lemma to_obj_spec i m :
  st !! i = Some m →
  ∃ o off sz subs,
    to_obj str b64encode st i = Some o ∧
    Match_offset st i = Some off ∧ Match_length st i = Some sz ∧
    o = mkObj (_offset m) off sz (name m) (display_name m) (str (match_obj m))
              subs (img_data m) (b64encode <$> decoded m) (extension m) ∧
    Forall2 (λ c s, to_obj str b64encode st c = Some s) (_children m) subs ∧
    offsets_add_up o.
Proof.
  remember (length st - i)%nat as k eqn:Hk. revert i m Hk.
  induction (lt_wf k) as [k _ IH]. intros i m -> Hm.
  apply lookup_lt_Some in Hm as Hi.
  rewrite (to_obj_eq i m Hm).
  destruct (Match_offset_total st Hwf i Hi) as [off Hoff].
  destruct (Match_length_total st Hwf i Hi) as [sz Hsz].
  rewrite Hoff, Hsz. simpl.
  destruct (Hwf i m Hm) as [_ Hdown]. destruct Hl as (_ & Hpar & _).
  assert (∀ c, c ∈ _children m →
            ∃ s, to_obj str b64encode st c = Some s ∧
                 obj_offset s = off + obj_relative_offset s ∧
                 offsets_add_up s) as Hsub.
  { intros c Hc. specialize (Hdown c Hc).
    destruct (Hpar i m c Hm Hc) as (cm & Hcm & Hcp).
    destruct (IH (length st - c)%nat ltac:(lia) c cm eq_refl Hcm)
      as (s & offc & szc & subsc & Hs & Hoffc & _ & -> & _ & Hadd).
    exists (mkObj (_offset cm) offc szc (name cm) (display_name cm)
                  (str (match_obj cm)) subsc (img_data cm)
                  (b64encode <$> decoded cm) (extension cm)).
    split_and!; [done| |done]. simpl.
    rewrite (Match_offset_eq st Hwf c cm Hcm), Hcp, Hoff in Hoffc.
    simpl in Hoffc. by injection Hoffc as <-. }
  assert (∃ subs, mapM (to_obj str b64encode st) (_children m) = Some subs ∧
            Forall2 (λ c s, to_obj str b64encode st c = Some s) (_children m) subs ∧
            Forall (λ s, obj_offset s = off + obj_relative_offset s ∧
                         offsets_add_up s) subs) as (subs & -> & Hsubs & Hall).
  { clear Hdown Hm. induction (_children m) as [|c cs IHcs].
    - exists []. by split_and!.
    - destruct (Hsub c) as (s & Hs & Ho & Ha); [by left|].
      destruct IHcs as (subs & Hm' & H2 & Hall); [intros c' ?; apply Hsub; by right|].
      exists (s :: subs). simpl. rewrite Hs. simpl. rewrite Hm'. simpl.
      split_and!; [done|by constructor|by constructor]. }
  simpl. eexists _, off, sz, subs. split_and!; [done..|].
  by apply offsets_add_up_unfold.
Qed.
End to_obj_facts.

(** X23: on every node of a store built by constructor calls, [to_obj]
    returns: the dict holds the relative offset, the offset, the length and
    the names of the node, its sub-elements are the dicts of the children in
    order, and every sub-element, at every depth, lies at the offset of its
    element plus its own relative offset. *)
Theorem to_obj_mirrors_the_tree str b64encode guess_extension calls st i m :
  construct guess_extension calls [] = Some st → st !! i = Some m →
  ∃ o off sz subs,
    to_obj str b64encode st i = Some o ∧
    Match_offset st i = Some off ∧ Match_length st i = Some sz ∧
    o = mkObj (_offset m) off sz (name m) (display_name m) (str (match_obj m))
              subs (img_data m) (b64encode <$> decoded m) (extension m) ∧
    Forall2 (λ c s, to_obj str b64encode st c = Some s) (_children m) subs ∧
    offsets_add_up o.
Proof.
  intros Hc Hm. apply to_obj_spec; [|by apply (construct_linked _ _ _ _ WFst_nil linked_nil Hc)|done].
  by apply (construct_WFst _ _ _ _ WFst_nil Hc).
Qed.

Lemma to_obj_mirrors_the_tree_witness :
  ∃ st m o off sz subs,
    construct no_guess example_tree [] = Some st ∧ st !! 0%nat = Some m ∧
    to_obj (λ _, "") (λ _, "") st 0 = Some o ∧
    Match_offset st 0 = Some off ∧ Match_length st 0 = Some sz ∧
    o = mkObj (_offset m) off sz (name m) (display_name m) ""
              subs (img_data m) ((λ _, "") <$> decoded m) (extension m) ∧
    Forall2 (λ c s, to_obj (λ _, "") (λ _, "") st c = Some s) (_children m) subs ∧
    offsets_add_up o.
Proof.
  eexists _, _.
  destruct (to_obj_mirrors_the_tree (λ _, "") (λ _, "") no_guess example_tree _
              0%nat _ eq_refl eq_refl) as (o & off & sz & subs & H).
  exists o, off, sz, subs. split; [reflexivity|]. split; [reflexivity|]. exact H.
Defined.

Section silent_parsers.
Context (guess_extension : string → option string)
        (recur : list byte → option nat → store → option run)
        (M : Matcher).

Lemma try_parsers_silent t res data parent offset len ext ps : ∀ st,
  (∀ q, parent = Some q → is_Some (st !! q)) →
  Forall (λ p, call p (window data offset len) = mkScript [] Return) ps →
  ∃ r,
    try_parsers guess_extension recur M t res data parent offset len ext ps st
    = Some r ∧
    r_exn r = None ∧ r_log r = [] ∧ r_out r = seq (length st) (length ps) ∧
    length (r_store r) = (length st + length ps)%nat ∧
    (∀ j m, st !! j = Some m → parent ≠ Some j → r_store r !! j = Some m) ∧
    ∀ j, (j < length ps)%nat →
      ∃ m, r_store r !! (length st + j)%nat = Some m ∧ name m = t ∧
           cls m = ClsMatch ∧ _parent m = parent ∧ _children m = [] ∧
           _offset m = offset ∧ _length m = Some len.
Proof.
  intros st Hp Hall. revert st Hp.
  induction Hall as [|p ps Hcall _ IH]; intros st Hp; simpl.
  - eexists. split; [done|]. simpl. split_and!; [done..|lia|done|]. intros j ?. lia.
  - unfold try_parser.
    destruct (Match_init_total guess_extension st
                (mkArgs ClsMatch t (FromTest res) offset (Some len) parent
                        (Some (m_addr M)) None None None ext) Hp) as (st1 & e & Hi).
    destruct (Match_init_effect _ _ _ _ _ _ Hi)
      as (_ & Hl1 & _ & (o & Ho & ? & ? & ? & ? & ? & ? & _ & Hm) & Hold).
    simpl in *. destruct (Hm ltac:(by eexists)) as [-> _].
    rewrite Hi. simpl. unfold run_parser. rewrite Hcall. simpl.
    destruct (IH st1) as (r & Hr & He & Hlog & Hout & Hlen & Hkeep & Hnew).
    { intros q Hq. destruct (Hp q Hq) as [pm Hpm]. rewrite (Hold q pm Hpm).
      by eexists. }
    unfold and_then. simpl. rewrite Hr. simpl.
    assert (parent ≠ Some (length st)) as Hne.
    { intros E. destruct (Hp _ E) as [? ?%lookup_lt_Some]. lia. }
    eexists. split; [done|]. simpl.
    split_and!; [done|by rewrite Hlog|by rewrite Hout, Hl1|lia| |].
    + intros j m Hj Hpj. apply Hkeep; [|done].
      rewrite (Hold j m Hj). by rewrite decide_False.
    + intros [|j] Hj.
      * exists o. rewrite Nat.add_0_r. split_and!; [by apply Hkeep|done..].
      * destruct (Hnew j ltac:(lia)) as (m & Hm' & ?).
        exists m. split; [|done]. by rewrite <- Nat.add_succ_comm, <- Hl1.
Qed.
End silent_parsers.

(** X24: with parsing enabled, [handle_mimetype] builds and yields one
    candidate for each parser registered for the type (not one for the
    type): when these parsers yield nothing and return, the candidates are
    all that is yielded, one per parser, each named by the type, below the
    given parent and without children. *)
Theorem one_candidate_for_each_registered_parser guess_extension registered
    recur M t res data parent st :
  parse M = true →
  (∀ q, parent = Some q → is_Some (st !! q)) →
  Forall (λ p, call p data = mkScript [] Return) (parsers_of registered t) →
  ∃ r,
    handle_mimetype guess_extension registered recur M t res data parent 0 None
                    st = Some r ∧
    r_exn r = None ∧ r_log r = [] ∧
    r_out r = seq (length st) (length (parsers_of registered t)) ∧
    ∀ j, (j < length (parsers_of registered t))%nat →
      ∃ m, r_store r !! (length st + j)%nat = Some m ∧ name m = t ∧
           cls m = ClsMatch ∧ _parent m = parent ∧ _children m = [] ∧
           _offset m = 0 ∧ _length m = Some (Z.of_nat (length data)).
Proof.
  intros Hparse Hp Hall. unfold handle_mimetype. rewrite Hparse. simpl.
  destruct (try_parsers_silent guess_extension recur M t res data parent 0
              (Z.of_nat (length data) - 0) (head (test_all_extensions res))
              (parsers_of registered t) st Hp)
    as (r & Hr & He & Hlog & Hout & _ & _ & Hnew).
  { by rewrite window_full. }
  exists r. split_and!; [done..|]. intros j Hj.
  destruct (Hnew j Hj) as (m & ? & ? & ? & ? & ? & ? & Hlen).
  exists m. rewrite Z.sub_0_r in Hlen. by split_and!.
Qed.

Lemma one_candidate_for_each_registered_parser_witness :
  ∃ r,
    handle_mimetype no_guess two_silent (λ _ _ _, None) nest_matcher "x/t" twice
                    [] None 0 None [] = Some r ∧
    r_exn r = None ∧ r_log r = [] ∧ r_out r = [0; 1]%nat.
Proof.
  destruct (one_candidate_for_each_registered_parser no_guess two_silent
              (λ _ _ _, None) nest_matcher "x/t" twice [] None [])
    as (r & Hr & He & Hl & Ho & _);
    [reflexivity|by intros q [=]|repeat constructor|].
  exists r. split_and!; [exact Hr|exact He|exact Hl|exact Ho].
Defined.

End PolyfileFacts.
